(** * cockpit/transports.py: fd-based asyncio transports

    A shallow embedding of [src/cockpit/transports.py]: the [_Transport]
    base class with its two concrete subclasses ([SubprocessTransport],
    [StdioTransport]) and the [Spooler].

    Python objects are records; methods are computations in a state and
    exception monad over a [World] made of the transport object, the
    asyncio event loop (reader and writer registries, child watcher,
    [call_soon] queue) and a chronological log of every call that leaves
    the transport: loop calls, protocol callbacks and system calls.

    What the embedding takes from outside the module:
    - the answer of a system call is an input of the method that makes
      the call ([os.read], [os.write], [os.writev], [os.waitpid],
      [os.pidfd_open]) or a field of the world ([os.kill]);
    - a protocol callback is an entry of the log, and what
      [eof_received] answers is an input of [_read_ready]; the protocol
      does not call the transport from inside a callback;
    - [assert] statements are executed (the interpreter does not run
      with [-O]);
    - logging, [os.set_blocking] and the [ioctl] of [set_window_size]
      change nothing that the transport reads back, and are left out. *)

From Stdlib Require Import ZArith Init.Byte.
From stdpp Require Import base option list gmap.

Local Open Scope Z_scope.

(** ** Bytes, errno values, signals *)

Abbreviation bytes := (list byte).

Definition EPERM : Z := 1.
Definition ESRCH : Z := 3.
Definition EIO : Z := 5.
Definition EBADF : Z := 9.
Definition EAGAIN : Z := 11.
Definition EACCES : Z := 13.
Definition EINVAL : Z := 22.
Definition EPIPE : Z := 32.
Definition EALREADY : Z := 114.
Definition EINPROGRESS : Z := 115.

Definition SIGKILL : Z := 9.
Definition SIGTERM : Z := 15.

Definition IOV_MAX : nat := 1024.

(** Python exceptions the module raises or catches.  [OSError] carries its
    errno; the interpreter picks the subclass from it, so an [except]
    clause naming a subclass is a test on the errno. *)
Inductive exn :=
| OSError (errno : Z)
| AssertionError
| NotImplementedError
| RuntimeError
| IndexError.

#[global] Instance exn_eq_dec : EqDecision exn.
Proof. solve_decision. Defined.

Definition is_BlockingIOError (e : Z) : bool :=
  (e =? EAGAIN) || (e =? EALREADY) || (e =? EINPROGRESS).
Definition is_ProcessLookupError (e : Z) : bool := e =? ESRCH.
Definition is_PermissionError (e : Z) : bool := (e =? EACCES) || (e =? EPERM).

(** Outcome of a system call: a value, or the errno of the [OSError]. *)
Inductive sys (A : Type) :=
| Done (a : A)
| Errno (e : Z).
Arguments Done {A} a.
Arguments Errno {A} e.

(** ** The event loop and the log *)

Inductive Callback := connection_lost (exc : option exn).

Inductive ReaderCb := cb_read_ready | cb_pidfd_ready.

#[global] Instance ReaderCb_eq_dec : EqDecision ReaderCb.
Proof. solve_decision. Defined.

Record Loop := {
  readers : gmap Z ReaderCb;
  writers : gset Z;
  child_handlers : gset Z;
  ready : list Callback
}.

Inductive Event :=
| LoopAddReader (fd : Z) (cb : ReaderCb)
| LoopRemoveReader (fd : Z)
| LoopAddWriter (fd : Z)
| LoopRemoveWriter (fd : Z)
| LoopCallSoon (cb : Callback)
| ProtoConnectionMade
| ProtoDataReceived (data : bytes)
| ProtoEofReceived
| ProtoConnectionLost (exc : option exn)
| ProtoPauseWriting
| ProtoResumeWriting
| ProtoProcessExited
| SysRead (fd : Z) (res : sys bytes)
| SysWrite (fd : Z) (data : bytes) (res : sys nat)
| SysWritev (fd : Z) (iov : list bytes) (res : sys nat)
| SysClose (fd : Z)
| SysKill (pid : Z) (sig : Z) (res : sys unit).

(** ** The transport object *)

Inductive Class := BaseTransport | SubprocessTransport | StdioTransport.

(** A Python file object over a pipe end. *)
Record File := { fileno : Z; closed : bool }.

(** [subprocess.Popen]: the pid and the [stdin] attribute. *)
Record Popen := { pid : Z; stdin : option File }.

Record Transport := {
  cls : Class;
  _queue : option (list bytes);
  _in_fd : Z;
  _out_fd : Z;
  _closing : bool;
  _is_reading : bool;
  _eof : bool;
  _eio_is_eof : bool;
  (* SubprocessTransport *)
  _pty_fd : option Z;
  _process : option Popen;
  _returncode : option Z
}.

Definition set_queue (q : option (list bytes)) (t : Transport) : Transport :=
  {| cls := cls t; _queue := q; _in_fd := _in_fd t; _out_fd := _out_fd t;
     _closing := _closing t; _is_reading := _is_reading t; _eof := _eof t;
     _eio_is_eof := _eio_is_eof t; _pty_fd := _pty_fd t;
     _process := _process t; _returncode := _returncode t |}.

Definition set_in_fd (fd : Z) (t : Transport) : Transport :=
  {| cls := cls t; _queue := _queue t; _in_fd := fd; _out_fd := _out_fd t;
     _closing := _closing t; _is_reading := _is_reading t; _eof := _eof t;
     _eio_is_eof := _eio_is_eof t; _pty_fd := _pty_fd t;
     _process := _process t; _returncode := _returncode t |}.

Definition set_out_fd (fd : Z) (t : Transport) : Transport :=
  {| cls := cls t; _queue := _queue t; _in_fd := _in_fd t; _out_fd := fd;
     _closing := _closing t; _is_reading := _is_reading t; _eof := _eof t;
     _eio_is_eof := _eio_is_eof t; _pty_fd := _pty_fd t;
     _process := _process t; _returncode := _returncode t |}.

Definition set_closing (b : bool) (t : Transport) : Transport :=
  {| cls := cls t; _queue := _queue t; _in_fd := _in_fd t; _out_fd := _out_fd t;
     _closing := b; _is_reading := _is_reading t; _eof := _eof t;
     _eio_is_eof := _eio_is_eof t; _pty_fd := _pty_fd t;
     _process := _process t; _returncode := _returncode t |}.

Definition set_is_reading (b : bool) (t : Transport) : Transport :=
  {| cls := cls t; _queue := _queue t; _in_fd := _in_fd t; _out_fd := _out_fd t;
     _closing := _closing t; _is_reading := b; _eof := _eof t;
     _eio_is_eof := _eio_is_eof t; _pty_fd := _pty_fd t;
     _process := _process t; _returncode := _returncode t |}.

Definition set_eof (b : bool) (t : Transport) : Transport :=
  {| cls := cls t; _queue := _queue t; _in_fd := _in_fd t; _out_fd := _out_fd t;
     _closing := _closing t; _is_reading := _is_reading t; _eof := b;
     _eio_is_eof := _eio_is_eof t; _pty_fd := _pty_fd t;
     _process := _process t; _returncode := _returncode t |}.

Definition set_pty_fd (p : option Z) (t : Transport) : Transport :=
  {| cls := cls t; _queue := _queue t; _in_fd := _in_fd t; _out_fd := _out_fd t;
     _closing := _closing t; _is_reading := _is_reading t; _eof := _eof t;
     _eio_is_eof := _eio_is_eof t; _pty_fd := p;
     _process := _process t; _returncode := _returncode t |}.

Definition set_process (p : option Popen) (t : Transport) : Transport :=
  {| cls := cls t; _queue := _queue t; _in_fd := _in_fd t; _out_fd := _out_fd t;
     _closing := _closing t; _is_reading := _is_reading t; _eof := _eof t;
     _eio_is_eof := _eio_is_eof t; _pty_fd := _pty_fd t;
     _process := p; _returncode := _returncode t |}.

Definition set_returncode (r : option Z) (t : Transport) : Transport :=
  {| cls := cls t; _queue := _queue t; _in_fd := _in_fd t; _out_fd := _out_fd t;
     _closing := _closing t; _is_reading := _is_reading t; _eof := _eof t;
     _eio_is_eof := _eio_is_eof t; _pty_fd := _pty_fd t;
     _process := _process t; _returncode := r |}.

(** ** Worlds and computations *)

(** [os_kill pid sig] is what [os.kill] answers: [None] on success, the
    errno otherwise. *)
Record World := {
  tr : Transport;
  loop : Loop;
  log : list Event;
  os_kill : Z → Z → option Z
}.

Inductive Res (A : Type) :=
| Ok (a : A)
| Raise (e : exn).
Arguments Ok {A} a.
Arguments Raise {A} e.

Definition M (A : Type) : Type := World → Res A * World.

Definition ret {A} (a : A) : M A := λ w, (Ok a, w).

Definition bind {A B} (m : M A) (f : A → M B) : M B :=
  λ w, match m w with
       | (Ok a, w') => f a w'
       | (Raise e, w') => (Raise e, w')
       end.

#[global] Instance M_ret : MRet M := @ret.
#[global] Instance M_bind : MBind M := λ A B f m, bind m f.

Definition raise {A} (e : exn) : M A := λ w, (Raise e, w).

(** [try: m except e if handles e: h e]. *)
Definition try_except {A} (m : M A) (handles : exn → bool) (h : exn → M A) : M A :=
  λ w, match m w with
       | (Ok a, w') => (Ok a, w')
       | (Raise e, w') => if handles e then h e w' else (Raise e, w')
       end.

Definition assert (b : bool) : M unit :=
  if b then ret tt else raise AssertionError.

Definition self : M Transport := λ w, (Ok (tr w), w).

Definition update (f : Transport → Transport) : M unit :=
  λ w, (Ok tt, {| tr := f (tr w); loop := loop w; log := log w; os_kill := os_kill w |}).

Definition emit (e : Event) : M unit :=
  λ w, (Ok tt, {| tr := tr w; loop := loop w; log := log w ++ [e]; os_kill := os_kill w |}).

Definition update_loop (f : Loop → Loop) : M unit :=
  λ w, (Ok tt, {| tr := tr w; loop := f (loop w); log := log w; os_kill := os_kill w |}).

Definition run {A} (m : M A) (w : World) : World := snd (m w).
Definition result {A} (m : M A) (w : World) : Res A := fst (m w).

(** *** Loop methods *)

Definition loop_add_reader (fd : Z) (cb : ReaderCb) : M unit :=
  update_loop (λ l, {| readers := <[fd := cb]> (readers l); writers := writers l;
                       child_handlers := child_handlers l; ready := ready l |});;
  emit (LoopAddReader fd cb).

Definition loop_remove_reader (fd : Z) : M unit :=
  update_loop (λ l, {| readers := delete fd (readers l); writers := writers l;
                       child_handlers := child_handlers l; ready := ready l |});;
  emit (LoopRemoveReader fd).

Definition loop_add_writer (fd : Z) : M unit :=
  update_loop (λ l, {| readers := readers l; writers := {[fd]} ∪ writers l;
                       child_handlers := child_handlers l; ready := ready l |});;
  emit (LoopAddWriter fd).

Definition loop_remove_writer (fd : Z) : M unit :=
  update_loop (λ l, {| readers := readers l; writers := writers l ∖ {[fd]};
                       child_handlers := child_handlers l; ready := ready l |});;
  emit (LoopRemoveWriter fd).

Definition loop_call_soon (cb : Callback) : M unit :=
  update_loop (λ l, {| readers := readers l; writers := writers l;
                       child_handlers := child_handlers l; ready := ready l ++ [cb] |});;
  emit (LoopCallSoon cb).

(** ** [_Transport] and its subclasses *)

(** [file.close()]: closing a closed file object does nothing. *)
Definition file_close (f : File) : M File :=
  if closed f then ret f
  else emit (SysClose (fileno f));; ret {| fileno := fileno f; closed := true |}.

Definition pause_reading : M unit :=
  t ← self;
  if _is_reading t then
    loop_remove_reader (_in_fd t);;
    update (set_is_reading false)
  else ret tt.

Definition _close_reader : M unit :=
  pause_reading;;
  update (set_in_fd (-1)).

Definition resume_reading : M unit :=
  t ← self;
  if negb (_is_reading t) && negb (_in_fd t =? -1) then
    loop_add_reader (_in_fd t) cb_read_ready;;
    update (set_is_reading true)
  else ret tt.

Definition is_reading : M bool := t ← self; ret (_is_reading t).
Definition is_closing : M bool := t ← self; ret (_closing t).
Definition get_returncode : M (option Z) := t ← self; ret (_returncode t).

Definition _remove_write_queue : M unit :=
  t ← self;
  match _queue t with
  | Some _ =>
      emit ProtoResumeWriting;;
      loop_remove_writer (_out_fd t);;
      update (set_queue None)
  | None => ret tt
  end.

Definition _create_write_queue (data : bytes) : M unit :=
  t ← self;
  assert (bool_decide (_queue t = None));;
  loop_add_writer (_out_fd t);;
  update (set_queue (Some [data]));;
  emit ProtoPauseWriting.

(** [os.kill]: the errno of the [OSError] it raises, if any. *)
Definition sys_kill (p : Z) (sig : Z) : M (option Z) :=
  λ w, (Ok (os_kill w p sig), w).

(** [SubprocessTransport.send_signal] *)
Definition send_signal (sig : Z) : M unit :=
  t ← self;
  match _process t with
  | None => raise AssertionError
  | Some p =>
      match _returncode t with
      | Some _ => ret tt
      | None =>
          failure ← sys_kill (pid p) sig;
          match failure with
          | None => emit (SysKill (pid p) sig (Done tt))
          | Some e =>
              emit (SysKill (pid p) sig (Errno e));;
              if is_ProcessLookupError e then ret tt
              else raise (OSError e)
          end
      end
  end.

Definition terminate : M unit := send_signal SIGTERM.
Definition kill : M unit := send_signal SIGKILL.

Definition handles_PermissionError (e : exn) : bool :=
  match e with OSError n => is_PermissionError n | _ => false end.

(** [_close]: [pass] in [_Transport] (and so in [StdioTransport]),
    overridden by [SubprocessTransport]. *)
Definition _close : M unit :=
  t ← self;
  match cls t with
  | SubprocessTransport =>
      match _pty_fd t with
      | Some fd => emit (SysClose fd);; update (set_pty_fd None)
      | None => ret tt
      end;;
      match _process t with
      | Some p =>
          match stdin p with
          | Some f =>
              file_close f;;
              update (set_process (Some {| pid := pid p; stdin := None |}))
          | None => ret tt
          end;;
          try_except terminate handles_PermissionError (λ _, ret tt)
      | None => ret tt
      end
  | _ => ret tt
  end.

Definition abort (exc : option exn) : M unit :=
  update (set_closing true);;
  _close_reader;;
  _remove_write_queue;;
  loop_call_soon (connection_lost exc);;
  _close.

(** [_write_eof_now]: abstract in [_Transport]. *)
Definition _write_eof_now : M unit :=
  t ← self;
  match cls t with
  | BaseTransport => raise NotImplementedError
  | StdioTransport => raise RuntimeError
  | SubprocessTransport =>
      match _process t with
      | None => raise AssertionError
      | Some p =>
          match stdin p with
          | None => raise AssertionError
          | Some f =>
              f' ← file_close f;
              update (set_process (Some {| pid := pid p; stdin := Some f' |}));;
              update (set_out_fd (-1))
          end
      end
  end.

Definition can_write_eof : M bool :=
  t ← self;
  match cls t with
  | BaseTransport => raise NotImplementedError
  | StdioTransport => ret false
  | SubprocessTransport =>
      match _process t with
      | None => raise AssertionError
      | Some p => ret (bool_decide (stdin p ≠ None))
      end
  end.

Definition write_eof : M unit :=
  t ← self;
  assert (negb (_eof t));;
  update (set_eof true);;
  match _queue t with
  | None => _write_eof_now
  | Some _ => ret tt
  end.

Definition get_write_buffer_size : M nat :=
  t ← self;
  match _queue t with
  | None => ret 0%nat
  | Some q => ret (sum_list (length <$> q))
  end.

(** The [while n_bytes:] loop of [_write_ready]: [None] is the
    [IndexError] of [popleft] on an empty deque. *)
Fixpoint pop_written (n_bytes : nat) (queue : list bytes) : option (list bytes) :=
  match n_bytes with
  | O => Some queue
  | S _ =>
      match queue with
      | [] => None
      | block :: rest =>
          if (n_bytes <? length block)%nat then Some (drop n_bytes block :: rest)
          else pop_written (n_bytes - length block) rest
      end
  end.

(** The part of [_write_ready] after the [try] statement. *)
Definition _write_ready_wrote (queue : list bytes) (n_bytes : nat) : M unit :=
  match pop_written n_bytes queue with
  | None =>
      (* every block was popped before [popleft] failed *)
      update (set_queue (Some []));;
      raise IndexError
  | Some queue' =>
      update (set_queue (Some queue'));;
      match queue' with
      | [] =>
          _remove_write_queue;;
          t ← self;
          (if _eof t then _write_eof_now else ret tt);;
          t ← self;
          if _closing t then abort None else ret tt
      | _ :: _ => ret tt
      end
  end.

(** [_write_ready], given what [os.writev] answers. *)
Definition _write_ready (res : sys nat) : M unit :=
  t ← self;
  match _queue t with
  | None => raise AssertionError
  | Some queue =>
      emit (SysWritev (_out_fd t) queue res);;
      match res with
      | Done n_bytes => _write_ready_wrote queue n_bytes
      | Errno e =>
          if is_BlockingIOError e then _write_ready_wrote queue 0
          else abort (Some (OSError e))
      end
  end.

(** The part of [write] after the [try] statement. *)
Definition write_wrote (data : bytes) (n_bytes : nat) : M unit :=
  if bool_decide (n_bytes ≠ length data)
  then _create_write_queue (drop n_bytes data)
  else ret tt.

(** [write], given what [os.write] answers should it be called. *)
Definition write (data : bytes) (res : sys nat) : M unit :=
  t ← self;
  if _closing t then ret tt
  else
    assert (negb (_eof t));;
    match _queue t with
    | Some queue =>
        let queue := queue ++ [data] in
        if (IOV_MAX <? length queue)%nat
        then update (set_queue (Some [concat queue]))
        else update (set_queue (Some queue))
    | None =>
        emit (SysWrite (_out_fd t) data res);;
        match res with
        | Done n_bytes => write_wrote data n_bytes
        | Errno e =>
            if is_BlockingIOError e then write_wrote data 0
            else abort (Some (OSError e))
        end
    end.

Definition close : M unit :=
  t ← self;
  if _closing t then ret tt
  else
    update (set_closing true);;
    _close_reader;;
    match _queue t with
    | Some _ => ret tt
    | None => abort None
    end.

(** The part of [_read_ready] after the [try] statement; [keep_open] is
    what the protocol's [eof_received] answers. *)
Definition _read_ready_got (data : bytes) (keep_open : bool) : M unit :=
  match data with
  | _ :: _ => emit (ProtoDataReceived data)
  | [] =>
      _close_reader;;
      emit ProtoEofReceived;;
      if negb keep_open then close else ret tt
  end.

(** [_read_ready], given what [os.read] answers. *)
Definition _read_ready (res : sys bytes) (keep_open : bool) : M unit :=
  t ← self;
  emit (SysRead (_in_fd t) res);;
  match res with
  | Done data => _read_ready_got data keep_open
  | Errno e =>
      if is_BlockingIOError e then ret tt
      else if _eio_is_eof t && (e =? EIO) then _read_ready_got [] keep_open
      else abort (Some (OSError e))
  end.

(** *** Construction *)

Definition new_transport (c : Class) (in_fd out_fd : Z) : Transport :=
  {| cls := c; _queue := None; _in_fd := in_fd; _out_fd := out_fd;
     _closing := false; _is_reading := false; _eof := false;
     _eio_is_eof := false; _pty_fd := None; _process := None;
     _returncode := None |}.

Definition empty_loop : Loop :=
  {| readers := ∅; writers := ∅; child_handlers := ∅; ready := [] |}.

(** [_Transport.__init__] on a fresh object: [connection_made], then
    [resume_reading]. *)
Definition __init__ : M unit :=
  emit ProtoConnectionMade;;
  resume_reading.

(** [os.waitstatus_to_exitcode] on Linux: the exit status of a process
    that exited, minus the signal number of one that was killed, [None]
    for the [ValueError] of any other wait status. *)
Definition waitstatus_to_exitcode (status : Z) : option Z :=
  if Z.land status 127 =? 0 then Some (Z.land (Z.shiftr status 8) 255)
  else if Z.land status 127 =? 127 then None
  else Some (- Z.land status 127).

(** *** [watch_exit] and its callbacks *)

Definition flag_exit : M unit :=
  t ← self;
  if negb (_closing t) then emit ProtoProcessExited else ret tt.

(** [pidfd_ready], for the pidfd it was registered on and the status
    [os.waitpid] collects for the child ([os.waitpid] answers for the pid
    it is asked about, which is what the [assert] checks). *)
Definition pidfd_ready (pidfd : Z) (status : Z) : M unit :=
  update (set_returncode (Some (default status (waitstatus_to_exitcode status))));;
  loop_remove_reader pidfd;;
  emit (SysClose pidfd);;
  flag_exit.

Definition child_watch_fired (p : Z) (code : Z) : M unit :=
  t ← self;
  assert (bool_decide (pid <$> _process t = Some p));;
  update (set_returncode (Some code));;
  flag_exit.

Definition watcher_add_child_handler (p : Z) : M unit :=
  update_loop (λ l, {| readers := readers l; writers := writers l;
                       child_handlers := {[p]} ∪ child_handlers l; ready := ready l |}).

(** [watch_exit], given what [os.pidfd_open] answers ([None] when it is
    missing or fails). *)
Definition watch_exit (pidfd : option Z) : M unit :=
  t ← self;
  match _process t with
  | None => raise AssertionError
  | Some p =>
      match pidfd with
      | Some fd => loop_add_reader fd cb_pidfd_ready
      | None => watcher_add_child_handler (pid p)
      end
  end.

(** The object [SubprocessTransport.__init__] hands to
    [_Transport.__init__] once the child is spawned.  In pty mode
    ([master] is the pty master) the child gets the slave end for its
    three streams, so [Popen.stdin] is [None]; in pipe mode [stdin_fd] and
    [stdout_fd] are the parent's ends of the two pipes. *)
Definition new_subprocess_transport (master : option Z) (child : Z) (stdin_fd stdout_fd : Z)
  : Transport :=
  match master with
  | Some fd =>
      {| cls := SubprocessTransport; _queue := None; _in_fd := fd; _out_fd := fd;
         _closing := false; _is_reading := false; _eof := false;
         _eio_is_eof := true; _pty_fd := Some fd;
         _process := Some {| pid := child; stdin := None |};
         _returncode := None |}
  | None =>
      set_process
        (Some {| pid := child; stdin := Some {| fileno := stdin_fd; closed := false |} |})
        (new_transport SubprocessTransport stdout_fd stdin_fd)
  end.

(** [SubprocessTransport.__init__] from [super().__init__] on. *)
Definition SubprocessTransport__init__ (pidfd : option Z) : M unit :=
  __init__;;
  watch_exit pidfd.

(** ** The loop at work *)

Definition deliver (cb : Callback) : Event :=
  match cb with connection_lost exc => ProtoConnectionLost exc end.

(** One pass over the callbacks scheduled with [call_soon]. *)
Definition loop_run_ready : M unit :=
  λ w, (Ok tt,
        {| tr := tr w;
           loop := {| readers := readers (loop w); writers := writers (loop w);
                      child_handlers := child_handlers (loop w); ready := [] |};
           log := log w ++ (deliver <$> ready (loop w));
           os_kill := os_kill w |}).

(** What can happen to a transport: a call of its consumer, or the loop
    running one of the callbacks registered with it.  A callback runs
    only while it is registered. *)
Inductive Action :=
| Write (data : bytes) (res : sys nat)
| WriteEof
| Close
| Abort (exc : option exn)
| PauseReading
| ResumeReading
| SendSignal (sig : Z)
| Readable (fd : Z) (res : sys bytes) (keep_open : bool)
| Writable (fd : Z) (res : sys nat)
| PidfdReadable (fd : Z) (status : Z)
| ChildExited (p : Z) (code : Z)
| RunReady.

(** Run [m] only if [guard] holds of the loop. *)
Definition when_registered (guard : Loop → bool) (m : M unit) : M unit :=
  λ w, if guard (loop w) then m w else (Ok tt, w).

(** The child watcher forgets a handler before it calls it. *)
Definition watcher_forget (p : Z) : M unit :=
  update_loop (λ l, {| readers := readers l; writers := writers l;
                       child_handlers := child_handlers l ∖ {[p]};
                       ready := ready l |}).

Definition watcher_fire (p : Z) (code : Z) : M unit :=
  watcher_forget p;;
  child_watch_fired p code.

Definition step (a : Action) : M unit :=
  match a with
  | Write data res => write data res
  | WriteEof => write_eof
  | Close => close
  | Abort exc => abort exc
  | PauseReading => pause_reading
  | ResumeReading => resume_reading
  | SendSignal sig => send_signal sig
  | Readable fd res keep_open =>
      when_registered (λ l, bool_decide (readers l !! fd = Some cb_read_ready))
        (_read_ready res keep_open)
  | Writable fd res =>
      when_registered (λ l, bool_decide (fd ∈ writers l)) (_write_ready res)
  | PidfdReadable fd status =>
      when_registered (λ l, bool_decide (readers l !! fd = Some cb_pidfd_ready))
        (pidfd_ready fd status)
  | ChildExited p code =>
      when_registered (λ l, bool_decide (p ∈ child_handlers l)) (watcher_fire p code)
  | RunReady => loop_run_ready
  end.

(** The world after a sequence of actions; an exception ends the action
    that raised it, not the sequence. *)
Fixpoint steps (l : list Action) (w : World) : World :=
  match l with
  | [] => w
  | a :: l => steps l (run (step a) w)
  end.

(** ** Observations on the log *)

(** The bytes a logged system call put on [fd]. *)
Definition written (fd : Z) (e : Event) : bytes :=
  match e with
  | SysWrite fd' data (Done n) => if bool_decide (fd' = fd) then take n data else []
  | SysWritev fd' iov (Done n) => if bool_decide (fd' = fd) then take n (concat iov) else []
  | _ => []
  end.

Definition delivered (fd : Z) (l : list Event) : bytes := l ≫= written fd.

Definition is_connection_lost (e : Event) : bool :=
  match e with ProtoConnectionLost _ => true | _ => false end.

Definition is_call_soon (e : Event) : bool :=
  match e with LoopCallSoon _ => true | _ => false end.

Definition count (p : Event → bool) (l : list Event) : nat := length (filter (λ e, p e = true) l).

(** The events logged since the log was [old]. *)
Definition since (old : list Event) (w : World) : list Event :=
  drop (length old) (log w).

(** A whole world from its parts. *)
Definition world (t : Transport) (l : Loop) (k : Z → Z → option Z) : World :=
  {| tr := t; loop := l; log := []; os_kill := k |}.

Definition kill_ok : Z → Z → option Z := λ _ _, None.

(** ** [Spooler] *)

Module Spooler.

Inductive Event :=
| LoopAddReader (fd : Z)
| LoopRemoveReader (fd : Z)
| SysRead (fd : Z) (res : sys bytes)
| SysClose (fd : Z).

Record Spooler := { _fd : Z; _contents : list bytes }.

Record World := {
  this : Spooler;
  readers : gset Z;
  log : list Event
}.

(** [__init__], given the descriptor [os.dup] answers. *)
Definition __init__ (dup_fd : Z) (readers : gset Z) : World :=
  {| this := {| _fd := dup_fd; _contents := [] |};
     readers := {[dup_fd]} ∪ readers;
     log := [LoopAddReader dup_fd] |}.

Definition close (w : World) : World :=
  if negb (_fd (this w) =? -1) then
    {| this := {| _fd := -1; _contents := _contents (this w) |};
       readers := readers w ∖ {[_fd (this w)]};
       log := log w ++ [LoopRemoveReader (_fd (this w)); SysClose (_fd (this w))] |}
  else w.

Definition append (data : bytes) (w : World) : World :=
  {| this := {| _fd := _fd (this w); _contents := _contents (this w) ++ [data] |};
     readers := readers w;
     log := log w |}.

Definition emit (e : Event) (w : World) : World :=
  {| this := this w; readers := readers w; log := log w ++ [e] |}.

(** [_read_ready], given what [os.read] answers. *)
Definition _read_ready (res : sys bytes) (w : World) : World :=
  let w := emit (SysRead (_fd (this w)) res) w in
  match res with
  | Errno e =>
      if is_BlockingIOError e then w
      else close w
  | Done [] => close w
  | Done data => append data w
  end.

(** The [while self._is_ready(): self._read_ready()] loop of [get].
    [avail] lists, in order, what the reads that [select] announces
    would answer; [_is_ready] is false once [_fd] is [-1] or nothing is
    left to announce. *)
Fixpoint drain (avail : list (sys bytes)) (w : World) : World :=
  match avail with
  | [] => w
  | res :: avail =>
      if _fd (this w) =? -1 then w
      else drain avail (_read_ready res w)
  end.

Definition get (reset : bool) (avail : list (sys bytes)) (w : World) : bytes * World :=
  let w := drain avail w in
  let result := concat (_contents (this w)) in
  if reset
  then (result, {| this := {| _fd := _fd (this w); _contents := [] |};
                   readers := readers w; log := log w |})
  else (result, w).

(** The chunks a sequence of reads hands over before the first end of
    file or error other than would-block. *)
Fixpoint received (avail : list (sys bytes)) : list bytes :=
  match avail with
  | [] => []
  | Done [] :: _ => []
  | Done data :: avail => data :: received avail
  | Errno e :: avail => if is_BlockingIOError e then received avail else []
  end.

End Spooler.

(** ** Vocabulary of the statements *)

Definition is_syscall (e : Event) : bool :=
  match e with
  | SysRead _ _ | SysWrite _ _ _ | SysWritev _ _ _ | SysClose _ | SysKill _ _ _ => true
  | _ => false
  end.

(** The fields of [_Transport] itself, and the observed exit status:
    everything but the resources [_close] releases. *)
Definition base_fields (t : Transport) :=
  (cls t, _queue t, _in_fd t, _out_fd t, _closing t, _is_reading t, _eof t,
   _eio_is_eof t, _returncode t).

(** What [_close_reader] logs on [t], and the loop it leaves. *)
Definition stop_reading_log (t : Transport) : list Event :=
  if _is_reading t then [LoopRemoveReader (_in_fd t)] else [].

Definition stop_reading_loop (t : Transport) (l : Loop) : Loop :=
  if _is_reading t
  then {| readers := delete (_in_fd t) (readers l); writers := writers l;
          child_handlers := child_handlers l; ready := ready l |}
  else l.

(** What [_remove_write_queue] logs on [t], and the loop it leaves. *)
Definition drop_queue_log (t : Transport) : list Event :=
  match _queue t with
  | Some _ => [ProtoResumeWriting; LoopRemoveWriter (_out_fd t)]
  | None => []
  end.

Definition drop_queue_loop (t : Transport) (l : Loop) : Loop :=
  match _queue t with
  | Some _ => {| readers := readers l; writers := writers l ∖ {[_out_fd t]};
                 child_handlers := child_handlers l; ready := ready l |}
  | None => l
  end.

Definition schedule (cb : Callback) (l : Loop) : Loop :=
  {| readers := readers l; writers := writers l;
     child_handlers := child_handlers l; ready := ready l ++ [cb] |}.

(** The transport's read callback is registered on [_in_fd] only, and only
    while [_is_reading] says so. *)
Definition reading_coherent (w : World) : Prop :=
  ∀ fd, readers (loop w) !! fd = Some cb_read_ready →
        _is_reading (tr w) = true ∧ fd = _in_fd (tr w).

(** The number of bytes a write took: what it answers, or none when it
    would block. *)
Definition wrote (res : sys nat) : nat :=
  match res with Done n => n | Errno _ => 0 end.

Definition transient (res : sys nat) : bool :=
  match res with Done _ => true | Errno e => is_BlockingIOError e end.

(** [write(b1), ..., write(bn)], each with the answer [os.write] would
    give, then a run of write-readiness events on [fd]. *)
Definition writes (l : list (bytes * sys nat)) : list Action :=
  (λ dr, Write dr.1 dr.2) <$> l.

Definition drains (fd : Z) (results : list (sys nat)) : list Action :=
  Writable fd <$> results.

(** [m] keeps [P]: [P] holds after [m], raised or not, if it held before. *)
Definition keeps {A} (P : World → Prop) (m : M A) : Prop :=
  ∀ w, P w → P (m w).2.

(** Updates of the transport that leave alone the exit status and the
    reading state, and do not forget the child. *)
Definition neutral (f : Transport → Transport) : Prop :=
  ∀ t, _returncode (f t) = _returncode t
       ∧ (is_Some (_process t) → is_Some (_process (f t)))
       ∧ _is_reading (f t) = _is_reading t
       ∧ _in_fd (f t) = _in_fd t.

(** Properties that no method of the transport can break, because the
    steps the methods are made of keep them. *)
Class Framed (P : World → Prop) := {
  framed_emit : ∀ e, keeps P (emit e);
  framed_update : ∀ f, neutral f → keeps P (update f);
  framed_pause_reading : keeps P pause_reading;
  framed_close_reader : keeps P _close_reader;
  framed_resume_reading : keeps P resume_reading;
  framed_add_writer : ∀ fd, keeps P (loop_add_writer fd);
  framed_remove_writer : ∀ fd, keeps P (loop_remove_writer fd);
  framed_call_soon : ∀ cb, keeps P (loop_call_soon cb);
  framed_run_ready : keeps P loop_run_ready
}.

(** Properties that the exit-detection callbacks keep as well. *)
Class FramedExit (P : World → Prop) := {
  framed_set_returncode : ∀ r, keeps P (update (set_returncode r));
  framed_remove_reader : ∀ fd, keeps P (loop_remove_reader fd);
  framed_watcher_forget : ∀ p, keeps P (watcher_forget p)
}.

(** The loop has no reader on the invalid descriptor. *)
Definition no_invalid_reader (w : World) : Prop :=
  readers (loop w) !! (-1) = None.

(** With respect to [w0], the world has no exit watch that [w0] had not,
    the same child and the same exit status. *)
Definition frame (w0 w : World) : Prop :=
  (∀ fd, readers (loop w) !! fd = Some cb_pidfd_ready →
         readers (loop w0) !! fd = Some cb_pidfd_ready)
  ∧ child_handlers (loop w) = child_handlers (loop w0)
  ∧ (is_Some (_process (tr w0)) → is_Some (_process (tr w)))
  ∧ _returncode (tr w) = _returncode (tr w0).

(** Neither exit-detection mechanism can fire any more. *)
Definition exit_watch_spent (w : World) : Prop :=
  (∀ fd, readers (loop w) !! fd ≠ Some cb_pidfd_ready)
  ∧ child_handlers (loop w) = ∅.

(** At most one exit watch is armed, none once the exit status is known,
    and the transport has its child. *)
Definition exit_watch_inv (w : World) : Prop :=
  (∀ fd1 fd2, readers (loop w) !! fd1 = Some cb_pidfd_ready →
              readers (loop w) !! fd2 = Some cb_pidfd_ready → fd1 = fd2)
  ∧ (∀ p1 p2, p1 ∈ child_handlers (loop w) → p2 ∈ child_handlers (loop w) → p1 = p2)
  ∧ (∀ fd p, readers (loop w) !! fd = Some cb_pidfd_ready →
             p ∈ child_handlers (loop w) → False)
  ∧ (_returncode (tr w) ≠ None → exit_watch_spent w)
  ∧ is_Some (_process (tr w)).

(** The actions that are an exit-detection callback. *)
Definition is_exit_event (a : Action) : bool :=
  match a with PidfdReadable _ _ | ChildExited _ _ => true | _ => false end.

(** What [_write_ready] does after [_remove_write_queue]. *)
Definition after_drain : M unit :=
  t ← self;
  (if _eof t then _write_eof_now else ret tt);;
  t ← self;
  if _closing t then abort None else ret tt.

(** The world after [_write_eof_now] has closed the stdin pipe [f] of the
    child [p]. *)
Definition half_closed (p : Popen) (f : File) (w : World) : World :=
  {| tr := set_out_fd (-1)
             (set_process
                (Some {| pid := pid p;
                         stdin := Some {| fileno := fileno f; closed := true |} |})
                (tr w));
     loop := loop w;
     log := log w ++ (if closed f then [] else [SysClose (fileno f)]);
     os_kill := os_kill w |}.

(** ** Sample worlds *)

(** A [StdioTransport] on fds 0 and 1, reading, with two bytes queued. *)
Definition stdio_backpressured : World :=
  world
    {| cls := StdioTransport; _queue := Some [[x61; x62]]; _in_fd := 0; _out_fd := 1;
       _closing := false; _is_reading := true; _eof := false; _eio_is_eof := false;
       _pty_fd := None; _process := None; _returncode := None |}
    {| readers := {[0 := cb_read_ready]}; writers := {[1]}; child_handlers := ∅;
       ready := [] |}
    kill_ok.

(** A [SubprocessTransport] over two pipes: child 100, its stdin on fd 5,
    its stdout on fd 4, its pidfd 7. *)
Definition pipe_child : World :=
  run (SubprocessTransport__init__ (Some 7))
    (world (new_subprocess_transport None 100 5 4) empty_loop kill_ok).

(** A [SubprocessTransport] over a pty whose master is fd 6. *)
Definition pty_child : World :=
  run (SubprocessTransport__init__ (Some 7))
    (world (new_subprocess_transport (Some 6) 100 5 4) empty_loop kill_ok).

(** The same transport once aborted: closing, no queue. *)
Definition stdio_aborted : World := run (abort None) stdio_backpressured.

(** The backpressured transport after [write_eof()] and [close()]: both
    requests wait for the queue to drain. *)
Definition stdio_closing_eof : World := run close (run write_eof stdio_backpressured).

(** ** Vocabulary of the further properties *)

(** The bytes the write queue holds. *)
Definition pending (w : World) : bytes :=
  match _queue (tr w) with
  | Some queue => concat queue
  | None => []
  end.

(** The bytes the consumer hands to [write] in a sequence of actions. *)
Definition offered (l : list Action) : bytes :=
  l ≫= λ a, match a with Write data _ => data | _ => [] end.

(** What the system promises of [os.write] and [os.writev] when the
    transport calls them: no error but would-block, and no more bytes
    taken than were given.  The action is a [write] or a write-readiness
    event. *)
Definition honest_write (a : Action) (w : World) : bool :=
  match a with
  | Write data res =>
      match _queue (tr w) with
      | Some _ => true
      | None => transient res && (wrote res <=? length data)%nat
      end
  | Writable fd res =>
      match _queue (tr w) with
      | Some queue =>
          if bool_decide (fd ∈ writers (loop w))
          then transient res && (wrote res <=? length (concat queue))%nat
          else true
      | None => true
      end
  | _ => false
  end.

Fixpoint honest_writes (l : list Action) (w : World) : bool :=
  match l with
  | [] => true
  | a :: l => honest_write a w && honest_writes l (run (step a) w)
  end.

Definition is_pause_writing (e : Event) : bool :=
  match e with ProtoPauseWriting => true | _ => false end.

Definition is_resume_writing (e : Event) : bool :=
  match e with ProtoResumeWriting => true | _ => false end.

(** The system calls that release a resource. *)
Definition is_release (e : Event) : bool :=
  match e with SysClose _ | SysKill _ _ _ => true | _ => false end.

(** A [StdioTransport] on fds 0 and 1 as [__init__] leaves it. *)
Definition stdio_idle : World :=
  run __init__ (world (new_transport StdioTransport 0 1) empty_loop kill_ok).

Definition is_close (e : Event) : bool :=
  match e with SysClose _ => true | _ => false end.

Definition is_kill (e : Event) : bool :=
  match e with SysKill _ _ _ => true | _ => false end.

(** What [os.kill] answers, as the log records it. *)
Definition kill_result (failure : option Z) : sys unit :=
  match failure with None => Done tt | Some e => Errno e end.

(** What [_close] logs on [t] when [os.kill] answers as [k] says: the
    close of the pty master if there is one, the close of the child's
    stdin if it is there and open, the [SIGTERM] if the child is not known
    to have exited. *)
Definition release_log (t : Transport) (k : Z → Z → option Z) : list Event :=
  match cls t with
  | SubprocessTransport =>
      match _pty_fd t with Some fd => [SysClose fd] | None => [] end
      ++ match _process t with
         | Some p =>
             match stdin p with
             | Some f => if closed f then [] else [SysClose (fileno f)]
             | None => []
             end
             ++ match _returncode t with
                | Some _ => []
                | None => [SysKill (pid p) SIGTERM (kill_result (k (pid p) SIGTERM))]
                end
         | None => []
         end
  | _ => []
  end.

(** What can happen to a [Spooler]: the loop runs its read callback,
    which it does only while the spooler's descriptor is registered, or
    its owner calls [get] or [close]. *)
Inductive SpoolerAction :=
| SpReadable (res : sys bytes)
| SpGet (reset : bool) (avail : list (sys bytes))
| SpClose.

(** One action: what [get] answers, if the action is a [get], and the
    world it leaves. *)
Definition spooler_step (a : SpoolerAction) (w : Spooler.World)
  : option (bool * bytes) * Spooler.World :=
  match a with
  | SpReadable res =>
      (None,
       if bool_decide (Spooler._fd (Spooler.this w) ∈ Spooler.readers w)
       then Spooler._read_ready res w else w)
  | SpGet reset avail =>
      (Some (reset, (Spooler.get reset avail w).1), (Spooler.get reset avail w).2)
  | SpClose => (None, Spooler.close w)
  end.

(** A sequence of actions: the answers of the [get]s, each with its
    [reset] flag, and the world at the end. *)
Fixpoint spooler_run (l : list SpoolerAction) (w : Spooler.World)
  : list (bool * bytes) * Spooler.World :=
  match l with
  | [] => ([], w)
  | a :: l =>
      let r := spooler_step a w in
      let rs := spooler_run l r.2 in
      (match r.1 with Some out => out :: rs.1 | None => rs.1 end, rs.2)
  end.

(** The bytes that the [get]s with [reset] answered. *)
Definition taken (outs : list (bool * bytes)) : bytes :=
  outs ≫= λ out : bool * bytes, if out.1 then out.2 else [].

(** The bytes a read hands over. *)
Definition read_bytes (res : sys bytes) : bytes :=
  match res with Done data => data | Errno _ => [] end.

(** The spooler holds the descriptor [dup] registered, or is closed and
    holds nothing registered. *)
Definition spooler_wf (dup : Z) (w : Spooler.World) : Prop :=
  dup ≠ (-1) ∧ ((-1) ∉ Spooler.readers w)
  ∧ ((Spooler._fd (Spooler.this w) = dup ∧ dup ∈ Spooler.readers w)
     ∨ (Spooler._fd (Spooler.this w) = -1 ∧ dup ∉ Spooler.readers w)).

(** What a run logs after the log of the world it starts in, when the
    descriptor is [dup]: reads, then the release of [dup] if the run is
    the one that closes the spooler. *)
Definition spooler_trace (dup : Z) (w w' : Spooler.World) (reads : list (sys bytes))
  : list Spooler.Event :=
  (Spooler.SysRead dup <$> reads)
  ++ (if bool_decide (Spooler._fd (Spooler.this w) = dup
                      ∧ Spooler._fd (Spooler.this w') = -1)
      then [Spooler.LoopRemoveReader dup; Spooler.SysClose dup] else []).

(** The bytes that the logged reads handed over. *)
Definition spooler_bytes_read (l : list Spooler.Event) : bytes :=
  l ≫= λ e, match e with Spooler.SysRead _ res => read_bytes res | _ => [] end.

(** What a run does to a well-formed spooler: it stays well-formed, logs
    a trace, and every byte read is in the buffer or was taken by a
    [get] with [reset]; a closed spooler reads nothing. *)
Definition spooler_effect (dup : Z) (w w' : Spooler.World) (outs : list (bool * bytes))
  : Prop :=
  spooler_wf dup w'
  ∧ ∃ reads,
      Spooler.log w' = Spooler.log w ++ spooler_trace dup w w' reads
      ∧ taken outs ++ concat (Spooler._contents (Spooler.this w'))
        = concat (Spooler._contents (Spooler.this w)) ++ (reads ≫= read_bytes)
      ∧ (Spooler._fd (Spooler.this w) = -1 →
         reads = [] ∧ Spooler._fd (Spooler.this w') = -1).

(** ** Vocabulary of the life cycle *)

(** The write callback is registered exactly while there is a queue, and
    then on [_out_fd]. *)
Definition writer_coherent (w : World) : Prop :=
  writers (loop w)
  = match _queue (tr w) with Some _ => {[_out_fd (tr w)]} | None => ∅ end.

(** A closing transport has given up reading. *)
Definition closing_coherent (w : World) : Prop :=
  _closing (tr w) = true → _is_reading (tr w) = false ∧ _in_fd (tr w) = -1.

(** The protocol was told to pause once more than to resume exactly while
    there is a queue. *)
Definition flow_balanced (w : World) : Prop :=
  count is_pause_writing (log w)
  = (count is_resume_writing (log w)
     + match _queue (tr w) with Some _ => 1 | None => 0 end)%nat.

(** Every [connection_lost] handed to [call_soon] waits in the loop or was
    delivered. *)
Definition losses_accounted (w : World) : Prop :=
  count is_call_soon (log w)
  = (length (ready (loop w)) + count is_connection_lost (log w))%nat.

Definition accounts (w : World) : Prop :=
  writer_coherent w ∧ closing_coherent w ∧ flow_balanced w ∧ losses_accounted w.

Definition lifecycle (w : World) : Prop := reading_coherent w ∧ accounts w.

(** The calls on the protocol. *)
Definition is_protocol (e : Event) : bool :=
  match e with
  | ProtoConnectionMade | ProtoDataReceived _ | ProtoEofReceived | ProtoConnectionLost _
  | ProtoPauseWriting | ProtoResumeWriting | ProtoProcessExited => true
  | _ => false
  end.

(** What a closing transport still does: it flushes its queue with
    [os.writev], unregisters callbacks, releases resources, and tells the
    protocol [resume_writing] and [connection_lost]. *)
Definition closing_event (e : Event) : bool :=
  match e with
  | LoopRemoveReader _ | LoopRemoveWriter _ | LoopCallSoon _
  | ProtoResumeWriting | ProtoConnectionLost _
  | SysWritev _ _ _ | SysClose _ | SysKill _ _ _ => true
  | _ => false
  end.

(** The events after the first [connection_lost]. *)
Fixpoint after_lost (l : list Event) : list Event :=
  match l with
  | [] => []
  | e :: l => if is_connection_lost e then l else after_lost l
  end.

Definition is_abort (a : Action) : bool :=
  match a with Abort _ => true | _ => false end.

(** The consumer does not call [abort] on a transport that is closing. *)
Fixpoint aborts_open (l : list Action) (w : World) : bool :=
  match l with
  | [] => true
  | a :: l =>
      (if is_abort a then negb (_closing (tr w)) else true)
      && aborts_open l (run (step a) w)
  end.

(** A transport as one of the two constructors leaves it: a
    [_Transport] handed two descriptors, or a [SubprocessTransport] with
    its child spawned and its exit watch armed. *)
Definition built (w : World) : Prop :=
  (∃ c in_fd out_fd k,
     w = run __init__ (world (new_transport c in_fd out_fd) empty_loop k))
  ∨ (∃ master child stdin_fd stdout_fd pidfd k,
       w = run (SubprocessTransport__init__ pidfd)
             (world (new_subprocess_transport master child stdin_fd stdout_fd)
                empty_loop k)).

(** [m] logs only events that satisfy [Q], raised or not. *)
Definition emits {A} (Q : Event → Prop) (m : M A) : Prop :=
  ∀ w, ∃ evs, log (m w).2 = log w ++ evs ∧ Forall Q evs.

(** What the methods log that neither read nor watch the child. *)
Definition common_event (e : Event) : bool :=
  match e with
  | LoopRemoveReader _ | LoopAddWriter _ | LoopRemoveWriter _ | LoopCallSoon _
  | ProtoConnectionLost _ | ProtoPauseWriting | ProtoResumeWriting
  | SysWrite _ _ _ | SysWritev _ _ _ | SysClose _ | SysKill _ _ _ => true
  | _ => false
  end.

(** The events of the read side: a read, what it hands to the protocol,
    and the registration of the read callback. *)
Definition read_event (e : Event) : bool :=
  match e with
  | SysRead _ _ | ProtoDataReceived _ | ProtoEofReceived
  | LoopAddReader _ cb_read_ready => true
  | _ => false
  end.

Definition is_process_exited (e : Event) : bool :=
  match e with ProtoProcessExited => true | _ => false end.

Definition is_eof_received (e : Event) : bool :=
  match e with ProtoEofReceived => true | _ => false end.

(** The read side is shut: the input descriptor is forgotten and the
    transport does not read. *)
Definition read_shut (w : World) : Prop :=
  _in_fd (tr w) = -1 ∧ _is_reading (tr w) = false.

(** A transport that has forgotten its input descriptor does not read. *)
Definition read_closed (w : World) : Prop :=
  _in_fd (tr w) = -1 → _is_reading (tr w) = false.

(** The actions that run neither a read nor an exit callback, and do not
    resume reading. *)
Definition is_common (a : Action) : bool :=
  match a with
  | ResumeReading | Readable _ _ _ | PidfdReadable _ _ | ChildExited _ _ => false
  | _ => true
  end.

(** At most one [connection_lost] was handed to [call_soon], and if one
    was, the transport is closing and has no queue. *)
Definition scheduled_once (w : World) : Prop :=
  count is_call_soon (log w) = 0%nat
  ∨ (count is_call_soon (log w) = 1%nat
     ∧ _closing (tr w) = true ∧ _queue (tr w) = None).

(** The protocol hears nothing after [connection_lost]. *)
Definition lost_is_last (w : World) : Prop :=
  Forall (λ e, is_protocol e = false) (after_lost (log w)).

(** What an action does to the accounts of a transport; [aborting] says
    that the action is the consumer's [abort]. *)
Definition evolves (aborting : bool) (w w' : World) : Prop :=
  accounts w'
  ∧ ∃ evs,
      log w' = log w ++ evs
      ∧ (count is_call_soon evs ≤ 1)%nat
      ∧ (count is_call_soon evs = 1%nat →
         _closing (tr w') = true ∧ _queue (tr w') = None
         ∧ (aborting = true ∨ _closing (tr w) = false ∨ _queue (tr w) ≠ None))
      ∧ (count is_connection_lost evs = 0%nat ∨ evs = deliver <$> ready (loop w))
      ∧ (_closing (tr w) = true →
         _closing (tr w') = true
         ∧ Forall (λ e, closing_event e = true) evs
         ∧ (_queue (tr w) = None →
            _queue (tr w') = None
            ∧ (aborting = false →
               Forall (λ e, is_protocol e = true → is_connection_lost e = true) evs))).

(** ** Proof tools *)

Ltac unfold_m :=
  unfold abort, _close_reader, pause_reading, resume_reading, _remove_write_queue,
    _create_write_queue, terminate, kill, send_signal, sys_kill, try_except, file_close,
    loop_call_soon, loop_remove_reader, loop_remove_writer, loop_add_reader,
    loop_add_writer, update_loop, update, emit, self, raise, assert,
    mbind, M_bind, bind, mret, M_ret, ret, run, result.

Ltac log_eq :=
  first [ reflexivity | symmetry; apply app_nil_r | rewrite <- ?app_assoc; reflexivity ].

(** Refute [H : e ∈ [e1; ...; en]] when [e] differs from every [ei]. *)
Ltac not_in_list H :=
  repeat (apply elem_of_cons in H as [H|H]; [discriminate H|]);
  by apply elem_of_nil in H.

Lemma since_app old evs w : log w = old ++ evs → since old w = evs.
Proof. unfold since. intros ->. by rewrite drop_app_length. Qed.

(** [_close] only releases resources: it logs system calls and touches
    neither the loop nor the fields of the base class. *)
Lemma _close_frame w :
  ∃ evs,
    log (run _close w) = log w ++ evs
    ∧ Forall (λ e, is_syscall e = true) evs
    ∧ loop (run _close w) = loop w
    ∧ os_kill (run _close w) = os_kill w
    ∧ base_fields (tr (run _close w)) = base_fields (tr w).
Proof.
  destruct w as [t l lg k]. destruct t as [c q i o cl rd ef eio pty pr rc].
  unfold _close; unfold_m; cbn.
  destruct c; cbn;
  try (destruct pty as [fd|], pr as [[p [[fn []]|]]|], rc as [r|]; cbn);
  try (destruct (k p SIGTERM) as [e|] eqn:Hk; cbn;
         [destruct (is_ProcessLookupError e); cbn; [|destruct (is_PermissionError e); cbn]|]);
  (eexists; split; [log_eq|split; [repeat constructor|done]]).
Qed.

(** [abort] is four steps on the base class, then [_close]. *)
Lemma abort_eq exc w :
  abort exc w =
  _close {| tr := set_queue None (set_in_fd (-1) (set_is_reading false
                    (set_closing true (tr w))));
            loop := schedule (connection_lost exc)
                      (drop_queue_loop (tr w) (stop_reading_loop (tr w) (loop w)));
            log := log w ++ stop_reading_log (tr w) ++ drop_queue_log (tr w)
                     ++ [LoopCallSoon (connection_lost exc)];
            os_kill := os_kill w |}.
Proof.
  destruct w as [t l lg k]. destruct t as [c q i o cl rd ef eio pty pr rc].
  unfold_m; cbn. unfold stop_reading_log, drop_queue_log, stop_reading_loop, drop_queue_loop.
  destruct rd, q; cbn; rewrite <- ?app_assoc; cbn; reflexivity.
Qed.

(** ** [abort] *)

(** C2, as stated, fails: aborting a backpressured transport does signal
    [resume_writing], through [_remove_write_queue]. *)
Lemma abort_signals_resume_writing :
  _queue (tr stdio_backpressured) = Some [[x61; x62]]
  ∧ log (run (abort None) stdio_backpressured)
    = [LoopRemoveReader 0; ProtoResumeWriting; LoopRemoveWriter 1;
       LoopCallSoon (connection_lost None)].
Proof. split; reflexivity. Qed.

(** C2, amended: for every world and every [exc], [abort exc] stops
    reading at once (the read callback is unregistered if it was
    registered, [_is_reading] is cleared and [_in_fd] is [-1]), discards
    the write queue -- signalling [resume_writing] and unregistering the
    writer exactly when a queue was pending --, schedules with [call_soon]
    one [connection_lost exc] without calling the protocol's
    [connection_lost] itself, and ends in the class's [_close] hook, which
    only logs system calls. *)
Theorem abort_spec (exc : option exn) (w : World) :
  let w' := run (abort exc) w in
  ∃ w1 hook,
    abort exc w = _close w1
    ∧ log w1 = log w ++ stop_reading_log (tr w) ++ drop_queue_log (tr w)
                 ++ [LoopCallSoon (connection_lost exc)]
    ∧ log w' = log w1 ++ hook
    ∧ Forall (λ e, is_syscall e = true) hook
    ∧ count is_call_soon (since (log w) w') = 1%nat
    ∧ count is_connection_lost (since (log w) w') = 0%nat
    ∧ _closing (tr w') = true
    ∧ _is_reading (tr w') = false
    ∧ _in_fd (tr w') = -1
    ∧ _queue (tr w') = None
    ∧ loop w' = schedule (connection_lost exc)
                  (drop_queue_loop (tr w) (stop_reading_loop (tr w) (loop w))).
Proof.
  intros w'.
  pose proof (abort_eq exc w) as Heq.
  match type of Heq with _ = _close ?x => set (w1 := x) in * end.
  assert (Hw' : w' = run _close w1) by (unfold w', run; by rewrite Heq).
  destruct (_close_frame w1) as (hook & Hlog & Hsys & Hloop & _ & Hbase).
  rewrite Hw'.
  exists w1, hook. split; [done|]. split; [done|]. split; [done|]. split; [done|].
  assert (Hsince : since (log w) (run _close w1)
                   = stop_reading_log (tr w) ++ drop_queue_log (tr w)
                       ++ [LoopCallSoon (connection_lost exc)] ++ hook).
  { apply since_app. rewrite Hlog. subst w1. cbn. by rewrite <- !app_assoc. }
  assert (Hcount : ∀ p, (∀ e, is_syscall e = true → p e = false) →
                        count p hook = 0%nat).
  { intros p Hp. unfold count. clear -Hsys Hp. induction Hsys as [|e evs He _ IH]; [done|].
    rewrite filter_cons. destruct (decide (p e = true)) as [Hpe|_]; [|done].
    rewrite (Hp e He) in Hpe. done. }
  split.
  { rewrite Hsince. unfold count, stop_reading_log, drop_queue_log.
    rewrite !filter_app, !length_app.
    fold (count is_call_soon hook). rewrite Hcount by (by intros []).
    destruct (_is_reading (tr w)), (_queue (tr w)); reflexivity. }
  split.
  { rewrite Hsince. unfold count, stop_reading_log, drop_queue_log.
    rewrite !filter_app, !length_app.
    fold (count is_connection_lost hook). rewrite Hcount by (by intros []).
    destruct (_is_reading (tr w)), (_queue (tr w)); reflexivity. }
  unfold base_fields in Hbase. rewrite Hloop.
  injection Hbase as _ Hq Hin _ Hcl Hrd _ _ _.
  rewrite Hq, Hin, Hcl, Hrd. subst w1. cbn. done.
Qed.

(** ** The write-readiness handler when the queue drains *)

Lemma _write_ready_wrote_eq w q n :
  _queue (tr w) = Some q →
  _write_ready (Done n) w
  = _write_ready_wrote q n
      {| tr := tr w; loop := loop w;
         log := log w ++ [SysWritev (_out_fd (tr w)) q (Done n)];
         os_kill := os_kill w |}.
Proof.
  destruct w as [t l lg k]. destruct t as [c ? i o cl rd ef eio pty pr rc].
  cbn. intros ->. reflexivity.
Qed.

Lemma _write_ready_drained w q n :
  _queue (tr w) = Some q →
  pop_written n q = Some [] →
  _write_ready (Done n) w
  = after_drain
      {| tr := set_queue None (tr w);
         loop := drop_queue_loop (tr w) (loop w);
         log := log w ++ [SysWritev (_out_fd (tr w)) q (Done n)]
                  ++ drop_queue_log (tr w);
         os_kill := os_kill w |}.
Proof.
  intros Hq Hpop. rewrite (_write_ready_wrote_eq w q n Hq).
  destruct w as [t l lg k]. destruct t as [c ? i o cl rd ef eio pty pr rc].
  cbn in Hq. subst. unfold _write_ready_wrote. rewrite Hpop.
  unfold drop_queue_log, drop_queue_loop. unfold_m; cbn.
  rewrite <- !app_assoc. reflexivity.
Qed.

Lemma _write_ready_wrote_drained w q n :
  pop_written n q = Some [] →
  _queue (tr w) = Some q →
  _write_ready_wrote q n w
  = after_drain
      {| tr := set_queue None (tr w);
         loop := drop_queue_loop (tr w) (loop w);
         log := log w ++ drop_queue_log (tr w);
         os_kill := os_kill w |}.
Proof.
  intros Hpop Hq.
  destruct w as [t l lg k]. destruct t as [c ? i o cl rd ef eio pty pr rc].
  cbn in Hq. subst. unfold _write_ready_wrote. rewrite Hpop.
  unfold drop_queue_log, drop_queue_loop. unfold_m; cbn.
  rewrite <- !app_assoc. reflexivity.
Qed.

Lemma _write_ready_pending w q n b q' :
  _queue (tr w) = Some q →
  pop_written n q = Some (b :: q') →
  _write_ready (Done n) w
  = (Ok tt, {| tr := set_queue (Some (b :: q')) (tr w);
               loop := loop w;
               log := log w ++ [SysWritev (_out_fd (tr w)) q (Done n)];
               os_kill := os_kill w |}).
Proof.
  intros Hq Hpop. rewrite (_write_ready_wrote_eq w q n Hq).
  unfold _write_ready_wrote. rewrite Hpop. reflexivity.
Qed.

(** [_write_eof_now] either raises and changes nothing, or -- on a
    [SubprocessTransport] whose child has a stdin pipe -- closes that pipe
    and sets [_out_fd] to [-1]. *)
Lemma _write_eof_now_cases w :
  (∃ e, _write_eof_now w = (Raise e, w))
  ∨ (∃ p f, cls (tr w) = SubprocessTransport ∧ _process (tr w) = Some p
            ∧ stdin p = Some f ∧ _write_eof_now w = (Ok tt, half_closed p f w)).
Proof.
  destruct w as [t l lg k]. destruct t as [c q i o cl rd ef eio pty pr rc].
  destruct c; [left; by eexists| |left; by eexists].
  destruct pr as [[p [[fn cd]|]]|]; [|left; by eexists..].
  right. do 2 eexists. split_and!; [done..|].
  unfold half_closed. destruct cd; cbn; rewrite ?app_nil_r; reflexivity.
Qed.

Lemma after_drain_closing w :
  _closing (tr w) = true →
  after_drain w = ((if _eof (tr w) then _write_eof_now else ret tt);; abort None) w.
Proof.
  intros Hcl. unfold after_drain, mbind, M_bind, bind, self, ret.
  destruct (_eof (tr w)); [|by rewrite Hcl].
  destruct (_write_eof_now_cases w) as [[e ->]|(p & f & _ & _ & _ & ->)]; [done|].
  cbn. by rewrite Hcl.
Qed.

Lemma after_drain_open w :
  _closing (tr w) = false →
  after_drain w = (if _eof (tr w) then _write_eof_now else ret tt) w.
Proof.
  intros Hcl. unfold after_drain, mbind, M_bind, bind, self, ret.
  destruct (_eof (tr w)); [|by rewrite Hcl].
  destruct (_write_eof_now_cases w) as [[e ->]|(p & f & _ & _ & _ & ->)]; [done|].
  cbn. by rewrite Hcl.
Qed.

(** ** [close] *)

(** C5, as stated, fails: on a transport that is already closing and has
    no queue, [close()] returns at once, whereas [abort(None)] schedules
    another [connection_lost]. *)
Lemma close_differs_from_abort_when_closing :
  _queue (tr stdio_aborted) = None
  ∧ close stdio_aborted = (Ok tt, stdio_aborted)
  ∧ log (run (abort None) stdio_aborted)
    = log stdio_aborted ++ [LoopCallSoon (connection_lost None)]
  ∧ close stdio_aborted ≠ abort None stdio_aborted.
Proof.
  split; [reflexivity|]. split; [reflexivity|]. split; [reflexivity|].
  intros H. apply (f_equal (λ r, length (log r.2))) in H. vm_compute in H. discriminate.
Qed.

(** C5, amended: [close()] on a transport that is already closing does
    nothing.  Otherwise, with no write queue it is exactly [abort(None)];
    with a queue pending it sets [_closing], stops reading, leaves the
    queue as it is, schedules no [connection_lost] and does not call
    [_close]; the write-readiness handler that later empties the queue
    then runs the requested half-close, if any, and [abort(None)].  While
    [_closing] is set, [write] changes nothing. *)
Theorem close_spec (w : World) :
  (_closing (tr w) = true → close w = (Ok tt, w))
  ∧ (_closing (tr w) = false → _queue (tr w) = None → close w = abort None w)
  ∧ (∀ q, _closing (tr w) = false → _queue (tr w) = Some q →
       let w' := run close w in
       result close w = Ok tt
       ∧ tr w' = set_in_fd (-1) (set_is_reading false (set_closing true (tr w)))
       ∧ _queue (tr w') = Some q
       ∧ loop w' = stop_reading_loop (tr w) (loop w)
       ∧ log w' = log w ++ stop_reading_log (tr w)
       ∧ ∀ n, pop_written n q = Some [] →
           ∃ w2, _write_ready (Done n) w'
                 = ((if _eof (tr w) then _write_eof_now else ret tt);; abort None) w2
                 ∧ log w2 = log w' ++ [SysWritev (_out_fd (tr w)) q (Done n);
                                       ProtoResumeWriting;
                                       LoopRemoveWriter (_out_fd (tr w))])
  ∧ (∀ data res, _closing (tr w) = true → write data res w = (Ok tt, w)).
Proof.
  split.
  { destruct w as [t l lg k]. destruct t as [c q i o cl rd ef eio pty pr rc].
    cbn. by intros ->. }
  split.
  { intros Hcl Hq. rewrite abort_eq.
    destruct w as [t l lg k]. destruct t as [c q i o cl rd ef eio pty pr rc].
    cbn in *. subst. unfold close. unfold_m. cbn.
    unfold stop_reading_log, stop_reading_loop, drop_queue_log, drop_queue_loop.
    destruct rd; cbn; rewrite <- ?app_assoc; reflexivity. }
  split.
  { intros q Hcl Hq w'.
    assert (Hw' : close w
                  = (Ok tt, {| tr := set_in_fd (-1) (set_is_reading false
                                       (set_closing true (tr w)));
                               loop := stop_reading_loop (tr w) (loop w);
                               log := log w ++ stop_reading_log (tr w);
                               os_kill := os_kill w |})).
    { destruct w as [t l lg k]. destruct t as [c ? i o cl rd ef eio pty pr rc].
      cbn in *. subst. unfold close. unfold_m. cbn.
      unfold stop_reading_log, stop_reading_loop.
      destruct rd; cbn; rewrite ?app_nil_r; reflexivity. }
    unfold w', run, result. rewrite Hw'. cbn.
    split; [done|]. split; [done|]. split; [done|]. split; [done|]. split; [done|].
    intros n Hpop. eexists. split.
    - erewrite _write_ready_drained; [|cbn; exact Hq|exact Hpop].
      rewrite after_drain_closing by done. reflexivity.
    - cbn. unfold drop_queue_log. cbn. rewrite Hq. reflexivity. }
  intros data res.
  destruct w as [t l lg k]. destruct t as [c q i o cl rd ef eio pty pr rc].
  cbn. by intros ->.
Qed.

Lemma close_spec_witness : close stdio_aborted = (Ok tt, stdio_aborted).
Proof. apply (proj1 (close_spec stdio_aborted)). reflexivity. Defined.

(** ** [write_eof] *)




(** ** The read-readiness handler *)

(** Everything [abort] leaves behind. *)
Lemma abort_run exc w :
  ∃ hook,
    log (run (abort exc) w)
    = log w ++ stop_reading_log (tr w) ++ drop_queue_log (tr w)
        ++ [LoopCallSoon (connection_lost exc)] ++ hook
    ∧ Forall (λ e, is_syscall e = true) hook
    ∧ loop (run (abort exc) w)
      = schedule (connection_lost exc)
          (drop_queue_loop (tr w) (stop_reading_loop (tr w) (loop w)))
    ∧ os_kill (run (abort exc) w) = os_kill w
    ∧ base_fields (tr (run (abort exc) w))
      = base_fields (set_queue None (set_in_fd (-1) (set_is_reading false
                       (set_closing true (tr w))))).
Proof.
  unfold run at 1 2 3 4. rewrite abort_eq.
  match goal with |- context [_close ?x] => set (w1 := x) end.
  fold (run _close w1).
  destruct (_close_frame w1) as (hook & Hlog & Hsys & Hloop & Hk & Hbase).
  exists hook. rewrite Hlog, Hloop, Hk, Hbase. subst w1; cbn.
  rewrite <- !app_assoc. done.
Qed.

Lemma syscalls_exclude (p : Event → Prop) evs :
  Forall (λ e, is_syscall e = true) evs →
  (∀ e, p e → is_syscall e = false) →
  ∀ e, e ∈ evs → ¬ p e.
Proof.
  intros Hsys Hp e He Hpe. rewrite Forall_forall in Hsys.
  specialize (Hsys e He). rewrite (Hp e Hpe) in Hsys. done.
Qed.

(** C6, as stated, fails: a would-block [OSError] from [os.read] is
    neither end of input nor a reason to abort; the handler returns. *)
Lemma _read_ready_ignores_would_block :
  is_BlockingIOError EAGAIN = true
  ∧ _read_ready (Errno EAGAIN) false stdio_backpressured
    = (Ok tt, {| tr := tr stdio_backpressured; loop := loop stdio_backpressured;
                 log := [SysRead 0 (Errno EAGAIN)];
                 os_kill := os_kill stdio_backpressured |})
  ∧ ¬ (∃ exc, LoopCallSoon (connection_lost exc)
              ∈ log (run (_read_ready (Errno EAGAIN) false) stdio_backpressured)).
Proof.
  split; [reflexivity|]. split; [reflexivity|].
  intros [exc H]. vm_compute in H. apply list_elem_of_singleton in H. discriminate.
Qed.

(** C6, amended: on read-readiness, an empty read -- and an [EIO] error
    when [_eio_is_eof] is set, as it is on a pty-backed transport and on
    no other -- unregisters the read callback, sets [_in_fd] to [-1],
    calls [eof_received] and then, unless that answered true, runs
    [close()].  A would-block error is ignored.  Any other [OSError] runs
    [abort] with that error: one [connection_lost] carrying it is
    scheduled and [eof_received] is not called.  A non-empty read is
    handed to [data_received]. *)
Theorem _read_ready_spec (w : World) (keep_open : bool) :
  let got res := {| tr := tr w; loop := loop w;
                    log := log w ++ [SysRead (_in_fd (tr w)) res];
                    os_kill := os_kill w |} in
  let at_eof res := {| tr := set_in_fd (-1) (set_is_reading false (tr w));
                       loop := stop_reading_loop (tr w) (loop w);
                       log := log w ++ [SysRead (_in_fd (tr w)) res]
                                ++ stop_reading_log (tr w) ++ [ProtoEofReceived];
                       os_kill := os_kill w |} in
  (_read_ready (Done []) keep_open w
   = (if keep_open then ret tt else close) (at_eof (Done [])))
  ∧ (_eio_is_eof (tr w) = true →
     _read_ready (Errno EIO) keep_open w
     = (if keep_open then ret tt else close) (at_eof (Errno EIO)))
  ∧ (∀ master child stdin_fd stdout_fd,
       _eio_is_eof (new_subprocess_transport (Some master) child stdin_fd stdout_fd) = true
       ∧ _eio_is_eof (new_subprocess_transport None child stdin_fd stdout_fd) = false
       ∧ _eio_is_eof (new_transport StdioTransport stdin_fd stdout_fd) = false)
  ∧ (∀ e, is_BlockingIOError e = true →
       _read_ready (Errno e) keep_open w = (Ok tt, got (Errno e)))
  ∧ (∀ e, is_BlockingIOError e = false → _eio_is_eof (tr w) && (e =? EIO) = false →
       let w' := run (_read_ready (Errno e) keep_open) w in
       _read_ready (Errno e) keep_open w = abort (Some (OSError e)) (got (Errno e))
       ∧ count is_call_soon (since (log w) w') = 1%nat
       ∧ LoopCallSoon (connection_lost (Some (OSError e))) ∈ since (log w) w'
       ∧ ready (loop w') = ready (loop w) ++ [connection_lost (Some (OSError e))]
       ∧ ProtoEofReceived ∉ since (log w) w')
  ∧ (∀ b data,
       _read_ready (Done (b :: data)) keep_open w
       = (Ok tt, {| tr := tr w; loop := loop w;
                    log := log w ++ [SysRead (_in_fd (tr w)) (Done (b :: data));
                                     ProtoDataReceived (b :: data)];
                    os_kill := os_kill w |})).
Proof.
  intros got at_eof.
  assert (Heof : ∀ res, _read_ready_got [] keep_open (got res)
                        = (if keep_open then ret tt else close) (at_eof res)).
  { intros res. subst got at_eof. cbn.
    destruct w as [t l lg k]. destruct t as [c q i o cl rd ef eio pty pr rc].
    unfold _read_ready_got. unfold_m. cbn.
    unfold stop_reading_log, stop_reading_loop.
    destruct rd; cbn; rewrite <- ?app_assoc; cbn; by destruct keep_open. }
  split; [by rewrite <- Heof|].
  split.
  { intros Heio. rewrite <- Heof. unfold _read_ready, mbind, M_bind, bind, self, emit.
    cbn. by rewrite Heio. }
  split; [done|].
  split.
  { intros e He. unfold _read_ready, mbind, M_bind, bind, self, emit. cbn.
    by rewrite He. }
  split.
  { intros e He Heio w'.
    assert (Hab : _read_ready (Errno e) keep_open w
                  = abort (Some (OSError e)) (got (Errno e))).
    { unfold _read_ready, mbind, M_bind, bind, self, emit. cbn. by rewrite He, Heio. }
    split; [done|].
    assert (Hw' : w' = run (abort (Some (OSError e))) (got (Errno e)))
      by (unfold w', run; by rewrite Hab).
    destruct (abort_run (Some (OSError e)) (got (Errno e)))
      as (hook & Hlog & Hsys & Hloop & _ & _).
    rewrite <- Hw' in Hlog, Hloop.
    assert (Hsince : since (log w) w'
                     = [SysRead (_in_fd (tr w)) (Errno e)] ++ stop_reading_log (tr w)
                         ++ drop_queue_log (tr w)
                         ++ [LoopCallSoon (connection_lost (Some (OSError e)))] ++ hook).
    { apply since_app. rewrite Hlog. subst got. cbn. by rewrite <- !app_assoc. }
    assert (Hnot : ∀ p : Event → Prop, (∀ e, p e → is_syscall e = false) →
                   ∀ e, e ∈ hook → ¬ p e) by (intros p; by apply syscalls_exclude).
    split_and!.
    - rewrite Hsince. unfold count. rewrite !filter_app, !length_app.
      assert (length (filter (λ e, is_call_soon e = true) hook) = 0%nat) as ->.
      { clear -Hsys. induction Hsys as [|x evs Hx _ IH]; [done|].
        rewrite filter_cons. destruct (decide _) as [Hd|]; [|done].
        by destruct x. }
      unfold stop_reading_log, drop_queue_log.
      destruct (_is_reading (tr w)), (_queue (tr w)); reflexivity.
    - rewrite Hsince. rewrite !elem_of_app. do 3 right. left. by apply list_elem_of_singleton.
    - rewrite Hloop. unfold schedule, drop_queue_loop, stop_reading_loop. subst got; cbn.
      destruct (_queue (tr w)), (_is_reading (tr w)); reflexivity.
    - rewrite Hsince. intros Hin. rewrite !elem_of_app in Hin.
      destruct Hin as [Hin|[Hin|[Hin|[Hin|Hin]]]].
      + by apply list_elem_of_singleton in Hin.
      + unfold stop_reading_log in Hin. destruct (_is_reading (tr w)); not_in_list Hin.
      + unfold drop_queue_log in Hin. destruct (_queue (tr w)); not_in_list Hin.
      + by apply list_elem_of_singleton in Hin.
      + by apply (Hnot (λ e, e = ProtoEofReceived) ltac:(by intros ? ->) _ Hin). }
  intros b data. unfold _read_ready, _read_ready_got. unfold_m. cbn.
  by rewrite <- app_assoc.
Qed.

Lemma _read_ready_spec_witness :
  _read_ready (Errno EIO) false pty_child
  = close {| tr := set_in_fd (-1) (set_is_reading false (tr pty_child));
             loop := stop_reading_loop (tr pty_child) (loop pty_child);
             log := log pty_child ++ [SysRead (_in_fd (tr pty_child)) (Errno EIO)]
                      ++ stop_reading_log (tr pty_child) ++ [ProtoEofReceived];
             os_kill := os_kill pty_child |}.
Proof.
  apply (proj1 (proj2 (_read_ready_spec pty_child false))). reflexivity.
Defined.

(** ** The write-readiness handler *)

(** C4: the code misses what the claim says.  [close] on a transport
    with a queue pending leaves the teardown to the handler that drains
    the queue -- "abort() will be called from _write_ready() when it's
    done" --, as [write_eof] leaves the half-close.  On a
    [StdioTransport] with both requested, the handler that drains the
    queue signals [resume_writing], unregisters the writer, raises
    [RuntimeError] in [_write_eof_now] and never reaches [abort]: no
    [connection_lost] is scheduled, and none will be, for [close] now
    returns at once, no callback of the transport is registered and the
    loop has nothing to deliver.  The same run from the constructor
    without the [write_eof()] does abort and deliver [connection_lost].
    The handler also misses the drain when the queue ends on an empty
    block: every byte is written, and the queue, the writer and the
    pending close stay as they are. *)
Theorem _write_ready_drain_misses_close :
  let w := stdio_closing_eof in
  let w' := run (_write_ready (Done 2%nat)) w in
  let wedged := steps [Write [x61; x62] (Errno EAGAIN); WriteEof; Close;
                       Writable 1 (Done 2%nat); RunReady; Close; RunReady] stdio_idle in
  let closed := steps [Write [x61; x62] (Errno EAGAIN); Close;
                       Writable 1 (Done 2%nat); RunReady] stdio_idle in
  let stalled := steps [Write [x61; x62] (Errno EAGAIN); Write [] (Done 0%nat); Close;
                        Writable 1 (Done 2%nat); Writable 1 (Done 0%nat); RunReady]
                   stdio_idle in
  (_eof (tr w) = true ∧ _closing (tr w) = true ∧ _queue (tr w) = Some [[x61; x62]]
   ∧ result (_write_ready (Done 2%nat)) w = Raise RuntimeError
   ∧ _queue (tr w') = None
   ∧ log w' = log w ++ [SysWritev 1 [[x61; x62]] (Done 2%nat); ProtoResumeWriting;
                        LoopRemoveWriter 1]
   ∧ ready (loop w') = []
   ∧ close w' = (Ok tt, w')
   ∧ log (steps [Writable 1 (Done 0%nat); Readable 0 (Done []) false; RunReady; Close] w')
     = log w')
  ∧ (_closing (tr wedged) = true ∧ _queue (tr wedged) = None
     ∧ count is_call_soon (log wedged) = 0%nat
     ∧ count is_connection_lost (log wedged) = 0%nat)
  ∧ (count is_call_soon (log closed) = 1%nat
     ∧ count is_connection_lost (log closed) = 1%nat)
  ∧ (_closing (tr stalled) = true ∧ _queue (tr stalled) = Some [[]]
     ∧ delivered 1 (log stalled) = [x61; x62]
     ∧ bool_decide (1 ∈ writers (loop stalled)) = true
     ∧ count is_resume_writing (log stalled) = 0%nat
     ∧ count is_call_soon (log stalled) = 0%nat).
Proof. cbv zeta. split_and!; vm_compute; reflexivity. Qed.

(** ** A fatal error in the write-readiness handler *)

Lemma count_app p l1 l2 : count p (l1 ++ l2) = (count p l1 + count p l2)%nat.
Proof. unfold count. by rewrite filter_app, length_app. Qed.

Lemma count_syscalls p evs :
  Forall (λ e, is_syscall e = true) evs →
  (∀ e, is_syscall e = true → p e = false) →
  count p evs = 0%nat.
Proof.
  intros Hsys Hp. unfold count. induction Hsys as [|e evs He _ IH]; [done|].
  rewrite filter_cons. destruct (decide (p e = true)) as [Hpe|_]; [|done].
  rewrite (Hp e He) in Hpe. done.
Qed.

Lemma close_when_closing w : _closing (tr w) = true → close w = (Ok tt, w).
Proof.
  destruct w as [t l lg k]. destruct t as [c q i o cl rd ef eio pty pr rc].
  cbn. by intros ->.
Qed.

Lemma write_when_closing data res w :
  _closing (tr w) = true → write data res w = (Ok tt, w).
Proof.
  destruct w as [t l lg k]. destruct t as [c q i o cl rd ef eio pty pr rc].
  cbn. by intros ->.
Qed.

Lemma _write_ready_fatal_eq w q e :
  _queue (tr w) = Some q →
  is_BlockingIOError e = false →
  _write_ready (Errno e) w
  = abort (Some (OSError e))
      {| tr := tr w; loop := loop w;
         log := log w ++ [SysWritev (_out_fd (tr w)) q (Errno e)];
         os_kill := os_kill w |}.
Proof.
  intros Hq He. unfold _write_ready, mbind, M_bind, bind, self, emit. cbn.
  by rewrite Hq, He.
Qed.

(** C3: when [os.writev] fails in the write-readiness handler with an
    error other than would-block, the handler leaves the transport's read
    callback registered on no descriptor, and schedules exactly one
    [connection_lost], carrying the error, which the next pass of the loop
    delivers once; the reactor has nothing left to call on the transport,
    and [close] and [write] no longer do anything. *)
Theorem _write_ready_fatal_spec (w : World) (q : list bytes) (e : Z) :
  _queue (tr w) = Some q →
  is_BlockingIOError e = false →
  reading_coherent w →
  let w' := run (_write_ready (Errno e)) w in
  (∀ fd, readers (loop w') !! fd ≠ Some cb_read_ready)
  ∧ _is_reading (tr w') = false
  ∧ _in_fd (tr w') = -1
  ∧ count is_call_soon (since (log w) w') = 1%nat
  ∧ count is_connection_lost (since (log w) w') = 0%nat
  ∧ ready (loop w') = ready (loop w) ++ [connection_lost (Some (OSError e))]
  ∧ since (log w') (run loop_run_ready w')
    = (deliver <$> ready (loop w)) ++ [ProtoConnectionLost (Some (OSError e))]
  ∧ ready (loop (run loop_run_ready w')) = []
  ∧ (ready (loop w) = [] →
     count is_connection_lost (since (log w) (run loop_run_ready w')) = 1%nat)
  ∧ (∀ fd res keep_open, step (Readable fd res keep_open) w' = (Ok tt, w'))
  ∧ (∀ res, step (Writable (_out_fd (tr w)) res) w' = (Ok tt, w'))
  ∧ close w' = (Ok tt, w')
  ∧ (∀ data res, write data res w' = (Ok tt, w')).
Proof.
  intros Hq He Hcoh w'.
  pose proof (_write_ready_fatal_eq w q e Hq He) as Heq.
  match type of Heq with _ = abort _ ?x => set (w0 := x) in * end.
  assert (Hw' : w' = run (abort (Some (OSError e))) w0)
    by (unfold w', run; by rewrite Heq).
  destruct (abort_run (Some (OSError e)) w0) as (hook & Hlog & Hsys & Hloop & _ & Hbase).
  rewrite <- Hw' in Hlog, Hloop, Hbase.
  unfold base_fields in Hbase. injection Hbase as _ Hqueue Hin _ Hcl Hrd _ _ _.
  cbn in Hqueue, Hin, Hcl, Hrd.
  assert (Hsince : since (log w) w'
                   = [SysWritev (_out_fd (tr w)) q (Errno e)] ++ stop_reading_log (tr w)
                       ++ drop_queue_log (tr w)
                       ++ [LoopCallSoon (connection_lost (Some (OSError e)))] ++ hook).
  { apply since_app. rewrite Hlog. subst w0. cbn. by rewrite <- !app_assoc. }
  assert (Hreaders : ∀ fd, readers (loop w') !! fd ≠ Some cb_read_ready).
  { intros fd. rewrite Hloop. subst w0. cbn.
    unfold drop_queue_loop, stop_reading_loop. rewrite Hq. cbn.
    destruct (_is_reading (tr w)) eqn:Hr; cbn.
    - rewrite lookup_delete. case_decide as Hfd; [done|].
      intros H. destruct (Hcoh fd H) as [_ ->]. done.
    - intros H. destruct (Hcoh fd H) as [Hr' _]. congruence. }
  assert (Hready : ready (loop w') = ready (loop w) ++ [connection_lost (Some (OSError e))]).
  { rewrite Hloop. subst w0. cbn. unfold drop_queue_loop, stop_reading_loop.
    rewrite Hq. by destruct (_is_reading (tr w)). }
  assert (Hinline : count is_connection_lost (since (log w) w') = 0%nat).
  { rewrite Hsince, !count_app, (count_syscalls _ hook Hsys) by (by intros []).
    unfold stop_reading_log, drop_queue_log. rewrite Hq.
    by destruct (_is_reading (tr w)). }
  split_and!; try done.
  - rewrite Hsince, !count_app, (count_syscalls _ hook Hsys) by (by intros []).
    unfold stop_reading_log, drop_queue_log. rewrite Hq.
    by destruct (_is_reading (tr w)).
  - apply since_app. cbn. rewrite Hready, fmap_app. reflexivity.
  - intros Hnone.
    assert (Hall : since (log w) (run loop_run_ready w')
                   = since (log w) w' ++ [ProtoConnectionLost (Some (OSError e))]).
    { apply since_app. cbn. rewrite Hready, Hnone, Hsince, Hlog. subst w0. cbn.
      by rewrite <- !app_assoc. }
    by rewrite Hall, count_app, Hinline.
  - intros fd res keep_open. cbn. unfold when_registered.
    rewrite bool_decide_eq_false_2; [done|apply Hreaders].
  - intros res. cbn. unfold when_registered.
    rewrite bool_decide_eq_false_2; [done|].
    rewrite Hloop. subst w0. cbn. unfold drop_queue_loop, stop_reading_loop.
    rewrite Hq. destruct (_is_reading (tr w)); cbn;
      rewrite elem_of_difference; intros [_ H]; apply H; by apply elem_of_singleton.
  - by apply close_when_closing.
  - intros data res. by apply write_when_closing.
Qed.

Lemma _write_ready_fatal_spec_witness :
  count is_call_soon
    (since (log stdio_backpressured) (run (_write_ready (Errno EPIPE)) stdio_backpressured))
  = 1%nat.
Proof.
  refine (proj1 (proj2 (proj2 (proj2
            (_write_ready_fatal_spec stdio_backpressured [[x61; x62]] EPIPE
               eq_refl eq_refl _))))).
  intros fd H. cbn in H. apply lookup_singleton_Some in H as [<- _]. done.
Defined.

(** ** Bytes written while backpressured reach the fd in order *)

Lemma pop_written_concat q : ∀ n,
  (n ≤ length (concat q))%nat →
  ∃ q', pop_written n q = Some q' ∧ concat q' = drop n (concat q).
Proof.
  induction q as [|block rest IH]; intros n Hn.
  - cbn in Hn. assert (n = 0%nat) as -> by lia. by exists [].
  - destruct n as [|n]; [by eexists|].
    cbn [pop_written]. cbn [concat] in *. rewrite length_app in Hn.
    destruct (S n <? length block)%nat eqn:Hlt.
    + apply Nat.ltb_lt in Hlt. eexists; split; [done|].
      cbn [concat]. rewrite drop_app_le by lia. done.
    + apply Nat.ltb_ge in Hlt.
      destruct (IH (S n - length block)%nat) as (q' & Hpop & Hcat); [lia|].
      exists q'. split; [done|]. rewrite Hcat. by rewrite drop_app_ge by lia.
Qed.

Lemma write_queued data res w q :
  _queue (tr w) = Some q → _closing (tr w) = false → _eof (tr w) = false →
  ∃ q', write data res w
        = (Ok tt, {| tr := set_queue (Some q') (tr w); loop := loop w; log := log w;
                     os_kill := os_kill w |})
        ∧ concat q' = concat q ++ data.
Proof.
  intros Hq Hcl Heof.
  unfold write, mbind, M_bind, bind, self, assert, update, ret.
  rewrite Hcl, Heof, Hq. cbn [negb].
  destruct (IOV_MAX <? length (q ++ [data]))%nat; eexists; (split; [reflexivity|]).
  - cbn [concat]. rewrite app_nil_r, concat_app. cbn [concat]. by rewrite app_nil_r.
  - rewrite concat_app. cbn [concat]. by rewrite app_nil_r.
Qed.

Lemma writes_queued l : ∀ w q,
  _queue (tr w) = Some q → _closing (tr w) = false → _eof (tr w) = false →
  ∃ q', steps (writes l) w
        = {| tr := set_queue (Some q') (tr w); loop := loop w; log := log w;
             os_kill := os_kill w |}
        ∧ concat q' = concat q ++ concat (l.*1).
Proof.
  induction l as [|[data res] l IH]; intros w q Hq Hcl Heof.
  - exists q. split; [|by rewrite app_nil_r].
    destruct w as [t ? ? ?]. destruct t. cbn in *. by subst.
  - cbn [writes fmap list_fmap steps step fst snd].
    destruct (write_queued data res w q Hq Hcl Heof) as (q1 & Hw & Hcat).
    unfold run. rewrite Hw. cbn [snd]. fold (writes l).
    match goal with |- context [steps _ ?x] => set (w1 := x) end.
    destruct (IH w1 q1) as (q' & Hsteps & Hcat'); [done..|].
    rewrite Hsteps. exists q'. split.
    + subst w1. destruct w as [t ? ? ?]. by destruct t.
    + rewrite Hcat', Hcat. cbn. by rewrite <- app_assoc.
Qed.

Lemma drains_unregistered fd results : ∀ w,
  fd ∉ writers (loop w) → steps (drains fd results) w = w.
Proof.
  induction results as [|r results IH]; intros w Hfd; [done|].
  cbn. unfold run, when_registered. rewrite bool_decide_eq_false_2 by done.
  by apply IH.
Qed.

Lemma drains_deliver results : ∀ w q,
  _queue (tr w) = Some q → _closing (tr w) = false → _eof (tr w) = false →
  _out_fd (tr w) ∈ writers (loop w) →
  Forall (λ r, transient r = true) results →
  (sum_list (wrote <$> results) ≤ length (concat q))%nat →
  ∃ evs, log (steps (drains (_out_fd (tr w)) results) w) = log w ++ evs
         ∧ delivered (_out_fd (tr w)) evs
           = take (sum_list (wrote <$> results)) (concat q).
Proof.
  induction results as [|r results IH]; intros w q Hq Hcl Heof Hfd Hok Hsum.
  - exists []. by rewrite app_nil_r.
  - apply Forall_cons in Hok as [Hr Hok].
    change (sum_list (wrote <$> r :: results))
      with (wrote r + sum_list (wrote <$> results))%nat in *.
    set (fd := _out_fd (tr w)) in *.
    set (n := wrote r) in *.
    destruct (pop_written_concat q n) as (q' & Hpop & Hcat); [lia|].
    set (w0 := {| tr := tr w; loop := loop w; log := log w ++ [SysWritev fd q r];
                  os_kill := os_kill w |}).
    assert (Hstep : _write_ready r w = _write_ready_wrote q n w0).
    { unfold _write_ready, mbind, M_bind, bind, self, emit. rewrite Hq. cbn.
      destruct r as [m|e]; [done|]. cbn in Hr. by rewrite Hr. }
    assert (Hwr : written fd (SysWritev fd q r) = take n (concat q)).
    { destruct r as [m|e]; cbn; [by rewrite bool_decide_eq_true_2|done]. }
    cbn [drains fmap list_fmap steps step]. fold (drains fd results).
    unfold run at 1, when_registered. rewrite bool_decide_eq_true_2 by done.
    rewrite Hstep.
    destruct q' as [|b q'].
    + (* drained *)
      assert (Hn : n = length (concat q)).
      { assert (Hlen : length (drop n (concat q)) = 0%nat) by by rewrite <- Hcat.
        rewrite length_drop in Hlen. clear -Hsum Hlen. clearbody n. lia. }
      assert (Hrest : sum_list (wrote <$> results) = 0%nat)
        by (clear -Hsum Hn; clearbody n; lia).
      rewrite (_write_ready_wrote_drained w0 q n Hpop Hq).
      rewrite after_drain_open by done.
      match goal with |- context [if ?b then _ else _] =>
        assert (b = false) as -> by done end.
      unfold ret, run. cbn [snd].
      rewrite drains_unregistered.
      2:{ cbn. unfold drop_queue_loop. rewrite Hq. cbn.
          rewrite elem_of_difference. intros [_ H]. apply H.
          by apply elem_of_singleton. }
      cbn. unfold drop_queue_log. rewrite Hq.
      eexists. split; [rewrite <- !app_assoc; reflexivity|].
      unfold delivered. cbn [app mbind list_bind]. rewrite Hwr, Hrest, Nat.add_0_r.
      cbn. by rewrite app_nil_r.
    + unfold _write_ready_wrote. rewrite Hpop.
      unfold mbind, M_bind, bind, update, ret. cbn.
      match goal with |- context [steps _ ?x] => set (w1 := x) end.
      destruct (IH w1 (b :: q')) as (evs & Hlog & Hdel); [done..| |].
      { rewrite Hcat, length_drop. lia. }
      change (_out_fd (tr w1)) with fd in Hlog, Hdel.
      rewrite Hlog. exists (SysWritev fd q r :: evs). split.
      * subst w1. cbn. by rewrite <- app_assoc.
      * unfold delivered in *. cbn [mbind list_bind]. rewrite Hwr, Hdel, Hcat.
        apply take_take_drop.
Qed.

(** C1: on a transport that has a write queue and is neither closing nor
    past [write_eof], let [write(b1)], ..., [write(bn)] be called and then
    the write-readiness handler run any number of times, [os.writev]
    accepting each time as many bytes as it likes or none at all.  The
    bytes these gather-writes put on [_out_fd] are a prefix of the bytes
    that were pending followed by [b1 ++ ... ++ bn], as long as [os.writev]
    accepted in total; once it has accepted them all, what follows the
    formerly pending bytes is exactly [b1 ++ ... ++ bn].  The writes
    themselves perform no system call, and a write that finds [IOV_MAX]
    blocks or more queued leaves one block, the concatenation. *)
Theorem queued_writes_delivered_in_order
    (w : World) (q : list bytes) (l : list (bytes * sys nat)) (results : list (sys nat)) :
  _queue (tr w) = Some q →
  _closing (tr w) = false →
  _eof (tr w) = false →
  _out_fd (tr w) ∈ writers (loop w) →
  Forall (λ r, transient r = true) results →
  (sum_list (wrote <$> results) ≤ length (concat q ++ concat (l.*1)))%nat →
  let fd := _out_fd (tr w) in
  let w1 := steps (writes l) w in
  let w2 := steps (drains fd results) w1 in
  log w1 = log w
  ∧ delivered fd (since (log w) w2)
    = take (sum_list (wrote <$> results)) (concat q ++ concat (l.*1))
  ∧ (sum_list (wrote <$> results) = length (concat q ++ concat (l.*1)) →
     delivered fd (since (log w) w2) = concat q ++ concat (l.*1)
     ∧ drop (length (concat q)) (delivered fd (since (log w) w2)) = concat (l.*1))
  ∧ (∀ data res, (IOV_MAX ≤ length q)%nat →
       _queue (tr (run (write data res) w)) = Some [concat q ++ data]).
Proof.
  intros Hq Hcl Heof Hfd Hok Hsum fd w1 w2.
  destruct (writes_queued l w q Hq Hcl Heof) as (q' & Hw1 & Hcat).
  fold w1 in Hw1.
  assert (Hlog1 : log w1 = log w) by by rewrite Hw1.
  assert (Hfd1 : _out_fd (tr w1) = fd).
  { rewrite Hw1. subst fd. destruct w as [t ? ? ?]. by destruct t. }
  destruct (drains_deliver results w1 q') as (evs & Hlog & Hdel).
  { rewrite Hw1. destruct w as [t ? ? ?]. by destruct t. }
  { rewrite Hw1. destruct w as [t ? ? ?]. by destruct t. }
  { rewrite Hw1. destruct w as [t ? ? ?]. by destruct t. }
  { rewrite Hfd1. by rewrite Hw1. }
  { done. }
  { by rewrite Hcat. }
  rewrite Hfd1 in Hlog, Hdel. fold w2 in Hlog.
  assert (Hsince : since (log w) w2 = evs).
  { apply since_app. by rewrite Hlog, Hlog1. }
  rewrite Hsince, Hdel, Hcat.
  split; [done|]. split; [done|]. split.
  - intros ->. rewrite take_ge by done. split; [done|]. by rewrite drop_app_length.
  - intros data res Hlen. unfold run.
    unfold write, mbind, M_bind, bind, self, assert, update, ret.
    rewrite Hcl, Heof, Hq. cbn [negb].
    assert ((IOV_MAX <? length (q ++ [data]))%nat = true) as ->.
    { apply Nat.ltb_lt. rewrite length_app. cbn [length]. lia. }
    cbn [snd tr _queue set_queue concat]. rewrite concat_app. cbn [concat].
    by rewrite !app_nil_r.
Qed.

Lemma queued_writes_delivered_in_order_witness :
  delivered 1
    (since (log stdio_backpressured)
       (steps (drains 1 [Done 1%nat; Errno EAGAIN; Done 4%nat])
          (steps (writes [([x63], Done 0%nat); ([x64; x65], Done 0%nat)])
             stdio_backpressured)))
  = [x61; x62; x63; x64; x65].
Proof.
  refine (proj1 (proj1 (proj2 (proj2
    (queued_writes_delivered_in_order stdio_backpressured [[x61; x62]]
       [([x63], Done 0%nat); ([x64; x65], Done 0%nat)]
       [Done 1%nat; Errno EAGAIN; Done 4%nat] eq_refl eq_refl eq_refl _ _ _))) eq_refl)).
  - vm_compute. reflexivity.
  - repeat constructor.
  - vm_compute. lia.
Defined.

(** ** [Spooler.get] *)

Lemma spooler_drain_closed avail w :
  Spooler._fd (Spooler.this w) = -1 → Spooler.drain avail w = w.
Proof. intros H. destruct avail; cbn; [done|]. by rewrite H. Qed.

Lemma spooler_close_contents w :
  Spooler._contents (Spooler.this (Spooler.close w)) = Spooler._contents (Spooler.this w)
  ∧ Spooler._fd (Spooler.this (Spooler.close w)) = -1.
Proof.
  unfold Spooler.close. destruct (Spooler._fd (Spooler.this w) =? -1) eqn:H; cbn; [|done].
  by apply Z.eqb_eq in H.
Qed.

Lemma spooler_drain_contents avail : ∀ w,
  Spooler._fd (Spooler.this w) ≠ -1 →
  Spooler._contents (Spooler.this (Spooler.drain avail w))
  = Spooler._contents (Spooler.this w) ++ Spooler.received avail.
Proof.
  induction avail as [|res avail IH]; intros w Hfd; cbn [Spooler.drain Spooler.received].
  - by rewrite app_nil_r.
  - apply Z.eqb_neq in Hfd as Hfd'. rewrite Hfd'.
    assert (Hclosed : ∀ w', Spooler._fd (Spooler.this w') ≠ -1 →
              Spooler._contents (Spooler.this (Spooler.drain avail (Spooler.close w')))
              = Spooler._contents (Spooler.this w') ++ []).
    { intros w' _. destruct (spooler_close_contents w') as [Hc Hf].
      rewrite spooler_drain_closed by done. by rewrite Hc, app_nil_r. }
    destruct res as [[|b data]|e]; unfold Spooler._read_ready.
    + by rewrite Hclosed.
    + rewrite IH by done. cbn. by rewrite <- app_assoc.
    + destruct (is_BlockingIOError e).
      * by rewrite IH.
      * by rewrite Hclosed.
Qed.

Lemma spooler_received_chunks chunks :
  Forall (λ c : bytes, c ≠ []) chunks → Spooler.received (Done <$> chunks) = chunks.
Proof.
  induction 1 as [|c chunks Hc _ IH]; [done|].
  cbn. destruct c; [done|]. by rewrite IH.
Qed.

(** C9: [get] first reads everything that can be read without blocking,
    up to an end of file, and answers the concatenation, in the order of
    arrival, of all the chunks buffered; without [reset] the buffer keeps
    them, with [reset] it is emptied, so that a later [get] answers only
    what arrived since; once the spooler is closed -- by [close] or by
    itself on end of file -- [get] reads nothing and still answers all
    that was buffered. *)
Theorem spooler_get_spec (w : Spooler.World) (reset : bool) (avail later : list (sys bytes)) :
  let contents := Spooler._contents (Spooler.this w) in
  (Spooler._fd (Spooler.this w) ≠ -1 →
     (Spooler.get reset avail w).1 = concat (contents ++ Spooler.received avail)
     ∧ Spooler._contents (Spooler.this (Spooler.get false avail w).2)
       = contents ++ Spooler.received avail
     ∧ (∀ chunks, Forall (λ c : bytes, c ≠ []) chunks →
          (Spooler.get reset (Done <$> chunks) w).1 = concat (contents ++ chunks)))
  ∧ Spooler._contents (Spooler.this (Spooler.get true avail w).2) = []
  ∧ (Spooler._fd (Spooler.this (Spooler.get true avail w).2) ≠ -1 →
     (Spooler.get false later (Spooler.get true avail w).2).1
     = concat (Spooler.received later))
  ∧ (Spooler._fd (Spooler.this w) = -1 → Spooler.get false avail w = (concat contents, w))
  ∧ (Spooler.get reset avail (Spooler.close w)).1 = concat contents
  ∧ (∀ chunks rest, Spooler._fd (Spooler.this w) ≠ -1 →
       Forall (λ c : bytes, c ≠ []) chunks →
       let w' := (Spooler.get false ((Done <$> chunks) ++ Done [] :: rest) w).2 in
       Spooler._fd (Spooler.this w') = -1
       ∧ (Spooler.get false later w').1 = concat (contents ++ chunks)).
Proof.
  intros contents.
  assert (Hget : ∀ r a w0, (Spooler.get r a w0).1
                 = concat (Spooler._contents (Spooler.this (Spooler.drain a w0)))).
  { intros r a w0. unfold Spooler.get. by destruct r. }
  split_and!.
  - intros Hfd. split_and!.
    + by rewrite Hget, spooler_drain_contents.
    + cbn. by apply spooler_drain_contents.
    + intros chunks Hne.
      by rewrite Hget, spooler_drain_contents, spooler_received_chunks.
  - done.
  - intros Hfd. rewrite Hget, spooler_drain_contents by done. done.
  - intros Hfd. unfold Spooler.get. by rewrite spooler_drain_closed.
  - destruct (spooler_close_contents w) as [Hc Hf].
    rewrite Hget, spooler_drain_closed by done. by rewrite Hc.
  - intros chunks rest Hfd Hne w'.
    assert (Hw' : w' = Spooler.drain ((Done <$> chunks) ++ Done [] :: rest) w) by done.
    assert (Hrec : Spooler.received ((Done <$> chunks) ++ Done [] :: rest) = chunks).
    { clear -Hne. induction Hne as [|c chunks Hc _ IH]; [done|].
      cbn. destruct c; [done|]. by rewrite IH. }
    assert (Hclosed : Spooler._fd (Spooler.this w') = -1).
    { rewrite Hw'. clear -Hne Hfd. revert w Hfd.
      induction Hne as [|c chunks Hc _ IH]; intros w Hfd.
      - cbn. apply Z.eqb_neq in Hfd as ->. cbn.
        destruct (spooler_close_contents (Spooler.emit
          (Spooler.SysRead (Spooler._fd (Spooler.this w)) (Done [])) w)) as [_ Hf].
        by rewrite spooler_drain_closed.
      - cbn [fmap list_fmap app Spooler.drain].
        apply Z.eqb_neq in Hfd as Hfd'. rewrite Hfd'.
        destruct c as [|b c]; [done|]. apply IH. done. }
    split; [done|].
    rewrite Hget, spooler_drain_closed by done.
    by rewrite Hw', spooler_drain_contents, Hrec.
Qed.

Lemma spooler_get_spec_witness :
  (Spooler.get true [Done [x61]; Done [x62; x63]] (Spooler.__init__ 8 ∅)).1
  = [x61; x62; x63].
Proof.
  refine (proj1 (proj1 (spooler_get_spec (Spooler.__init__ 8 ∅) true
                          [Done [x61]; Done [x62; x63]] []) _)).
  vm_compute. discriminate.
Defined.

(** ** What no method can break *)

Create HintDb keeps.

Section Keeps.
Context (P : World → Prop).

Lemma keeps_ret {A} (a : A) : keeps P (ret a).
Proof. by intros w. Qed.

Lemma keeps_raise {A} e : keeps P (@raise A e).
Proof. by intros w. Qed.

Lemma keeps_self : keeps P self.
Proof. by intros w. Qed.

Lemma keeps_sys_kill p sig : keeps P (sys_kill p sig).
Proof. by intros w. Qed.

Lemma keeps_assert b : keeps P (assert b).
Proof. intros w. by destruct b. Qed.

Lemma keeps_bind {A B} (m : M A) (f : A → M B) :
  keeps P m → (∀ a, keeps P (f a)) → keeps P (m ≫= f).
Proof.
  intros Hm Hf w Hw. unfold mbind, M_bind, bind.
  specialize (Hm w Hw). destruct (m w) as [[a|e] w']; [by apply Hf|done].
Qed.

Lemma keeps_try_except {A} (m : M A) handles h :
  keeps P m → (∀ e, keeps P (h e)) → keeps P (try_except m handles h).
Proof.
  intros Hm Hh w Hw. unfold try_except.
  specialize (Hm w Hw). destruct (m w) as [[a|e] w']; [done|].
  destruct (handles e); [by apply Hh|done].
Qed.

Lemma keeps_when_registered guard m :
  keeps P m → keeps P (when_registered guard m).
Proof.
  intros Hm w Hw. unfold when_registered. destruct (guard (loop w)); [by apply Hm|done].
Qed.

Context `{!Framed P}.

Lemma neutral_set_queue q : neutral (set_queue q).
Proof. by intros []. Qed.
Lemma neutral_set_out_fd fd : neutral (set_out_fd fd).
Proof. by intros []. Qed.
Lemma neutral_set_closing b : neutral (set_closing b).
Proof. by intros []. Qed.
Lemma neutral_set_eof b : neutral (set_eof b).
Proof. by intros []. Qed.
Lemma neutral_set_pty_fd fd : neutral (set_pty_fd fd).
Proof. by intros []. Qed.
Lemma neutral_set_process p : neutral (set_process (Some p)).
Proof. intros []. split_and!; [done| |done..]. by eexists. Qed.

Local Hint Resolve neutral_set_queue neutral_set_out_fd neutral_set_closing
  neutral_set_eof neutral_set_pty_fd neutral_set_process : keeps.

(** Take a method apart down to the steps [P] is framed for. *)
Ltac keeps_tac :=
  repeat first
    [ progress cbv zeta
    | apply keeps_ret | apply keeps_raise | apply keeps_self
    | apply keeps_sys_kill | apply keeps_assert
    | apply framed_emit | apply framed_pause_reading | apply framed_close_reader
    | apply framed_resume_reading
    | apply framed_add_writer | apply framed_remove_writer | apply framed_call_soon
    | apply framed_run_ready
    | apply framed_update; solve [auto with keeps]
    | solve [auto with keeps]
    | apply keeps_bind; [|intros ?]
    | apply keeps_try_except; [|intros ?]
    | apply keeps_when_registered
    | match goal with |- keeps _ (match ?x with _ => _ end) => destruct x end ].

Lemma keeps_file_close f : keeps P (file_close f).
Proof. unfold file_close. keeps_tac. Qed.
Local Hint Resolve keeps_file_close : keeps.

Lemma keeps__remove_write_queue : keeps P _remove_write_queue.
Proof. unfold _remove_write_queue. keeps_tac. Qed.
Local Hint Resolve keeps__remove_write_queue : keeps.

Lemma keeps__create_write_queue data : keeps P (_create_write_queue data).
Proof. unfold _create_write_queue. keeps_tac. Qed.
Local Hint Resolve keeps__create_write_queue : keeps.

Lemma keeps_send_signal sig : keeps P (send_signal sig).
Proof. unfold send_signal. keeps_tac. Qed.
Local Hint Resolve keeps_send_signal : keeps.

Lemma keeps__close : keeps P _close.
Proof. unfold _close, terminate. keeps_tac. Qed.
Local Hint Resolve keeps__close : keeps.

Lemma keeps_abort exc : keeps P (abort exc).
Proof. unfold abort. keeps_tac. Qed.
Local Hint Resolve keeps_abort : keeps.

Lemma keeps__write_eof_now : keeps P _write_eof_now.
Proof. unfold _write_eof_now. keeps_tac. Qed.
Local Hint Resolve keeps__write_eof_now : keeps.

Lemma keeps_write_eof : keeps P write_eof.
Proof. unfold write_eof. keeps_tac. Qed.

Lemma keeps__write_ready res : keeps P (_write_ready res).
Proof. unfold _write_ready, _write_ready_wrote. keeps_tac. Qed.

Lemma keeps_write data res : keeps P (write data res).
Proof. unfold write, write_wrote. keeps_tac. Qed.

Lemma keeps_close : keeps P close.
Proof. unfold close. keeps_tac. Qed.
Local Hint Resolve keeps_close : keeps.

Lemma keeps__read_ready res keep_open : keeps P (_read_ready res keep_open).
Proof. unfold _read_ready, _read_ready_got. keeps_tac. Qed.

(** Every action but the two exit-detection callbacks keeps [P]. *)
Lemma keeps_step a : is_exit_event a = false → keeps P (step a).
Proof.
  destruct a; intros Ha; try discriminate Ha; cbn [step];
    auto using keeps_write, keeps_write_eof, keeps_close, keeps_abort,
      framed_pause_reading, framed_resume_reading, keeps_send_signal,
      keeps_when_registered, keeps__read_ready, keeps__write_ready, framed_run_ready.
Qed.

Context `{!FramedExit P}.

Lemma keeps_flag_exit : keeps P flag_exit.
Proof. unfold flag_exit. keeps_tac. Qed.

Lemma keeps_pidfd_ready fd status : keeps P (pidfd_ready fd status).
Proof.
  unfold pidfd_ready.
  apply keeps_bind; [apply framed_set_returncode|intros ?].
  apply keeps_bind; [apply framed_remove_reader|intros ?].
  apply keeps_bind; [apply framed_emit|intros ?].
  apply keeps_flag_exit.
Qed.

Lemma keeps_watcher_fire p code : keeps P (watcher_fire p code).
Proof.
  unfold watcher_fire, child_watch_fired.
  apply keeps_bind; [apply framed_watcher_forget|intros ?].
  apply keeps_bind; [apply keeps_self|intros ?].
  apply keeps_bind; [apply keeps_assert|intros ?].
  apply keeps_bind; [apply framed_set_returncode|intros ?].
  apply keeps_flag_exit.
Qed.

(** With the exit-detection callbacks framed too, every action keeps [P],
    and so does every sequence of actions. *)
Lemma keeps_any_step a : keeps P (step a).
Proof.
  destruct (is_exit_event a) eqn:Ha; [|by apply keeps_step].
  destruct a; try discriminate Ha; cbn [step]; apply keeps_when_registered;
    first [ apply keeps_pidfd_ready | apply keeps_watcher_fire ].
Qed.

Lemma keeps_steps l : ∀ w, P w → P (steps l w).
Proof.
  induction l as [|a l IH]; intros w Hw; [done|].
  cbn. apply IH. by apply keeps_any_step.
Qed.

End Keeps.

(** ** The exit status of the child *)

#[global] Instance frame_framed w0 : Framed (frame w0).
Proof.
  assert (Hdel : ∀ fd w, frame w0 w → frame w0 (loop_remove_reader fd w).2).
  { intros fd w (H1 & H2 & H3 & H4). split_and!; [|done..].
    intros fd' H. apply H1.
    change (delete fd (readers (loop w)) !! fd' = Some cb_pidfd_ready) in H.
    by apply lookup_delete_Some in H as [_ H]. }
  assert (Hpause : keeps (frame w0) pause_reading).
  { intros w Hw. unfold pause_reading, mbind, M_bind, bind, self.
    destruct (_is_reading (tr w)); [|done].
    apply (Hdel (_in_fd (tr w))) in Hw. destruct Hw as (H1 & H2 & H3 & H4).
    by split_and!. }
  split.
  - by intros e w H.
  - intros f Hf w (H1 & H2 & H3 & H4). destruct (Hf (tr w)) as (Hrc & Hp & _).
    split_and!; cbn; [done|done|auto|congruence].
  - done.
  - intros w Hw. apply Hpause in Hw. unfold _close_reader, mbind, M_bind, bind.
    destruct (pause_reading w) as [[[]|e] w']; [|done].
    destruct Hw as (H1 & H2 & H3 & H4).
    split_and!; try done; cbn; revert H3 H4; destruct (tr w'); cbn; auto.
  - intros w (H1 & H2 & H3 & H4). unfold resume_reading. unfold_m.
    destruct (negb (_is_reading (tr w)) && negb (_in_fd (tr w) =? -1)); [|done].
    split_and!; cbn;
      [|done|revert H3; destruct (tr w); cbn; auto|revert H4; by destruct (tr w)].
    intros fd' H. apply H1. rewrite lookup_insert in H. by case_decide.
  - by intros fd w H.
  - by intros fd w H.
  - by intros cb w H.
  - by intros w H.
Qed.

Lemma frame_refl w : frame w w.
Proof. by split_and!. Qed.

(** An action that is not an exit-detection callback arms no exit watch
    and leaves the child and the exit status as they are. *)
Lemma step_frame a w : is_exit_event a = false → frame w (run (step a) w).
Proof. intros Ha. apply (keeps_step (frame w) a Ha w), frame_refl. Qed.

Lemma step_unfired a w :
  is_exit_event a = true → exit_watch_spent w → run (step a) w = w.
Proof.
  intros Ha [Hfd Hch]. destruct a; try discriminate Ha; cbn; unfold run, when_registered.
  - rewrite bool_decide_eq_false_2; [done|apply Hfd].
  - rewrite bool_decide_eq_false_2; [done|]. rewrite Hch. apply not_elem_of_empty.
Qed.

Lemma step_exit_watch_inv a w : exit_watch_inv w → exit_watch_inv (run (step a) w).
Proof.
  intros (HA & HB & HC & HD & HE).
  destruct (is_exit_event a) eqn:Ha.
  - destruct a; try discriminate Ha; cbn; unfold run, when_registered;
      case_bool_decide as Hreg; try done.
    + (* pidfd_ready *)
      assert (Hspent : ∀ fd', delete fd (readers (loop w)) !! fd' ≠ Some cb_pidfd_ready).
      { intros fd' H. apply lookup_delete_Some in H as [Hne H]. by apply Hne, HA. }
      assert (Hnone : child_handlers (loop w) = ∅).
      { apply elem_of_equiv_empty_L. intros p Hp. by apply (HC fd p). }
      unfold pidfd_ready, flag_exit. unfold_m. cbn.
      destruct (_closing (tr w)); cbn;
        (split_and!; [intros ?? Hx; by apply Hspent in Hx|done|
                      intros ?? Hx; by apply Hspent in Hx|by intros _|done]).
    + (* child_watch_fired *)
      assert (Hnone : child_handlers (loop w) ∖ {[p]} = ∅).
      { apply elem_of_equiv_empty_L. intros p' [Hp' Hne]%elem_of_difference.
        apply Hne, elem_of_singleton. by apply HB. }
      assert (Hspent : ∀ fd', readers (loop w) !! fd' ≠ Some cb_pidfd_ready).
      { intros fd' H. by apply (HC fd' p). }
      unfold watcher_fire, watcher_forget, child_watch_fired, flag_exit. unfold_m. cbn.
      case_bool_decide; cbn; [destruct (_closing (tr w)); cbn|];
        (split_and!; [intros ?? Hx; by apply Hspent in Hx|
                      by (rewrite Hnone; intros ?? ?%not_elem_of_empty)|
                      intros ?? Hx; by apply Hspent in Hx|by intros _|done]).
  - destruct (step_frame a w Ha) as (H1 & H2 & H3 & H4).
    split_and!.
    + intros fd1 fd2 Hfd1 Hfd2. apply HA; by apply H1.
    + rewrite H2. apply HB.
    + rewrite H2. intros fd p Hfd Hp. apply (HC fd p); [by apply H1|done].
    + rewrite H4. intros Hrc. destruct (HD Hrc) as [Hs1 Hs2]. split.
      * intros fd H. by apply (Hs1 fd), H1.
      * by rewrite H2.
    + by apply H3.
Qed.

Lemma step_returncode a w c :
  exit_watch_inv w → _returncode (tr w) = Some c →
  _returncode (tr (run (step a) w)) = Some c.
Proof.
  intros (_ & _ & _ & HD & _) Hrc.
  destruct (is_exit_event a) eqn:Ha.
  - rewrite step_unfired; [done..|]. apply HD. by rewrite Hrc.
  - destruct (step_frame a w Ha) as (_ & _ & _ & H4). by rewrite H4.
Qed.

Lemma steps_returncode l : ∀ w c,
  exit_watch_inv w → _returncode (tr w) = Some c →
  exit_watch_inv (steps l w) ∧ _returncode (tr (steps l w)) = Some c.
Proof.
  induction l as [|a l IH]; intros w c Hinv Hrc; [done|].
  cbn. apply IH; [by apply step_exit_watch_inv|by apply step_returncode].
Qed.

Lemma steps_exit_watch_inv l : ∀ w, exit_watch_inv w → exit_watch_inv (steps l w).
Proof.
  induction l as [|a l IH]; intros w Hinv; [done|].
  cbn. by apply IH, step_exit_watch_inv.
Qed.

Lemma init_exit_watch_inv master child stdin_fd stdout_fd pidfd k :
  exit_watch_inv
    (run (SubprocessTransport__init__ pidfd)
       (world (new_subprocess_transport master child stdin_fd stdout_fd) empty_loop k)).
Proof.
  assert (Hfresh : ∀ (rd : gmap Z ReaderCb) pfd,
            (∀ fd, rd !! fd ≠ Some cb_pidfd_ready) →
            ∀ fd1 fd2, <[pfd:=cb_pidfd_ready]> rd !! fd1 = Some cb_pidfd_ready →
                       <[pfd:=cb_pidfd_ready]> rd !! fd2 = Some cb_pidfd_ready →
                       fd1 = fd2).
  { intros rd pfd Hrd fd1 fd2 [[<- _]|[_ H1]]%lookup_insert_Some
      [[<- _]|[_ H2]]%lookup_insert_Some; try done; by edestruct Hrd. }
  assert (Hone : ∀ fd fd' : Z, (<[fd := cb_read_ready]> ∅ : gmap Z ReaderCb) !! fd'
                               ≠ Some cb_pidfd_ready).
  { intros fd fd' [[_ H]|[_ H]]%lookup_insert_Some; [discriminate|].
    by rewrite lookup_empty in H. }
  assert (Hnone : ∀ fd' : Z, (∅ : gmap Z ReaderCb) !! fd' ≠ Some cb_pidfd_ready).
  { intros fd'. by rewrite lookup_empty. }
  assert (Hpid : ∀ p1 p2 : Z, p1 ∈ ({[child]} ∪ ∅ : gset Z) →
                              p2 ∈ ({[child]} ∪ ∅ : gset Z) → p1 = p2).
  { intros p1 p2. rewrite !elem_of_union, !elem_of_singleton, !elem_of_empty.
    intros [->|[]] [->|[]]. done. }
  unfold SubprocessTransport__init__, __init__, watch_exit, watcher_add_child_handler,
    new_subprocess_transport, new_transport, empty_loop, world.
  destruct master as [m|], pidfd as [pfd|]; unfold resume_reading; unfold_m; cbn;
    match goal with |- context [?x =? -1] => destruct (x =? -1); cbn end;
    (split_and!; cbn;
     [ first [ apply Hfresh; first [apply Hone|apply Hnone]
             | intros ?? Hx; by apply Hone in Hx
             | intros ?? Hx; by apply Hnone in Hx ]
     | first [ apply Hpid | intros ?? Hx; by apply elem_of_empty in Hx ]
     | first [ intros ?? _ Hx; by apply elem_of_empty in Hx
             | intros ?? Hx; by apply Hone in Hx
             | intros ?? Hx; by apply Hnone in Hx ]
     | by intros []
     | by eexists ]).
Qed.

(** C7: take a [SubprocessTransport] as [__init__] leaves it, over pipes
    or a pty, with its exit watch on a pidfd or with the child watcher.
    Whatever happens to it before its exit status is seen to be [c], and
    whatever happens after, the status is still [c]: [get_returncode]
    answers [c] and [send_signal] neither sends a signal nor changes
    anything.  Either callback records the status it is given.  Where the
    status is not known, [send_signal] returns normally when [os.kill]
    fails with [ESRCH]. *)
Theorem returncode_stable
    (master : option Z) (child stdin_fd stdout_fd : Z) (pidfd : option Z)
    (k : Z → Z → option Z) (before after : list Action) (c : Z) :
  let w0 := run (SubprocessTransport__init__ pidfd)
              (world (new_subprocess_transport master child stdin_fd stdout_fd)
                 empty_loop k) in
  let w1 := steps before w0 in
  let w2 := steps after w1 in
  _returncode (tr w1) = Some c →
  get_returncode w2 = (Ok (Some c), w2)
  ∧ (∀ sig, send_signal sig w2 = (Ok tt, w2))
  ∧ (∀ w fd status, readers (loop w) !! fd = Some cb_pidfd_ready →
       _returncode (tr (run (step (PidfdReadable fd status)) w))
       = Some (default status (waitstatus_to_exitcode status)))
  ∧ (∀ w p code, p ∈ child_handlers (loop w) → pid <$> _process (tr w) = Some p →
       _returncode (tr (run (step (ChildExited p code)) w)) = Some code)
  ∧ (∀ w p sig, _process (tr w) = Some p → _returncode (tr w) = None →
       os_kill w (pid p) sig = Some ESRCH →
       send_signal sig w
       = (Ok tt, {| tr := tr w; loop := loop w;
                    log := log w ++ [SysKill (pid p) sig (Errno ESRCH)];
                    os_kill := os_kill w |})).
Proof.
  intros w0 w1 w2 Hrc.
  assert (Hinv1 : exit_watch_inv w1)
    by apply steps_exit_watch_inv, init_exit_watch_inv.
  destruct (steps_returncode after w1 c Hinv1 Hrc) as [Hinv2 Hrc2].
  fold w2 in Hinv2, Hrc2.
  destruct Hinv2 as (_ & _ & _ & _ & [p Hp]).
  split_and!.
  - unfold get_returncode, mbind, M_bind, bind, self, ret. by rewrite Hrc2.
  - intros sig. unfold send_signal, mbind, M_bind, bind, self, ret.
    by rewrite Hp, Hrc2.
  - intros w fd status Hfd. cbn. unfold run, when_registered.
    rewrite bool_decide_eq_true_2 by done.
    unfold pidfd_ready, flag_exit. unfold_m. cbn. by destruct (_closing (tr w)).
  - intros w p' code Hp' Hpid. cbn. unfold run, when_registered.
    rewrite bool_decide_eq_true_2 by done.
    unfold watcher_fire, watcher_forget, child_watch_fired, flag_exit. unfold_m. cbn.
    rewrite bool_decide_eq_true_2 by done. cbn. by destruct (_closing (tr w)).
  - intros w p' sig Hp' Hnone Hk.
    unfold send_signal, sys_kill, mbind, M_bind, bind, self, emit, ret.
    by rewrite Hp', Hnone, Hk.
Qed.

Lemma returncode_stable_witness :
  let w2 := steps [SendSignal SIGTERM; Close] (steps [PidfdReadable 7 0] pipe_child) in
  get_returncode w2 = (Ok (Some 0), w2).
Proof.
  exact (proj1 (returncode_stable None 100 5 4 (Some 7) kill_ok
                  [PidfdReadable 7 0] [SendSignal SIGTERM; Close] 0 eq_refl)).
Defined.

(** ** Invariants of the read side *)

#[global] Instance no_invalid_reader_framed : Framed no_invalid_reader.
Proof.
  assert (Hpause : keeps no_invalid_reader pause_reading).
  { intros w Hw. unfold no_invalid_reader, pause_reading in *. unfold_m.
    destruct (_is_reading (tr w)); [|done]. cbn.
    by apply lookup_delete_None; right. }
  split; [by intros e w|by intros f _ w|done| | |by intros fd w|by intros fd w
         |by intros cb w|by intros w].
  - intros w Hw. apply Hpause in Hw. unfold _close_reader, mbind, M_bind, bind.
    by destruct (pause_reading w) as [[[]|e] w'].
  - intros w Hw. unfold no_invalid_reader, resume_reading in *. unfold_m.
    destruct (_is_reading (tr w)); cbn; [done|].
    destruct (_in_fd (tr w) =? -1) eqn:Hfd; cbn; [done|].
    apply Z.eqb_neq in Hfd. by rewrite lookup_insert_ne.
Qed.

#[global] Instance no_invalid_reader_framed_exit : FramedExit no_invalid_reader.
Proof.
  split; [by intros r w| |by intros p w].
  intros fd w Hw. unfold no_invalid_reader in *.
  change (delete fd (readers (loop w)) !! (-1) = None).
  by apply lookup_delete_None; right.
Qed.

#[global] Instance reading_coherent_framed : Framed reading_coherent.
Proof.
  assert (Hpause : ∀ w, reading_coherent w →
            ∀ fd, readers (loop (pause_reading w).2) !! fd ≠ Some cb_read_ready).
  { intros w Hw fd. unfold pause_reading. unfold_m.
    destruct (_is_reading (tr w)) eqn:Hrd; cbn.
    - intros [Hne H]%lookup_delete_Some. by destruct (Hw fd H) as [_ ->].
    - intros H. destruct (Hw fd H) as [Hrd' _]. congruence. }
  split; [by intros e w| | | | |by intros fd w|by intros fd w|by intros cb w
         |by intros w].
  - intros f Hf w Hw fd H. destruct (Hf (tr w)) as (_ & _ & Hrd & Hfd).
    cbn in *. rewrite Hrd, Hfd. by apply Hw.
  - intros w Hw fd H. by destruct (Hpause w Hw fd).
  - intros w Hw fd. unfold _close_reader, mbind, M_bind, bind.
    specialize (Hpause w Hw fd).
    destruct (pause_reading w) as [[[]|e] w']; cbn in *; by intros H.
  - intros w Hw. unfold resume_reading. unfold_m.
    destruct (_is_reading (tr w)) eqn:Hrd; cbn; [exact Hw|].
    destruct (_in_fd (tr w) =? -1) eqn:Hfd; cbn; [exact Hw|].
    intros fd H. cbn in H.
    apply lookup_insert_Some in H as [[<- _]|[_ H]]; [by destruct (tr w)|].
    destruct (Hw fd H) as [Hrd' _]. congruence.
Qed.

#[global] Instance reading_coherent_framed_exit : FramedExit reading_coherent.
Proof.
  split; [| |by intros p w].
  - intros r w Hw fd H. cbn in *. destruct (Hw fd H) as [Hrd Hfd].
    revert Hrd Hfd. by destruct (tr w).
  - intros fd w Hw fd' H.
    change (delete fd (readers (loop w)) !! fd' = Some cb_read_ready) in H.
    apply lookup_delete_Some in H as [_ H]. by apply Hw.
Qed.

(** The read callback is where [_is_reading] says, and no reader is on
    [-1], in every world that a sequence of actions leads to. *)
Lemma read_side_invariants l w :
  (reading_coherent w → reading_coherent (steps l w))
  ∧ (no_invalid_reader w → no_invalid_reader (steps l w)).
Proof. split; apply keeps_steps; apply _. Qed.

Lemma init_read_side c in_fd out_fd k :
  let w := run __init__ (world (new_transport c in_fd out_fd) empty_loop k) in
  reading_coherent w ∧ no_invalid_reader w.
Proof.
  unfold __init__, resume_reading, new_transport, empty_loop, world. unfold_m. cbn.
  destruct (in_fd =? -1) eqn:Hfd; cbn; (split; [intros fd H; cbn in H|]).
  - by rewrite lookup_empty in H.
  - apply lookup_empty.
  - apply lookup_insert_Some in H as [[<- _]|[_ H]]; [done|by rewrite lookup_empty in H].
  - apply Z.eqb_neq in Hfd. unfold no_invalid_reader. cbn.
    rewrite lookup_insert_ne by done. apply lookup_empty.
Qed.

(** ** [pause_reading] and [resume_reading] *)

(** C10: [pause_reading] on a transport that is not reading and
    [resume_reading] on one that is change nothing, so both are
    idempotent; [resume_reading] changes nothing either once [_in_fd] is
    [-1], and never registers a reader on [-1]: a loop without a reader on
    [-1] has none after any sequence of actions on the transport. *)
Theorem reading_guards (w : World) :
  (_is_reading (tr w) = false → pause_reading w = (Ok tt, w))
  ∧ (_is_reading (tr w) = true → resume_reading w = (Ok tt, w))
  ∧ (_in_fd (tr w) = -1 → resume_reading w = (Ok tt, w))
  ∧ run pause_reading (run pause_reading w) = run pause_reading w
  ∧ run resume_reading (run resume_reading w) = run resume_reading w
  ∧ (∀ cb, LoopAddReader (-1) cb ∉ since (log w) (run resume_reading w))
  ∧ (readers (loop w) !! (-1) = None →
     readers (loop (run resume_reading w)) !! (-1) = None)
  ∧ (∀ l, no_invalid_reader w → no_invalid_reader (steps l w)).
Proof.
  assert (Hsteps : ∀ l, no_invalid_reader w → no_invalid_reader (steps l w))
    by (intros l; apply read_side_invariants).
  revert Hsteps.
  destruct w as [t l lg k]. destruct t as [c q i o cl rd ef eio pty pr rc].
  unfold since; cbn. intros Hsteps.
  split; [by intros ->|]. split; [by intros ->|].
  split; [intros ->; unfold_m; cbn; by rewrite andb_false_r|].
  split; [destruct rd; reflexivity|].
  unfold_m; cbn.
  destruct rd; cbn; [by rewrite drop_all; split_and!; [|intros cb ?%elem_of_nil| |]|].
  destruct (i =? -1) eqn:Hi; cbn.
  - rewrite Hi; cbn. rewrite drop_all. by split_and!; [|intros cb ?%elem_of_nil| |].
  - apply Z.eqb_neq in Hi. split_and!; [done| | |done].
    + intros cb. rewrite drop_app_length. rewrite list_elem_of_singleton. congruence.
    + intros H. by rewrite lookup_insert_ne.
Qed.

Lemma reading_guards_witness :
  resume_reading (run _close_reader stdio_backpressured)
  = (Ok tt, run _close_reader stdio_backpressured).
Proof.
  apply (proj1 (proj2 (proj2 (reading_guards (run _close_reader stdio_backpressured))))).
  reflexivity.
Defined.


(** ** Further properties: the write path *)

Lemma _write_ready_transient_eq w q res :
  _queue (tr w) = Some q →
  transient res = true →
  _write_ready res w
  = _write_ready_wrote q (wrote res)
      {| tr := tr w; loop := loop w;
         log := log w ++ [SysWritev (_out_fd (tr w)) q res];
         os_kill := os_kill w |}.
Proof.
  intros Hq Hr. unfold _write_ready, mbind, M_bind, bind, self, emit. rewrite Hq. cbn.
  destruct res as [n|e]; [done|]. cbn in Hr. by rewrite Hr.
Qed.

Lemma written_writev fd q res :
  transient res = true → written fd (SysWritev fd q res) = take (wrote res) (concat q).
Proof. destruct res; cbn; [by rewrite bool_decide_eq_true_2|done]. Qed.

Lemma written_write fd data res :
  transient res = true → written fd (SysWrite fd data res) = take (wrote res) data.
Proof. destruct res; cbn; [by rewrite bool_decide_eq_true_2|done]. Qed.

(** What a [write] that calls [os.write] leaves, when [os.write] takes
    some of the bytes or would block. *)
Lemma write_idle_eq w data res :
  _queue (tr w) = None → _closing (tr w) = false → _eof (tr w) = false →
  transient res = true →
  write data res w
  = (Ok tt,
     if bool_decide (wrote res ≠ length data)
     then {| tr := set_queue (Some [drop (wrote res) data]) (tr w);
             loop := {| readers := readers (loop w);
                        writers := {[_out_fd (tr w)]} ∪ writers (loop w);
                        child_handlers := child_handlers (loop w);
                        ready := ready (loop w) |};
             log := log w ++ [SysWrite (_out_fd (tr w)) data res;
                              LoopAddWriter (_out_fd (tr w)); ProtoPauseWriting];
             os_kill := os_kill w |}
     else {| tr := tr w; loop := loop w;
             log := log w ++ [SysWrite (_out_fd (tr w)) data res];
             os_kill := os_kill w |}).
Proof.
  intros Hq Hcl Heof Hr.
  assert (Hwrote : write data res w
                   = write_wrote data (wrote res)
                       {| tr := tr w; loop := loop w;
                          log := log w ++ [SysWrite (_out_fd (tr w)) data res];
                          os_kill := os_kill w |}).
  { unfold write, mbind, M_bind, bind, self, assert, emit, ret.
    rewrite Hcl, Heof, Hq. cbn. destruct res as [n|e]; [done|]. cbn in Hr. by rewrite Hr. }
  rewrite Hwrote. unfold write_wrote. case_bool_decide; [|done].
  unfold _create_write_queue. unfold_m. cbn. rewrite Hq. cbn.
  by rewrite <- !app_assoc.
Qed.

(** [_close] logs nothing but closes and signals. *)
Lemma _close_releases w :
  ∃ evs, log (run _close w) = log w ++ evs ∧ Forall (λ e, is_release e = true) evs.
Proof.
  destruct w as [t l lg k]. destruct t as [c q i o cl rd ef eio pty pr rc].
  unfold _close; unfold_m; cbn.
  destruct c; cbn;
  try (destruct pty as [fd|], pr as [[p [[fn []]|]]|], rc as [r|]; cbn);
  try (destruct (k p SIGTERM) as [e|] eqn:Hk; cbn;
         [destruct (is_ProcessLookupError e); cbn; [|destruct (is_PermissionError e); cbn]|]);
  (eexists; split; [log_eq|repeat constructor]).
Qed.

Lemma abort_releases exc w :
  ∃ hook,
    log (run (abort exc) w)
    = log w ++ stop_reading_log (tr w) ++ drop_queue_log (tr w)
        ++ [LoopCallSoon (connection_lost exc)] ++ hook
    ∧ Forall (λ e, is_release e = true) hook.
Proof.
  unfold run. rewrite abort_eq.
  match goal with |- context [_close ?x] => set (w1 := x) end.
  fold (run _close w1).
  destruct (_close_releases w1) as (hook & Hlog & Hrel).
  exists hook. rewrite Hlog. subst w1; cbn. by rewrite <- !app_assoc.
Qed.

Lemma count_releases p evs :
  Forall (λ e, is_release e = true) evs →
  (∀ e, is_release e = true → p e = false) →
  count p evs = 0%nat.
Proof.
  intros Hrel Hp. unfold count. induction Hrel as [|e evs He _ IH]; [done|].
  rewrite filter_cons. destruct (decide (p e = true)) as [Hpe|_]; [|done].
  rewrite (Hp e He) in Hpe. done.
Qed.

Lemma delivered_releases fd evs :
  Forall (λ e, is_release e = true) evs → delivered fd evs = [].
Proof.
  induction 1 as [|e evs He _ IH]; [done|].
  unfold delivered in *. cbn [mbind list_bind]. rewrite IH. by destruct e.
Qed.

(** X1: a [write] on a transport with no queue, not closing and not past
    [write_eof], calls [os.write] once.  When [os.write] takes [n] bytes
    (none if it would block), exactly the other bytes are queued;
    [pause_writing] is signalled, and the writer registered, if and only
    if some byte is left, and else nothing but the log changes.  When
    [os.write] fails with another error the transport aborts with it:
    nothing is queued and [pause_writing] is not signalled. *)
Theorem write_idle_spec (w : World) (data : bytes) (res : sys nat) :
  _queue (tr w) = None → _closing (tr w) = false → _eof (tr w) = false →
  let w' := run (write data res) w in
  (transient res = true → (wrote res ≤ length data)%nat →
     result (write data res) w = Ok tt
     ∧ delivered (_out_fd (tr w)) (since (log w) w') = take (wrote res) data
     ∧ pending w' = drop (wrote res) data
     ∧ (is_Some (_queue (tr w')) ↔ (wrote res < length data)%nat)
     ∧ count is_pause_writing (since (log w) w')
       = (if bool_decide (wrote res < length data)%nat then 1 else 0)%nat
     ∧ ((wrote res < length data)%nat → _out_fd (tr w) ∈ writers (loop w'))
     ∧ (wrote res = length data → loop w' = loop w ∧ tr w' = tr w))
  ∧ (∀ e, res = Errno e → is_BlockingIOError e = false →
     write data res w
     = abort (Some (OSError e))
         {| tr := tr w; loop := loop w;
            log := log w ++ [SysWrite (_out_fd (tr w)) data res];
            os_kill := os_kill w |}
     ∧ _queue (tr w') = None
     ∧ count is_pause_writing (since (log w) w') = 0%nat
     ∧ delivered (_out_fd (tr w)) (since (log w) w') = []).
Proof.
  intros Hq Hcl Heof w'. split.
  - intros Hr Hn. pose proof (write_idle_eq w data res Hq Hcl Heof Hr) as Heq.
    assert (Hw' : w' = (write data res w).2) by done.
    assert (Hres : result (write data res) w = Ok tt) by (unfold result; by rewrite Heq).
    rewrite Heq in Hw'. cbn [snd] in Hw'. clear Heq.
    case_bool_decide as Hne.
    + assert (Hlt : (wrote res < length data)%nat) by lia.
      rewrite bool_decide_eq_true_2 by done.
      assert (Hsince : since (log w) w'
                       = [SysWrite (_out_fd (tr w)) data res;
                          LoopAddWriter (_out_fd (tr w)); ProtoPauseWriting])
        by (apply since_app; by rewrite Hw').
      rewrite Hsince.
      split; [done|]. split.
      { unfold delivered. cbn [mbind list_bind].
        rewrite written_write by done. cbn. by rewrite !app_nil_r. }
      split; [rewrite Hw'; unfold pending; cbn; by rewrite app_nil_r|].
      split; [rewrite Hw'; cbn; split; [done|by eexists]|].
      split; [done|]. split.
      { intros _. rewrite Hw'. cbn. apply elem_of_union_l. by apply elem_of_singleton. }
      intros ?. lia.
    + assert (Heqn : wrote res = length data)
        by (destruct (decide (wrote res = length data)); done).
      rewrite bool_decide_eq_false_2 by lia.
      assert (Hsince : since (log w) w' = [SysWrite (_out_fd (tr w)) data res])
        by (apply since_app; by rewrite Hw').
      rewrite Hsince.
      split; [done|]. split.
      { unfold delivered. cbn [mbind list_bind].
        rewrite written_write by done. by rewrite app_nil_r. }
      split; [rewrite Hw'; unfold pending; cbn; rewrite Hq, Heqn; by rewrite drop_all|].
      split; [rewrite Hw'; cbn; rewrite Hq; split; [by intros [? ?]|lia]|].
      split; [done|]. split; [lia|].
      intros _. by rewrite Hw'.
  - intros e -> He.
    assert (Heq : write data (Errno e) w
                  = abort (Some (OSError e))
                      {| tr := tr w; loop := loop w;
                         log := log w ++ [SysWrite (_out_fd (tr w)) data (Errno e)];
                         os_kill := os_kill w |}).
    { unfold write, mbind, M_bind, bind, self, assert, emit, ret.
      rewrite Hcl, Heof, Hq. cbn. by rewrite He. }
    split; [done|].
    match type of Heq with _ = abort _ ?x => set (w0 := x) in * end.
    assert (Hw' : w' = run (abort (Some (OSError e))) w0)
      by (unfold w', run; by rewrite Heq).
    destruct (abort_run (Some (OSError e)) w0) as (? & _ & _ & _ & _ & Hbase).
    destruct (abort_releases (Some (OSError e)) w0) as (hook & Hlog & Hrel).
    rewrite <- Hw' in Hlog, Hbase.
    unfold base_fields in Hbase. injection Hbase as _ Hqueue _ _ _ _ _ _ _.
    assert (Hsince : since (log w) w'
                     = [SysWrite (_out_fd (tr w)) data (Errno e)] ++ stop_reading_log (tr w)
                         ++ drop_queue_log (tr w)
                         ++ [LoopCallSoon (connection_lost (Some (OSError e)))] ++ hook).
    { apply since_app. rewrite Hlog. subst w0. cbn. by rewrite <- !app_assoc. }
    assert (Hdrop : drop_queue_log (tr w) = []) by (unfold drop_queue_log; by rewrite Hq).
    split_and!.
    + by rewrite Hqueue.
    + rewrite Hsince, Hdrop, !count_app.
      rewrite (count_releases _ hook Hrel) by (by intros []).
      unfold stop_reading_log. by destruct (_is_reading (tr w)).
    + rewrite Hsince, Hdrop. unfold delivered. rewrite !bind_app.
      fold (delivered (_out_fd (tr w)) hook). rewrite delivered_releases by done.
      unfold stop_reading_log. by destruct (_is_reading (tr w)).
Qed.

Lemma write_idle_spec_witness :
  pending (run (write [x61; x62; x63] (Done 1%nat)) stdio_idle) = [x62; x63].
Proof.
  refine (proj1 (proj2 (proj2 (proj1
    (write_idle_spec stdio_idle [x61; x62; x63] (Done 1%nat) eq_refl eq_refl eq_refl)
    eq_refl _)))).
  vm_compute. lia.
Defined.

(** One honest [write] or write-readiness event: the bytes it puts on
    [_out_fd] and the bytes it leaves queued are the bytes that were
    queued and the bytes it was handed. *)
Lemma honest_write_step a w :
  _closing (tr w) = false → _eof (tr w) = false →
  honest_write a w = true →
  let w' := run (step a) w in
  ∃ evs, log w' = log w ++ evs
         ∧ delivered (_out_fd (tr w)) evs ++ pending w' = pending w ++ offered [a]
         ∧ _closing (tr w') = false ∧ _eof (tr w') = false
         ∧ _out_fd (tr w') = _out_fd (tr w).
Proof.
  intros Hcl Heof Hok w'. subst w'.
  destruct a as [data res| | | | | | | |fd res| | |]; try discriminate Hok;
    cbn [step honest_write] in *; unfold offered; cbn [mbind list_bind]; rewrite ?app_nil_r.
  - (* write *)
    destruct (_queue (tr w)) as [q|] eqn:Hq.
    + destruct (write_queued data res w q Hq Hcl Heof) as (q' & Hw & Hcat).
      unfold run. rewrite Hw. exists []. unfold pending. cbn. rewrite Hq, Hcat, app_nil_r.
      split_and!; try done; destruct w as [t ? ? ?]; by destruct t.
    + apply andb_prop in Hok as [Hr Hn]. apply Nat.leb_le in Hn.
      unfold run. rewrite (write_idle_eq w data res Hq Hcl Heof Hr).
      unfold pending at 2. rewrite Hq. cbn [snd app].
      case_bool_decide as Hne.
      * eexists. split; [reflexivity|]. unfold delivered, pending. cbn [mbind list_bind].
        rewrite written_write by done. cbn. rewrite !app_nil_r, take_drop.
        split_and!; try done; destruct w as [t ? ? ?]; by destruct t.
      * assert (Heqn : wrote res = length data)
          by (destruct (decide (wrote res = length data)); done).
        eexists. split; [reflexivity|]. unfold delivered, pending. cbn [mbind list_bind].
        rewrite written_write by done. cbn. rewrite Hq, !app_nil_r, Heqn.
        by rewrite take_ge.
  - (* write-readiness *)
    unfold run, when_registered.
    destruct (_queue (tr w)) as [q|] eqn:Hq; case_bool_decide as Hreg.
    + apply andb_prop in Hok as [Hr Hn]. apply Nat.leb_le in Hn.
      destruct (pop_written_concat q (wrote res) Hn) as (q' & Hpop & Hcat).
      rewrite (_write_ready_transient_eq w q res Hq Hr).
      match goal with |- context [_write_ready_wrote _ _ ?x] => set (w0 := x) end.
      unfold pending at 2. rewrite Hq.
      destruct q' as [|b q'].
      * rewrite (_write_ready_wrote_drained w0 q (wrote res) Hpop Hq).
        rewrite after_drain_open by done.
        match goal with |- context [if ?b then _ else _] =>
          assert (b = false) as -> by done end.
        unfold ret. cbn [snd]. unfold drop_queue_log. subst w0. cbn. rewrite Hq.
        eexists. split; [rewrite <- !app_assoc; reflexivity|].
        unfold delivered, pending. cbn [app mbind list_bind tr _queue set_queue].
        rewrite written_writev by done. cbn [mbind list_bind].
        rewrite !app_nil_r.
        assert (Hlen : length (drop (wrote res) (concat q)) = 0%nat) by by rewrite <- Hcat.
        rewrite length_drop in Hlen. rewrite take_ge by lia.
        split_and!; try done; destruct w as [t ? ? ?]; by destruct t.
      * unfold _write_ready_wrote. rewrite Hpop. unfold_m. subst w0. cbn [snd].
        eexists. split; [reflexivity|].
        unfold delivered, pending. cbn [mbind list_bind tr _queue set_queue].
        rewrite written_writev by done. rewrite Hcat, !app_nil_r, take_drop.
        split_and!; try done; destruct w as [t ? ? ?]; by destruct t.
    + exists []. by rewrite !app_nil_r.
    + exists []. rewrite !app_nil_r.
      unfold _write_ready, mbind, M_bind, bind, self, raise. by rewrite Hq.
    + exists []. by rewrite !app_nil_r.
Qed.

Lemma honest_writes_run l : ∀ w,
  _closing (tr w) = false → _eof (tr w) = false →
  honest_writes l w = true →
  ∃ evs, log (steps l w) = log w ++ evs
         ∧ delivered (_out_fd (tr w)) evs ++ pending (steps l w)
           = pending w ++ offered l.
Proof.
  induction l as [|a l IH]; intros w Hcl Heof Hok.
  - exists []. unfold offered. cbn. by rewrite !app_nil_r.
  - cbn [honest_writes] in Hok. apply andb_prop in Hok as [Ha Hl].
    destruct (honest_write_step a w Hcl Heof Ha) as (evs1 & Hlog1 & Hcons1 & Hcl1 & Heof1 & Hfd1).
    destruct (IH _ Hcl1 Heof1 Hl) as (evs2 & Hlog2 & Hcons2).
    cbn [steps]. exists (evs1 ++ evs2). split.
    + by rewrite Hlog2, Hlog1, <- app_assoc.
    + rewrite Hfd1 in Hcons2. unfold delivered in *. rewrite bind_app.
      rewrite <- app_assoc, Hcons2, app_assoc, Hcons1.
      unfold offered. cbn [mbind list_bind]. rewrite app_nil_r.
      by rewrite <- app_assoc.
Qed.

(** X2: start from a transport that is neither closing nor past
    [write_eof], with or without a write queue, and let [write] calls and
    write-readiness events follow one another in any order, [os.write]
    and [os.writev] taking each time as many of the bytes they are given
    as they like, or none.  Then the bytes put on [_out_fd] followed by
    the bytes still queued are the bytes that were queued at the start
    followed by the bytes handed to [write], in order: no byte is lost,
    written twice or out of order. *)
Theorem writes_conserved (l : list Action) (w : World) :
  _closing (tr w) = false → _eof (tr w) = false →
  honest_writes l w = true →
  delivered (_out_fd (tr w)) (since (log w) (steps l w)) ++ pending (steps l w)
  = pending w ++ offered l.
Proof.
  intros Hcl Heof Hok.
  destruct (honest_writes_run l w Hcl Heof Hok) as (evs & Hlog & Hcons).
  by rewrite (since_app _ _ _ Hlog).
Qed.

Lemma writes_conserved_witness :
  let l := [Write [x61; x62; x63] (Done 1%nat); Write [x64] (Done 0%nat);
            Writable 1 (Done 2%nat); Write [x65] (Errno EAGAIN); Writable 1 (Done 2%nat)] in
  delivered 1 (since (log stdio_idle) (steps l stdio_idle)) ++ pending (steps l stdio_idle)
  = [x61; x62; x63; x64; x65].
Proof.
  exact (writes_conserved
           [Write [x61; x62; x63] (Done 1%nat); Write [x64] (Done 0%nat);
            Writable 1 (Done 2%nat); Write [x65] (Errno EAGAIN); Writable 1 (Done 2%nat)]
           stdio_idle eq_refl eq_refl eq_refl).
Defined.

Lemma length_concat_sum (q : list bytes) : sum_list (length <$> q) = length (concat q).
Proof.
  induction q as [|b q IH]; [done|]. cbn. rewrite length_app. by rewrite <- IH.
Qed.

(** X3: [get_write_buffer_size] answers the number of bytes queued and
    changes nothing; after any run of [write] calls and write-readiness
    events, as in X2, that is the number of bytes that were queued or
    handed to [write], less the bytes put on [_out_fd] -- whether or not a
    [write] joined the queue into one block. *)
Theorem write_buffer_size_spec (l : list Action) (w : World) :
  get_write_buffer_size w = (Ok (length (pending w)), w)
  ∧ (_closing (tr w) = false → _eof (tr w) = false → honest_writes l w = true →
     result get_write_buffer_size (steps l w)
     = Ok (length (pending w) + length (offered l)
           - length (delivered (_out_fd (tr w)) (since (log w) (steps l w))))%nat).
Proof.
  assert (Hsize : ∀ w, get_write_buffer_size w = (Ok (length (pending w)), w)).
  { clear. intros w. unfold get_write_buffer_size, pending, mbind, M_bind, bind, self, ret.
    destruct (_queue (tr w)); [by rewrite length_concat_sum|done]. }
  split; [apply Hsize|].
  intros Hcl Heof Hok. unfold result. rewrite Hsize. cbn [fst]. f_equal.
  destruct (honest_writes_run l w Hcl Heof Hok) as (evs & Hlog & Hcons).
  rewrite (since_app _ _ _ Hlog).
  apply (f_equal length) in Hcons. rewrite !length_app in Hcons. lia.
Qed.

Lemma write_buffer_size_spec_witness :
  result get_write_buffer_size
    (steps [Write [x61; x62; x63] (Done 1%nat); Write [x64] (Done 0%nat)] stdio_idle)
  = Ok 3%nat.
Proof.
  exact (proj2 (write_buffer_size_spec
                  [Write [x61; x62; x63] (Done 1%nat); Write [x64] (Done 0%nat)] stdio_idle)
           eq_refl eq_refl eq_refl).
Defined.

(** ** Further properties: half-close and release of resources *)

(** X4: [can_write_eof] changes nothing and tells whether
    [_write_eof_now] can be called: it answers true exactly when
    [_write_eof_now] succeeds, and where it answers false
    [_write_eof_now] raises and changes nothing -- [RuntimeError] on a
    [StdioTransport], a failed assertion on a [SubprocessTransport] whose
    child has no stdin pipe, as over a pty. *)
Theorem can_write_eof_agrees (w : World) :
  run can_write_eof w = w
  ∧ (result can_write_eof w = Ok true ↔ ∃ w', _write_eof_now w = (Ok tt, w'))
  ∧ (result can_write_eof w = Ok false →
     (cls (tr w) = StdioTransport ∧ _write_eof_now w = (Raise RuntimeError, w))
     ∨ (cls (tr w) = SubprocessTransport ∧ _write_eof_now w = (Raise AssertionError, w)))
  ∧ (∀ master child stdin_fd stdout_fd pidfd k,
       result can_write_eof
         (run (SubprocessTransport__init__ pidfd)
            (world (new_subprocess_transport (Some master) child stdin_fd stdout_fd)
               empty_loop k)) = Ok false
       ∧ result can_write_eof
           (run (SubprocessTransport__init__ pidfd)
              (world (new_subprocess_transport None child stdin_fd stdout_fd)
                 empty_loop k)) = Ok true).
Proof.
  split_and!.
  - destruct w as [t l lg k]. destruct t as [c q i o cl rd ef eio pty pr rc].
    by destruct c, pr.
  - destruct w as [t l lg k]. destruct t as [c q i o cl rd ef eio pty pr rc].
    destruct c; cbn; try (split; [intros [=]|intros [? [=]]]; fail).
    destruct pr as [[p [[fn cd]|]]|]; cbn; try (split; [intros [=]|intros [? [=]]]; fail).
    split; [intros _|done]. unfold _write_eof_now, file_close. unfold_m. cbn.
    destruct cd; cbn; by eexists.
  - destruct w as [t l lg k]. destruct t as [c q i o cl rd ef eio pty pr rc].
    destruct c; cbn; try (intros [=]; fail).
    + destruct pr as [[p [[fn cd]|]]|]; cbn; intros [=]. by right.
    + intros _. by left.
  - intros master child stdin_fd stdout_fd pidfd k.
    unfold SubprocessTransport__init__, __init__, watch_exit, watcher_add_child_handler,
      new_subprocess_transport, new_transport, empty_loop, world, can_write_eof, resume_reading.
    unfold_m. cbn.
    destruct (master =? -1), (stdout_fd =? -1), pidfd; by cbn.
Qed.

Lemma _close_log w : log (run _close w) = log w ++ release_log (tr w) (os_kill w).
Proof.
  destruct w as [t l lg k]. destruct t as [c q i o cl rd ef eio pty pr rc].
  unfold _close, release_log, kill_result; unfold_m; cbn.
  destruct c; cbn; rewrite ?app_nil_r; try done.
  destruct pty as [fd|], pr as [[p [[fn []]|]]|], rc as [r|]; cbn; rewrite ?app_nil_r; try done;
    destruct (k p SIGTERM) as [e|] eqn:Hk; cbn;
    try (destruct (is_ProcessLookupError e); cbn; [|destruct (is_PermissionError e); cbn]);
    by rewrite <- ?app_assoc.
Qed.

(** After [_close] a [SubprocessTransport] has no pty master and its
    child no stdin; the rest is as it was. *)
Lemma _close_released w :
  cls (tr w) = SubprocessTransport →
  let w' := run _close w in
  _pty_fd (tr w') = None
  ∧ (∀ p, _process (tr w) = Some p → _process (tr w') = Some {| pid := pid p; stdin := None |})
  ∧ (_process (tr w) = None → _process (tr w') = None)
  ∧ cls (tr w') = SubprocessTransport
  ∧ _returncode (tr w') = _returncode (tr w)
  ∧ os_kill w' = os_kill w.
Proof.
  destruct w as [t l lg k]. destruct t as [c q i o cl rd ef eio pty pr rc].
  cbn. intros ->. unfold _close; unfold_m; cbn.
  destruct pty as [fd|], pr as [[p [[fn []]|]]|], rc as [r|]; cbn;
    try (destruct (k p SIGTERM) as [e|] eqn:Hk; cbn;
         try (destruct (is_ProcessLookupError e); cbn; [|destruct (is_PermissionError e); cbn]));
    (split_and!; [done|by intros ? [= <-]|done..]).
Qed.

Lemma can_write_eof_agrees_witness :
  (cls (tr stdio_idle) = StdioTransport
   ∧ _write_eof_now stdio_idle = (Raise RuntimeError, stdio_idle))
  ∨ (cls (tr stdio_idle) = SubprocessTransport
     ∧ _write_eof_now stdio_idle = (Raise AssertionError, stdio_idle)).
Proof.
  apply (proj1 (proj2 (proj2 (can_write_eof_agrees stdio_idle)))). reflexivity.
Defined.

Lemma _close_result w :
  result _close w
  = match cls (tr w), _process (tr w), _returncode (tr w) with
    | SubprocessTransport, Some p, None =>
        match os_kill w (pid p) SIGTERM with
        | Some e =>
            if is_ProcessLookupError e || is_PermissionError e then Ok tt
            else Raise (OSError e)
        | None => Ok tt
        end
    | _, _, _ => Ok tt
    end.
Proof.
  destruct w as [t l lg k]. destruct t as [c q i o cl rd ef eio pty pr rc].
  unfold _close; unfold_m; cbn.
  destruct c; cbn; try done.
  destruct pty as [fd|], pr as [[p [[fn []]|]]|], rc as [r|]; cbn; try done;
    destruct (k p SIGTERM) as [e|] eqn:Hk; cbn; try done;
    destruct (is_ProcessLookupError e); cbn; try done;
    by destruct (is_PermissionError e).
Qed.

(** X5: [_close] of a [SubprocessTransport] closes the pty master if
    there is one and the child's stdin if it is there and still open, and
    sends [SIGTERM] unless the exit status is known; it forgets what it
    closed, so that a second [_close] -- [__del__] calls it again --
    closes nothing, and a stdin already closed by [_write_eof_now] is not
    closed again.  It returns normally when [os.kill] succeeds or fails
    with no-such-process or a permission error, and raises on any other
    error of [os.kill].  On the other classes [_close] does nothing. *)
Theorem _close_releases_once (w : World) :
  (cls (tr w) ≠ SubprocessTransport → _close w = (Ok tt, w))
  ∧ (cls (tr w) = SubprocessTransport →
     let w1 := run _close w in
     since (log w) w1 = release_log (tr w) (os_kill w)
     ∧ count is_close (since (log w1) (run _close w1)) = 0%nat
     ∧ (_returncode (tr w) ≠ None → count is_kill (since (log w) w1) = 0%nat)
     ∧ (∀ p f, _process (tr w) = Some p → stdin p = Some f →
          filter (λ e, is_close e = true)
            (since (log (half_closed p f w)) (run _close (half_closed p f w)))
          = match _pty_fd (tr w) with Some fd => [SysClose fd] | None => [] end)
     ∧ (∀ p, _process (tr w) = Some p →
          match os_kill w (pid p) SIGTERM with
          | Some e => is_ProcessLookupError e || is_PermissionError e
          | None => true
          end = true →
          result _close w = Ok tt)
     ∧ (∀ p e, _process (tr w) = Some p → _returncode (tr w) = None →
          os_kill w (pid p) SIGTERM = Some e →
          is_ProcessLookupError e || is_PermissionError e = false →
          result _close w = Raise (OSError e))).
Proof.
  split.
  { destruct w as [t l lg k]. destruct t as [c q i o cl rd ef eio pty pr rc].
    by destruct c. }
  intros Hcls w1.
  assert (Hsince : ∀ w0, since (log w0) (run _close w0) = release_log (tr w0) (os_kill w0)).
  { intros w0. apply since_app, _close_log. }
  destruct (_close_released w Hcls) as (Hpty & Hproc & Hnoproc & Hcls1 & Hrc1 & Hk1).
  fold w1 in Hpty, Hproc, Hnoproc, Hcls1, Hrc1, Hk1.
  split_and!.
  - apply Hsince.
  - rewrite Hsince. unfold release_log. rewrite Hcls1, Hpty.
    destruct (_process (tr w)) as [p|] eqn:Hp.
    + rewrite (Hproc p eq_refl). cbn. by destruct (_returncode (tr w1)).
    + by rewrite (Hnoproc eq_refl).
  - intros Hrc. rewrite Hsince. unfold release_log. rewrite Hcls.
    destruct (_returncode (tr w)) as [r|]; [|done].
    rewrite count_app.
    destruct (_pty_fd (tr w)), (_process (tr w)) as [[p [[fn []]|]]|]; done.
  - intros p f Hp Hf. rewrite Hsince. unfold release_log, half_closed. cbn.
    rewrite Hcls. rewrite filter_app.
    destruct (_returncode (tr w)), (_pty_fd (tr w)); done.
  - intros p Hp Hk. rewrite _close_result, Hcls, Hp.
    destruct (_returncode (tr w)); [done|].
    destruct (os_kill w (pid p) SIGTERM) as [e|]; [by rewrite Hk|done].
  - intros p e Hp Hrc Hk He. rewrite _close_result, Hcls, Hp, Hrc, Hk. by rewrite He.
Qed.

Lemma _close_releases_once_witness :
  since (log pty_child) (run _close pty_child)
  = [SysClose 6; SysKill 100 SIGTERM (Done tt)].
Proof.
  exact (proj1 (proj2 (_close_releases_once pty_child) eq_refl)).
Defined.

(** ** Further properties: the spooler over its life *)

Lemma spooler_wf_fd dup w :
  spooler_wf dup w →
  Spooler._fd (Spooler.this w) = dup ∨ Spooler._fd (Spooler.this w) = -1.
Proof. intros (_ & _ & [[? _]|[? _]]); auto. Qed.

Lemma spooler_effect_refl dup w : spooler_wf dup w → spooler_effect dup w w [].
Proof.
  intros Hwf. split; [done|]. exists []. unfold spooler_trace.
  destruct Hwf as (Hdup & _).
  rewrite bool_decide_eq_false_2 by (intros [? ?]; congruence).
  cbn. by rewrite !app_nil_r.
Qed.

Lemma spooler_effect_trans dup w w1 w2 outs1 outs2 :
  spooler_wf dup w →
  spooler_effect dup w w1 outs1 → spooler_effect dup w1 w2 outs2 →
  spooler_effect dup w w2 (outs1 ++ outs2).
Proof.
  intros Hwf (Hwf1 & reads1 & Hlog1 & Hbytes1 & Hclosed1)
    (Hwf2 & reads2 & Hlog2 & Hbytes2 & Hclosed2).
  split; [done|]. exists (reads1 ++ reads2).
  pose proof Hwf as (Hdup & _).
  split_and!.
  - rewrite Hlog2, Hlog1, <- app_assoc. f_equal. unfold spooler_trace.
    rewrite fmap_app, <- !app_assoc.
    destruct (spooler_wf_fd dup w Hwf) as [Hfd|Hfd];
      destruct (spooler_wf_fd dup w1 Hwf1) as [Hfd1|Hfd1];
      destruct (spooler_wf_fd dup w2 Hwf2) as [Hfd2|Hfd2];
      try (destruct (Hclosed1 Hfd) as [-> ?]); try (destruct (Hclosed2 Hfd1) as [-> ?]);
      rewrite ?Hfd, ?Hfd1, ?Hfd2; repeat case_bool_decide;
      try (exfalso; intuition congruence); cbn; rewrite ?app_nil_r; done.
  - unfold taken in *. rewrite !bind_app, <- app_assoc, Hbytes2, app_assoc, Hbytes1.
    by rewrite <- app_assoc.
  - intros Hfd. destruct (Hclosed1 Hfd) as [-> Hfd1]. destruct (Hclosed2 Hfd1) as [-> Hfd2].
    done.
Qed.

Lemma spooler_close_effect dup w :
  spooler_wf dup w → spooler_effect dup w (Spooler.close w) [].
Proof.
  intros Hwf. pose proof Hwf as (Hdup & Hneg & Hcase).
  unfold Spooler.close.
  destruct (Spooler._fd (Spooler.this w) =? -1) eqn:Hfd; cbn [negb];
    [by apply spooler_effect_refl|].
  apply Z.eqb_neq in Hfd. destruct Hcase as [[Hopen Hin]|[? _]]; [|done].
  split.
  - split_and!; [done| |right; split; [done|]]; cbn.
    + rewrite elem_of_difference. by intros [? _].
    + rewrite elem_of_difference, elem_of_singleton, Hopen. by intros [_ ?].
  - exists []. unfold spooler_trace. cbn.
    rewrite bool_decide_eq_true_2 by done. rewrite Hopen.
    split_and!; [done|by rewrite !app_nil_r|by intros ?].
Qed.

Lemma spooler_read_effect dup res w :
  spooler_wf dup w → Spooler._fd (Spooler.this w) = dup →
  spooler_effect dup w (Spooler._read_ready res w) [].
Proof.
  intros Hwf Hopen. pose proof Hwf as (Hdup & Hneg & Hcase).
  destruct Hcase as [[_ Hin]|[? _]]; [|congruence].
  assert (Hkeep : ∀ c,
            spooler_effect dup w
              {| Spooler.this := {| Spooler._fd := dup;
                                    Spooler._contents := Spooler._contents (Spooler.this w) ++ c |};
                 Spooler.readers := Spooler.readers w;
                 Spooler.log := Spooler.log w ++ [Spooler.SysRead dup res] |}
              [] ↔ concat c = read_bytes res).
  { intros c. split.
    - intros (_ & reads & Hlog & Hbytes & _). cbn in Hlog, Hbytes.
      unfold spooler_trace in Hlog. cbn in Hlog.
      rewrite bool_decide_eq_false_2 in Hlog by (intros [? ?]; congruence).
      rewrite app_nil_r in Hlog. apply app_inv_head in Hlog.
      destruct reads as [|r [|? ?]]; try discriminate Hlog. injection Hlog as <-.
      rewrite concat_app in Hbytes. apply app_inv_head in Hbytes.
      cbn in Hbytes. by rewrite app_nil_r in Hbytes.
    - intros Hc. split; [by split_and!; [..|left]|]. exists [res].
      unfold spooler_trace. cbn.
      rewrite bool_decide_eq_false_2 by (intros [? ?]; congruence).
      split_and!; [done| |by rewrite Hopen].
      rewrite concat_app, Hc. by rewrite app_nil_r. }
  assert (Hclose : read_bytes res = [] →
            spooler_effect dup w
              {| Spooler.this := {| Spooler._fd := -1;
                                    Spooler._contents := Spooler._contents (Spooler.this w) |};
                 Spooler.readers := Spooler.readers w ∖ {[dup]};
                 Spooler.log := (Spooler.log w ++ [Spooler.SysRead dup res])
                                  ++ [Spooler.LoopRemoveReader dup; Spooler.SysClose dup] |}
              []).
  { intros Hnil. split.
    - split_and!; [done| |right; split; [done|]]; cbn.
      + rewrite elem_of_difference. by intros [? _].
      + rewrite elem_of_difference, elem_of_singleton. by intros [_ ?].
    - exists [res]. unfold spooler_trace. cbn.
      rewrite bool_decide_eq_true_2 by done.
      split_and!; [by rewrite <- app_assoc|by rewrite Hnil, !app_nil_r|by rewrite Hopen]. }
  unfold Spooler._read_ready, Spooler.emit, Spooler.close, Spooler.append. cbn.
  rewrite Hopen.
  destruct res as [[|b data]|e]; cbn.
  - apply Z.eqb_neq in Hdup as ->. cbn. by apply Hclose.
  - apply Hkeep. cbn. by rewrite app_nil_r.
  - destruct (is_BlockingIOError e); cbn.
    + assert (Hw : {| Spooler.this := Spooler.this w; Spooler.readers := Spooler.readers w;
                      Spooler.log := Spooler.log w ++ [Spooler.SysRead dup (Errno e)] |}
                   = {| Spooler.this := {| Spooler._fd := dup;
                          Spooler._contents := Spooler._contents (Spooler.this w) ++ [] |};
                        Spooler.readers := Spooler.readers w;
                        Spooler.log := Spooler.log w ++ [Spooler.SysRead dup (Errno e)] |}).
      { rewrite app_nil_r. destruct w as [[? ?] ? ?]. cbn in *. by subst. }
      rewrite Hw. by apply Hkeep.
    + apply Z.eqb_neq in Hdup as ->. cbn. by apply Hclose.
Qed.

Lemma spooler_drain_effect dup avail : ∀ w,
  spooler_wf dup w → spooler_effect dup w (Spooler.drain avail w) [].
Proof.
  induction avail as [|res avail IH]; intros w Hwf; cbn [Spooler.drain].
  - by apply spooler_effect_refl.
  - destruct (Spooler._fd (Spooler.this w) =? -1) eqn:Hfd.
    + by apply spooler_effect_refl.
    + apply Z.eqb_neq in Hfd.
      destruct (spooler_wf_fd dup w Hwf) as [Hopen|?]; [|done].
      pose proof (spooler_read_effect dup res w Hwf Hopen) as Hread.
      apply (spooler_effect_trans dup w _ _ [] [] Hwf Hread).
      apply IH. by destruct Hread.
Qed.

Lemma spooler_step_effect dup a w :
  spooler_wf dup w →
  spooler_effect dup w (spooler_step a w).2
    (match (spooler_step a w).1 with Some out => [out] | None => [] end).
Proof.
  intros Hwf. pose proof Hwf as (Hdup & Hneg & Hcase).
  destruct a as [res|reset avail|]; cbn [spooler_step fst snd].
  - case_bool_decide as Hreg; [|by apply spooler_effect_refl].
    destruct Hcase as [[Hopen _]|[Hfd _]]; [by apply spooler_read_effect|].
    by rewrite Hfd in Hreg.
  - pose proof (spooler_drain_effect dup avail w Hwf)
      as (Hwf1 & reads & Hlog & Hbytes & Hclosed).
    unfold Spooler.get. unfold taken in *. cbn in Hbytes.
    destruct reset; cbn [fst snd]; (split; [|exists reads]).
    + destruct Hwf1 as (? & ? & ?). by split_and!.
    + unfold spooler_trace in *. cbn. split_and!; [done| |done].
      by rewrite !app_nil_r.
    + done.
    + unfold spooler_trace in *. cbn. by split_and!.
  - by apply spooler_close_effect.
Qed.

Lemma spooler_run_effect dup l : ∀ w,
  spooler_wf dup w →
  spooler_effect dup w (spooler_run l w).2 (spooler_run l w).1.
Proof.
  induction l as [|a l IH]; intros w Hwf; cbn [spooler_run fst snd].
  - by apply spooler_effect_refl.
  - pose proof (spooler_step_effect dup a w Hwf) as Hstep.
    pose proof (IH _ (proj1 Hstep)) as Hrest.
    pose proof (spooler_effect_trans dup w _ _ _ _ Hwf Hstep Hrest) as Hall.
    by destruct (spooler_step a w).1.
Qed.

Lemma spooler_init_wf dup readers :
  dup ≠ -1 → (-1) ∉ readers → spooler_wf dup (Spooler.__init__ dup readers).
Proof.
  intros Hdup Hneg. split_and!; [done| |left; split; [done|]]; cbn.
  - rewrite elem_of_union, elem_of_singleton. intros [?|?]; [by apply Hdup|done].
  - apply elem_of_union_l. by apply elem_of_singleton.
Qed.

Lemma spooler_bytes_read_trace dup reads tail :
  spooler_bytes_read ((Spooler.SysRead dup <$> reads) ++ tail)
  = (reads ≫= read_bytes) ++ spooler_bytes_read tail.
Proof.
  unfold spooler_bytes_read. rewrite bind_app. f_equal.
  induction reads as [|r reads IH]; [done|].
  cbn [fmap list_fmap mbind list_bind]. by rewrite IH.
Qed.

(** X6. A spooler registers the copy of the descriptor, reads from that
    copy only, and releases it at most once: whatever the loop and the
    owner do with a spooler made on the descriptor [dup], its log is the
    registration of [dup], reads from [dup], and, exactly if the spooler
    ends closed, one removal of the reader followed by one close of
    [dup], with nothing after; it ends closed with [dup] unregistered or
    open with [dup] registered. *)
Theorem spooler_log_shape (dup : Z) (readers : gset Z) (l : list SpoolerAction) :
  dup ≠ -1 → (-1) ∉ readers →
  let w' := (spooler_run l (Spooler.__init__ dup readers)).2 in
  (∃ reads,
     Spooler.log w'
     = Spooler.LoopAddReader dup :: (Spooler.SysRead dup <$> reads)
       ++ (if bool_decide (Spooler._fd (Spooler.this w') = -1)
           then [Spooler.LoopRemoveReader dup; Spooler.SysClose dup] else []))
  ∧ ((Spooler._fd (Spooler.this w') = dup ∧ dup ∈ Spooler.readers w')
     ∨ (Spooler._fd (Spooler.this w') = -1 ∧ dup ∉ Spooler.readers w')).
Proof.
  intros Hdup Hneg w'.
  pose proof (spooler_run_effect dup l _ (spooler_init_wf dup readers Hdup Hneg))
    as ((_ & _ & Hcase) & reads & Hlog & _ & _).
  fold w' in Hcase, Hlog. split; [|done]. exists reads.
  rewrite Hlog. unfold spooler_trace. cbn. do 2 f_equal.
  repeat case_bool_decide; try done; exfalso; intuition congruence.
Qed.

Lemma spooler_log_shape_witness :
  let w' := (spooler_run [SpReadable (Done [x00]); SpGet true [Done []]; SpClose]
               (Spooler.__init__ 8 ∅)).2 in
  (∃ reads,
     Spooler.log w'
     = Spooler.LoopAddReader 8 :: (Spooler.SysRead 8 <$> reads)
       ++ (if bool_decide (Spooler._fd (Spooler.this w') = -1)
           then [Spooler.LoopRemoveReader 8; Spooler.SysClose 8] else []))
  ∧ ((Spooler._fd (Spooler.this w') = 8 ∧ 8 ∈ Spooler.readers w')
     ∨ (Spooler._fd (Spooler.this w') = -1 ∧ 8 ∉ Spooler.readers w')).
Proof.
  apply (spooler_log_shape 8 ∅ [SpReadable (Done [x00]); SpGet true [Done []]; SpClose]).
  - lia.
  - apply not_elem_of_empty.
Defined.

(** X7. A spooler neither loses nor repeats a byte: over any sequence of
    read callbacks, [get]s and [close]s on a spooler made on [dup], what
    the [get]s with [reset] answered, in order, followed by what is
    still buffered, is what the reads handed over, in order. *)
Theorem spooler_bytes_conserved (dup : Z) (readers : gset Z) (l : list SpoolerAction) :
  dup ≠ -1 → (-1) ∉ readers →
  let r := spooler_run l (Spooler.__init__ dup readers) in
  taken r.1 ++ concat (Spooler._contents (Spooler.this r.2))
  = spooler_bytes_read (Spooler.log r.2).
Proof.
  intros Hdup Hneg r.
  pose proof (spooler_run_effect dup l _ (spooler_init_wf dup readers Hdup Hneg))
    as (_ & reads & Hlog & Hbytes & _).
  fold r in Hlog, Hbytes. rewrite Hbytes, Hlog. unfold spooler_trace.
  change (Spooler.log (Spooler.__init__ dup readers)) with [Spooler.LoopAddReader dup].
  change (spooler_bytes_read ([Spooler.LoopAddReader dup] ++ ?l))
    with (spooler_bytes_read l).
  rewrite spooler_bytes_read_trace. cbn [Spooler.__init__ Spooler.this Spooler._contents concat app].
  by case_bool_decide; rewrite app_nil_r.
Qed.

Lemma spooler_bytes_conserved_witness :
  let r := spooler_run [SpReadable (Done [x01]); SpGet true [Done [x02]];
                        SpGet false [Done [x03]; Done []]]
             (Spooler.__init__ 8 ∅) in
  taken r.1 ++ concat (Spooler._contents (Spooler.this r.2))
  = spooler_bytes_read (Spooler.log r.2).
Proof.
  apply (spooler_bytes_conserved 8 ∅).
  - lia.
  - apply not_elem_of_empty.
Defined.

Lemma spooler_closed_step a w :
  Spooler._fd (Spooler.this w) = -1 → (-1) ∉ Spooler.readers w →
  let w' := (spooler_step a w).2 in
  Spooler._fd (Spooler.this w') = -1 ∧ Spooler.readers w' = Spooler.readers w
  ∧ Spooler.log w' = Spooler.log w
  ∧ (Spooler._contents (Spooler.this w') = Spooler._contents (Spooler.this w)
     ∨ ∃ avail, a = SpGet true avail).
Proof.
  intros Hfd Hneg. destruct a as [res|reset avail|]; cbn [spooler_step snd]; cbn zeta.
  - rewrite bool_decide_eq_false_2 by by rewrite Hfd. by split_and!; [..|left].
  - unfold Spooler.get.
    assert (Spooler.drain avail w = w) as ->
      by (destruct avail; cbn; [done|by rewrite Hfd]).
    destruct reset; cbn; (split_and!; [done..|]); [right; by eexists|by left].
  - unfold Spooler.close. rewrite Hfd. cbn. by split_and!; [..|left].
Qed.

(** X8. A closed spooler touches nothing: once [_fd] is [-1], no read
    callback, [get] or [close] reads, closes or unregisters anything, and
    every [get] answers from the buffer alone: the log and the readers
    stay as they are and the descriptor stays [-1]. *)
Theorem spooler_closed_inert (l : list SpoolerAction) (w : Spooler.World) :
  Spooler._fd (Spooler.this w) = -1 → (-1) ∉ Spooler.readers w →
  let w' := (spooler_run l w).2 in
  Spooler._fd (Spooler.this w') = -1
  ∧ Spooler.readers w' = Spooler.readers w
  ∧ Spooler.log w' = Spooler.log w.
Proof.
  revert w. induction l as [|a l IH]; intros w Hfd Hneg; [done|].
  cbn [spooler_run snd].
  destruct (spooler_closed_step a w Hfd Hneg) as (Hfd1 & Hrd1 & Hlog1 & _).
  destruct (IH (spooler_step a w).2 Hfd1) as (? & Hrd & Hlog); [by rewrite Hrd1|].
  cbn zeta. by rewrite Hrd, Hlog.
Qed.

Lemma spooler_closed_inert_witness :
  let w := Spooler.close (Spooler.__init__ 8 ∅) in
  let w' := (spooler_run [SpReadable (Done [x00]); SpGet true [Done [x01]]; SpClose] w).2 in
  Spooler._fd (Spooler.this w') = -1
  ∧ Spooler.readers w' = Spooler.readers w
  ∧ Spooler.log w' = Spooler.log w.
Proof.
  apply (spooler_closed_inert [SpReadable (Done [x00]); SpGet true [Done [x01]]; SpClose]
           (Spooler.close (Spooler.__init__ 8 ∅))).
  - reflexivity.
  - cbn. rewrite elem_of_difference, elem_of_union. intros [[Hin|Hin] _].
    + apply elem_of_singleton in Hin. lia.
    + by apply not_elem_of_empty in Hin.
Defined.


(** ** Further properties: the life cycle of a transport *)

#[local] Arguments count : simpl never.

Lemma count_nil p : count p [] = 0%nat.
Proof. done. Qed.

Lemma count_cons p e l :
  count p (e :: l) = ((if p e then 1 else 0) + count p l)%nat.
Proof.
  unfold count. rewrite filter_cons.
  destruct (p e); by destruct (decide _).
Qed.

Lemma count_deliver_call_soon cbs : count is_call_soon (deliver <$> cbs) = 0%nat.
Proof.
  induction cbs as [|[exc] cbs IH]; [done|].
  cbn [fmap list_fmap deliver]. by rewrite count_cons, IH.
Qed.

Lemma count_deliver_lost cbs : count is_connection_lost (deliver <$> cbs) = length cbs.
Proof.
  induction cbs as [|[exc] cbs IH]; [done|].
  cbn [fmap list_fmap deliver]. by rewrite count_cons, IH.
Qed.

Lemma count_releases_call_soon hook :
  Forall (λ e, is_release e = true) hook → count is_call_soon hook = 0%nat.
Proof. intros H. apply (count_releases _ _ H). by intros []. Qed.

Lemma count_releases_lost hook :
  Forall (λ e, is_release e = true) hook → count is_connection_lost hook = 0%nat.
Proof. intros H. apply (count_releases _ _ H). by intros []. Qed.

Lemma count_releases_pause hook :
  Forall (λ e, is_release e = true) hook → count is_pause_writing hook = 0%nat.
Proof. intros H. apply (count_releases _ _ H). by intros []. Qed.

Lemma count_releases_resume hook :
  Forall (λ e, is_release e = true) hook → count is_resume_writing hook = 0%nat.
Proof. intros H. apply (count_releases _ _ H). by intros []. Qed.

Lemma releases_closing hook :
  Forall (λ e, is_release e = true) hook → Forall (λ e, closing_event e = true) hook.
Proof. intros H. eapply Forall_impl; [exact H|]. by intros []. Qed.

(** Everything [abort] leaves behind, field by field. *)
Lemma abort_summary exc w :
  let w' := run (abort exc) w in
  ∃ hook,
    Forall (λ e, is_release e = true) hook
    ∧ log w' = log w ++ stop_reading_log (tr w) ++ drop_queue_log (tr w)
                 ++ [LoopCallSoon (connection_lost exc)] ++ hook
    ∧ loop w' = schedule (connection_lost exc)
                  (drop_queue_loop (tr w) (stop_reading_loop (tr w) (loop w)))
    ∧ _queue (tr w') = None ∧ _in_fd (tr w') = -1 ∧ _is_reading (tr w') = false
    ∧ _closing (tr w') = true ∧ _out_fd (tr w') = _out_fd (tr w).
Proof.
  intros w'. subst w'.
  destruct (abort_run exc w) as (hook & Hlog & _ & Hloop & _ & Hbase).
  destruct (abort_releases exc w) as (hook' & Hlog' & Hrel).
  rewrite Hlog in Hlog'. do 4 apply app_inv_head in Hlog'. subst hook'.
  exists hook. unfold base_fields in Hbase. cbn in Hbase.
  injection Hbase as _ Hq Hi Ho Hcl Hrd _ _ _.
  by split_and!.
Qed.

Lemma evolves_refl b w : accounts w → evolves b w w.
Proof.
  intros Hw. split; [done|]. exists []. rewrite app_nil_r, !count_nil.
  split_and!; [done|lia|done|by left|].
  intros Hcl. split_and!; [done|constructor|]. intros Hq. split; [done|]. intros _. constructor.
Qed.

(** An action that schedules and delivers nothing. *)
Lemma evolves_silent b w w' evs :
  accounts w' → log w' = log w ++ evs →
  count is_call_soon evs = 0%nat → count is_connection_lost evs = 0%nat →
  (_closing (tr w) = true →
   _closing (tr w') = true ∧ Forall (λ e, closing_event e = true) evs
   ∧ (_queue (tr w) = None →
      _queue (tr w') = None
      ∧ Forall (λ e, is_protocol e = true → is_connection_lost e = true) evs)) →
  evolves b w w'.
Proof.
  intros Hacc Hlog Hsoon Hlost Hcl. split; [done|]. exists evs. rewrite Hsoon.
  split_and!; [done|lia|done|by left|].
  intros H. destruct (Hcl H) as (? & ? & Hq). split_and!; [done..|].
  intros Hnone. destruct (Hq Hnone). by split.
Qed.

(** An action that ends in [abort], whether the consumer's or the
    transport's own. *)
Lemma evolves_abort b exc w w1 pre :
  writer_coherent w1 → flow_balanced w1 → losses_accounted w1 →
  log w1 = log w ++ pre →
  count is_call_soon pre = 0%nat → count is_connection_lost pre = 0%nat →
  (_closing (tr w) = true → Forall (λ e, closing_event e = true) pre) →
  (b = true ∨ _closing (tr w) = false ∨ _queue (tr w) ≠ None) →
  evolves b w (run (abort exc) w1).
Proof.
  intros Hwc Hflow Hacc Hlog Hsoon Hlost Hpre Hwhy.
  destruct (abort_summary exc w1)
    as (hook & Hrel & Hlog' & Hloop & Hq & Hi & Hrd & Hcl & Ho).
  set (w' := run (abort exc) w1) in *.
  unfold writer_coherent, flow_balanced, losses_accounted in *.
  assert (Hstop : ∀ p, (∀ fd, p (LoopRemoveReader fd) = false) →
                       count p (stop_reading_log (tr w1)) = 0%nat).
  { intros p Hp. unfold stop_reading_log. destruct (_is_reading (tr w1)); [|done].
    by rewrite count_cons, Hp. }
  split.
  - split_and!.
    + unfold writer_coherent. rewrite Hloop, Hq.
      unfold schedule, drop_queue_loop, stop_reading_loop. cbn.
      destruct (_queue (tr w1)), (_is_reading (tr w1)); cbn; rewrite ?Hwc;
        first [apply difference_diag_L|done].
    + intros _. by split.
    + unfold flow_balanced. rewrite Hlog', Hq, !count_app, !Hstop by done.
      rewrite (count_releases_pause hook), (count_releases_resume hook) by done.
      rewrite !count_cons, !count_nil. cbn.
      unfold drop_queue_log. destruct (_queue (tr w1));
        rewrite ?count_cons, ?count_nil; cbn; lia.
    + unfold losses_accounted. rewrite Hlog', Hloop, !count_app, !Hstop by done.
      rewrite (count_releases_call_soon hook), (count_releases_lost hook) by done.
      rewrite !count_cons, !count_nil. cbn. rewrite length_app. cbn.
      unfold drop_queue_log, drop_queue_loop, stop_reading_loop.
      destruct (_queue (tr w1)), (_is_reading (tr w1));
        rewrite ?count_cons, ?count_nil; cbn; lia.
  - exists (pre ++ stop_reading_log (tr w1) ++ drop_queue_log (tr w1)
              ++ [LoopCallSoon (connection_lost exc)] ++ hook).
    assert (Hone : count is_call_soon
                     (pre ++ stop_reading_log (tr w1) ++ drop_queue_log (tr w1)
                        ++ [LoopCallSoon (connection_lost exc)] ++ hook) = 1%nat).
    { rewrite !count_app, Hsoon, Hstop by done.
      rewrite (count_releases_call_soon hook) by done.
      rewrite !count_cons, !count_nil. cbn.
      unfold drop_queue_log. destruct (_queue (tr w1));
        rewrite ?count_cons, ?count_nil; cbn; lia. }
    rewrite Hone. split_and!.
    + rewrite Hlog', Hlog. by rewrite <- !app_assoc.
    + lia.
    + done.
    + left. rewrite !count_app, Hlost, Hstop by done.
      rewrite (count_releases_lost hook) by done.
      rewrite !count_cons, !count_nil. cbn.
      unfold drop_queue_log. destruct (_queue (tr w1));
        rewrite ?count_cons, ?count_nil; cbn; lia.
    + intros Hclw. split_and!; [done| |].
      * rewrite !Forall_app. split_and!; [by apply Hpre| | |by repeat constructor
                                         |by apply releases_closing].
        -- unfold stop_reading_log. destruct (_is_reading (tr w1)); by repeat constructor.
        -- unfold drop_queue_log. destruct (_queue (tr w1)); by repeat constructor.
      * intros Hqw. split; [done|]. intros ->.
        destruct Hwhy as [?|[?|?]]; congruence.
Qed.

(** Reduce the accounts of a world given field by field. *)
Ltac accounts_tac :=
  unfold accounts, writer_coherent, closing_coherent, flow_balanced,
    losses_accounted in *;
  cbn [tr loop log os_kill readers writers child_handlers ready
       cls _queue _in_fd _out_fd _closing _is_reading _eof _eio_is_eof
       _pty_fd _process _returncode
       set_queue set_in_fd set_out_fd set_closing set_is_reading set_eof
       set_pty_fd set_process set_returncode schedule snd fst] in *;
  rewrite ?count_app, ?count_cons, ?count_nil, ?length_app;
  cbn [is_call_soon is_connection_lost is_pause_writing is_resume_writing
       length Nat.add].

Ltac world w :=
  let c := fresh "c" in let q := fresh "q" in let i := fresh "i" in
  let o := fresh "o" in let cl := fresh "cl" in let rd := fresh "rd" in
  let ef := fresh "ef" in let eio := fresh "eio" in let pty := fresh "pty" in
  let pr := fresh "pr" in let rc := fresh "rc" in
  let rds := fresh "rds" in let wrs := fresh "wrs" in let chs := fresh "chs" in
  let rdy := fresh "rdy" in let lg := fresh "lg" in let k := fresh "k" in
  destruct w as [[c q i o cl rd ef eio pty pr rc] [rds wrs chs rdy] lg k].

#[local] Arguments abort : simpl never.

Ltac forall_done := repeat first [apply Forall_nil_2 | apply Forall_cons_2; [done|]].

Ltac accounts_done :=
  accounts_tac; subst;
  repeat match goal with H : _ ∧ _ |- _ => destruct H end; subst;
  split_and?;
  first [ done | lia | congruence
        | apply union_empty_r_L | apply difference_diag_L | apply empty_difference_L
        | intros; split; congruence
        | intuition (first [congruence | lia]) ].

Ltac closing_done :=
  cbn; intros;
  first [ by (exfalso; accounts_tac; intuition (first [congruence | lia]))
        | split_and?; try done; try forall_done;
          intros; split_and?; try done; try forall_done ].

(** Settle [evolves] for an action run on a world given field by field. *)
Ltac evolves_done :=
  lazymatch goal with
  | |- evolves ?b ?w (abort ?e ?w1).2 =>
      change (evolves b w (run (abort e) w1));
      eapply evolves_abort;
      [accounts_done|accounts_done|accounts_done|cbn; log_eq|done|done
      |cbn; intros; forall_done
      |cbn; first [by left|by right; left|by right; right]]
  | |- _ =>
      first [ apply evolves_refl; accounts_done
            | eapply evolves_silent;
              [accounts_done|cbn; log_eq|done|done|closing_done] ]
  end.

Lemma write_evolves data res w :
  accounts w → evolves false w (run (write data res) w).
Proof.
  intros Hacc.
  destruct (_closing (tr w)) eqn:Hcl.
  { unfold run. rewrite write_when_closing by done. by apply evolves_refl. }
  destruct (_eof (tr w)) eqn:Heof.
  { assert (write data res w = (Raise AssertionError, w)) as Hw.
    { unfold write, mbind, M_bind, bind, self, assert, raise. by rewrite Hcl, Heof. }
    unfold run. rewrite Hw. by apply evolves_refl. }
  destruct (_queue (tr w)) as [q|] eqn:Hq.
  { destruct (write_queued data res w q Hq Hcl Heof) as (q' & Hw & _).
    unfold run. rewrite Hw. cbn [snd]. clear Hw.
    apply (evolves_silent _ _ _ []); [|by rewrite app_nil_r|done|done|congruence].
    world w. accounts_done. }
  destruct (transient res) eqn:Hr.
  { unfold run. rewrite (write_idle_eq w data res Hq Hcl Heof Hr). cbn [snd].
    case_bool_decide.
    - eapply evolves_silent; [|reflexivity|done|done|congruence].
      world w. accounts_done.
    - eapply evolves_silent; [|reflexivity|done|done|congruence].
      world w. accounts_done. }
  destruct res as [n|e]; [done|]. cbn in Hr.
  assert (write data (Errno e) w
          = abort (Some (OSError e))
              {| tr := tr w; loop := loop w;
                 log := log w ++ [SysWrite (_out_fd (tr w)) data (Errno e)];
                 os_kill := os_kill w |}) as Hw.
  { unfold write, mbind, M_bind, bind, self, assert, emit, ret.
    by rewrite Hcl, Heof, Hq, Hr. }
  unfold run. rewrite Hw.
  match goal with |- context [abort _ ?x] => fold (run (abort (Some (OSError e))) x) end.
  eapply evolves_abort; [..|reflexivity|done|done|congruence|by right; left];
    world w; accounts_done.
Qed.

Lemma write_eof_evolves w : accounts w → evolves false w (run write_eof w).
Proof.
  intros Hacc. world w. unfold run, write_eof, _write_eof_now. unfold_m. cbn.
  destruct ef; cbn; [evolves_done|].
  destruct q; cbn; [evolves_done|].
  destruct c; cbn; try evolves_done.
  destruct pr as [[p [[fn []]|]]|]; cbn; evolves_done.
Qed.

(** Unfold a method down to [abort], which is taken whole. *)
Ltac unfold_open :=
  unfold _close_reader, pause_reading, resume_reading, _remove_write_queue,
    _create_write_queue, terminate, kill, send_signal, sys_kill, try_except, file_close,
    loop_call_soon, loop_remove_reader, loop_remove_writer, loop_add_reader,
    loop_add_writer, update_loop, update, emit, self, raise, assert,
    mbind, M_bind, bind, mret, M_ret, ret, run, result.

Lemma close_evolves w : accounts w → evolves false w (run close w).
Proof.
  intros Hacc. world w. unfold close. unfold_open. cbn.
  destruct cl; cbn; [evolves_done|].
  destruct rd, q; cbn; evolves_done.
Qed.

Lemma abort_evolves exc w : accounts w → evolves true w (run (abort exc) w).
Proof.
  intros (? & ? & ? & ?).
  eapply evolves_abort; [done..|symmetry; apply app_nil_r|done|done| |by left].
  intros _. constructor.
Qed.

Lemma reading_evolves w :
  accounts w →
  evolves false w (run pause_reading w) ∧ evolves false w (run resume_reading w).
Proof.
  intros Hacc. world w. unfold_open. cbn. split.
  - destruct rd; cbn; evolves_done.
  - destruct rd; cbn; [evolves_done|].
    destruct (i =? -1) eqn:Hi; cbn; [evolves_done|].
    apply Z.eqb_neq in Hi. evolves_done.
Qed.

Lemma send_signal_evolves sig w : accounts w → evolves false w (run (send_signal sig) w).
Proof.
  intros Hacc. world w. unfold_open. cbn.
  destruct pr as [p|]; cbn; [|evolves_done].
  destruct rc; cbn; [evolves_done|].
  destruct (k (pid p) sig) as [e|]; cbn; [|evolves_done].
  destruct (is_ProcessLookupError e); cbn; evolves_done.
Qed.

Lemma _read_ready_evolves res keep_open w :
  accounts w → _closing (tr w) = false →
  evolves false w (run (_read_ready res keep_open) w).
Proof.
  intros Hacc Hcl. world w. cbn in Hcl. subst.
  unfold _read_ready, _read_ready_got, close. unfold_open. cbn.
  destruct res as [[|b data]|e]; cbn.
  - destruct rd, keep_open, q; cbn; evolves_done.
  - evolves_done.
  - destruct (is_BlockingIOError e); cbn; [evolves_done|].
    destruct (eio && (e =? EIO)); cbn; [|evolves_done].
    destruct rd, keep_open, q; cbn; evolves_done.
Qed.

Lemma run_ready_evolves w : accounts w → evolves false w (run loop_run_ready w).
Proof.
  intros Hacc. split.
  - world w. unfold run, loop_run_ready. accounts_tac.
    rewrite count_deliver_call_soon, count_deliver_lost.
    destruct Hacc as (? & ? & ? & ?). split_and!; [done|done| |lia].
    assert (count is_pause_writing (deliver <$> rdy) = 0%nat
            ∧ count is_resume_writing (deliver <$> rdy) = 0%nat) as [-> ->]; [|lia].
    clear. induction rdy as [|[exc] rdy IH]; [done|].
    cbn [fmap list_fmap deliver]. by rewrite !count_cons.
  - exists (deliver <$> ready (loop w)). rewrite count_deliver_call_soon.
    split_and!; [done|lia|done|by right|].
    assert (Hev : ∀ cbs, Forall (λ e, closing_event e = true) (deliver <$> cbs)
                         ∧ Forall (λ e, is_protocol e = true → is_connection_lost e = true)
                             (deliver <$> cbs)).
    { induction cbs as [|[exc] cbs [IH1 IH2]]; [by split|].
      split; by apply Forall_cons_2. }
    intros Hcl. split_and!; [by destruct w as [[] ? ? ?]|apply Hev|].
    intros Hq. split; [by destruct w as [[] ? ? ?]|]. intros _. apply Hev.
Qed.

Lemma exit_evolves w :
  accounts w →
  (∀ fd status, evolves false w (run (pidfd_ready fd status) w))
  ∧ (∀ p code, evolves false w (run (watcher_fire p code) w)).
Proof.
  intros Hacc. world w. split.
  - intros fd status. unfold pidfd_ready, flag_exit. unfold_open. cbn.
    destruct cl; cbn; evolves_done.
  - intros p code. unfold watcher_fire, watcher_forget, child_watch_fired, flag_exit.
    unfold_open. cbn. case_bool_decide; cbn; [|evolves_done].
    destruct cl; cbn; evolves_done.
Qed.

Lemma _write_ready_evolves res w :
  accounts w → evolves false w (run (_write_ready res) w).
Proof.
  intros Hacc. world w.
  unfold _write_ready, _write_ready_wrote, _write_eof_now. unfold_open. cbn.
  destruct q as [q|]; cbn; [|evolves_done].
  assert (Hwrote : ∀ n,
    evolves false
      {| tr := {| cls := c; _queue := Some q; _in_fd := i; _out_fd := o; _closing := cl;
                  _is_reading := rd; _eof := ef; _eio_is_eof := eio; _pty_fd := pty;
                  _process := pr; _returncode := rc |};
         loop := {| readers := rds; writers := wrs; child_handlers := chs; ready := rdy |};
         log := lg; os_kill := k |}
      (_write_ready_wrote q n
         {| tr := {| cls := c; _queue := Some q; _in_fd := i; _out_fd := o; _closing := cl;
                     _is_reading := rd; _eof := ef; _eio_is_eof := eio; _pty_fd := pty;
                     _process := pr; _returncode := rc |};
            loop := {| readers := rds; writers := wrs; child_handlers := chs;
                       ready := rdy |};
            log := lg ++ [SysWritev o q res]; os_kill := k |}).2).
  { intros n. unfold _write_ready_wrote, _write_eof_now. unfold_open.
    destruct (pop_written n q) as [[|b q']|]; cbn; [|evolves_done..].
    destruct ef; cbn; [|destruct cl; cbn; evolves_done].
    destruct c; cbn; try evolves_done.
    destruct pr as [[p [[fn []]|]]|]; cbn; try evolves_done;
      destruct cl; cbn; evolves_done. }
  destruct res as [n|e]; [apply Hwrote|].
  destruct (is_BlockingIOError e); cbn; [apply Hwrote|evolves_done].
Qed.


(** Every action keeps the accounts of the transport, and says what it
    logged. *)
Lemma step_evolves a w : lifecycle w → evolves (is_abort a) w (run (step a) w).
Proof.
  intros [Hrc Hacc].
  destruct a as [data res| | |exc| | |sig|fd res keep_open|fd res|fd status|p code|];
    cbn [step is_abort].
  - by apply write_evolves.
  - by apply write_eof_evolves.
  - by apply close_evolves.
  - by apply abort_evolves.
  - by apply reading_evolves.
  - by apply reading_evolves.
  - by apply send_signal_evolves.
  - unfold run, when_registered. case_bool_decide as Hreg; [|by apply evolves_refl].
    apply _read_ready_evolves; [done|].
    destruct (Hrc fd Hreg) as [Hrd _]. destruct Hacc as (_ & Hcc & _).
    destruct (_closing (tr w)) eqn:Hcl; [|done].
    destruct (Hcc Hcl). congruence.
  - unfold run, when_registered. case_bool_decide; [|by apply evolves_refl].
    by apply _write_ready_evolves.
  - unfold run, when_registered. case_bool_decide; [|by apply evolves_refl].
    by apply exit_evolves.
  - unfold run, when_registered. case_bool_decide; [|by apply evolves_refl].
    by apply exit_evolves.
  - by apply run_ready_evolves.
Qed.

Lemma step_lifecycle a w : lifecycle w → lifecycle (run (step a) w).
Proof.
  intros Hw. split.
  - apply (keeps_any_step reading_coherent), Hw.
  - by destruct (step_evolves a w Hw).
Qed.

Lemma steps_lifecycle l : ∀ w, lifecycle w → lifecycle (steps l w).
Proof.
  induction l as [|a l IH]; intros w Hw; [done|].
  cbn [steps]. by apply IH, step_lifecycle.
Qed.

(** Both constructors leave a transport that is open, with its accounts
    in order and no [connection_lost] scheduled. *)
Lemma built_lifecycle w :
  built w →
  lifecycle w ∧ _closing (tr w) = false ∧ count is_call_soon (log w) = 0%nat
  ∧ count is_connection_lost (log w) = 0%nat.
Proof.
  assert (Hone : ∀ (i fd : Z),
            (<[i := cb_read_ready]> ∅ : gmap Z ReaderCb) !! fd = Some cb_read_ready →
            fd = i).
  { intros i fd [[<- _]|[_ H]]%lookup_insert_Some; [done|]. by rewrite lookup_empty in H. }
  intros [(c & i & o & k & ->)|(master & child & sin & sout & pidfd & k & ->)].
  - unfold __init__, new_transport, empty_loop, world. unfold_open. cbn.
    destruct (i =? -1) eqn:Hi; cbn; (split_and!; [|done..]); (split; [|accounts_done]).
    + intros fd H. cbn in H. by rewrite lookup_empty in H.
    + intros fd H. cbn in H. by apply Hone in H.
  - unfold SubprocessTransport__init__, __init__, watch_exit, watcher_add_child_handler,
      new_subprocess_transport, new_transport, empty_loop, world.
    destruct master as [m|], pidfd as [pfd|]; unfold_open; cbn;
      match goal with |- context [?x =? -1] => destruct (x =? -1); cbn end;
      (split_and!; [|done..]); (split; [|accounts_done]);
      intros fd H; cbn in H;
      try (apply lookup_insert_Some in H as [[_ H]|[_ H]]; [discriminate H|]);
      first [ by rewrite lookup_empty in H | by apply Hone in H ].
Qed.

Lemma after_lost_none l : count is_connection_lost l = 0%nat → after_lost l = [].
Proof.
  induction l as [|e l IH]; [done|]. rewrite count_cons. cbn [after_lost].
  destruct (is_connection_lost e); [lia|]. intros H. by apply IH.
Qed.

Lemma after_lost_app_none l evs :
  count is_connection_lost l = 0%nat → after_lost (l ++ evs) = after_lost evs.
Proof.
  induction l as [|e l IH]; [done|]. rewrite count_cons. cbn [after_lost app].
  destruct (is_connection_lost e); [lia|]. intros H. by apply IH.
Qed.

Lemma after_lost_app_some l evs :
  count is_connection_lost l ≠ 0%nat → after_lost (l ++ evs) = after_lost l ++ evs.
Proof.
  induction l as [|e l IH]; [done|]. rewrite count_cons. cbn [after_lost app].
  destruct (is_connection_lost e); [done|]. intros H. by apply IH.
Qed.

Lemma after_lost_deliver cbs : (length cbs ≤ 1)%nat → after_lost (deliver <$> cbs) = [].
Proof. destruct cbs as [|[exc] [|? ?]]; cbn; [done..|lia]. Qed.

Lemma protocol_silent evs :
  Forall (λ e, is_protocol e = true → is_connection_lost e = true) evs →
  count is_connection_lost evs = 0%nat →
  Forall (λ e, is_protocol e = false) evs.
Proof.
  induction 1 as [|e evs He _ IH]; [done|]. rewrite count_cons.
  destruct (is_connection_lost e) eqn:Hl; [lia|]. intros Hc.
  apply Forall_cons_2; [|by apply IH].
  destruct (is_protocol e); [|done]. specialize (He eq_refl). congruence.
Qed.

(** An action that is not an [abort] of a closing transport schedules no
    second [connection_lost] and tells the protocol nothing after the
    first. *)
Lemma step_settled a w :
  lifecycle w → scheduled_once w → lost_is_last w →
  (is_abort a = true → _closing (tr w) = false) →
  scheduled_once (run (step a) w) ∧ lost_is_last (run (step a) w).
Proof.
  intros Hw Honce Hlast Habort.
  destruct (step_evolves a w Hw) as (_ & evs & Hlog & Hle & Hone & Hlost & Hclosing).
  destruct Hw as (_ & _ & _ & _ & Hacc). unfold losses_accounted in Hacc.
  unfold scheduled_once, lost_is_last in *. rewrite Hlog, count_app. split.
  - destruct Honce as [H0|(H1 & Hcl & Hq)].
    + destruct (count is_call_soon evs) as [|[|n]] eqn:Hn; [left; lia| |lia].
      right. split; [lia|]. by destruct Hone as (? & ? & _).
    + destruct (Hclosing Hcl) as (Hcl' & _ & Hq'). destruct (Hq' Hq) as [Hnone _].
      destruct (count is_call_soon evs) as [|[|n]] eqn:Hn; [by right; split; [lia|]| |lia].
      destruct Hone as (_ & _ & [Hb|[?|?]]); [done| |congruence..].
      specialize (Habort Hb). congruence.
  - destruct (count is_connection_lost (log w)) as [|n] eqn:Hc.
    + rewrite after_lost_app_none by done.
      destruct Hlost as [Hz| ->]; [by rewrite after_lost_none|].
      rewrite after_lost_deliver; [done|].
      destruct Honce as [H0|(H1 & _)]; lia.
    + rewrite after_lost_app_some by lia. apply Forall_app. split; [done|].
      destruct Honce as [H0|(H1 & Hcl & Hq)]; [lia|].
      destruct (Hclosing Hcl) as (_ & _ & Hq'). destruct (Hq' Hq) as [_ Hsilent].
      destruct (is_abort a) eqn:Ha; [specialize (Habort eq_refl); congruence|].
      destruct Hlost as [Hz| ->]; [by apply protocol_silent; [apply Hsilent|]|].
      assert (ready (loop w) = []) as -> by (apply length_zero_iff_nil; lia).
      constructor.
Qed.

Lemma steps_settled l : ∀ w,
  lifecycle w → scheduled_once w → lost_is_last w → aborts_open l w = true →
  lifecycle (steps l w) ∧ scheduled_once (steps l w) ∧ lost_is_last (steps l w).
Proof.
  induction l as [|a l IH]; intros w Hw Honce Hlast Hopen; [done|].
  cbn [steps aborts_open] in *. apply andb_prop in Hopen as [Ha Hl].
  destruct (step_settled a w Hw Honce Hlast) as [Honce' Hlast'].
  { intros Hab. rewrite Hab in Ha. by apply negb_true_iff in Ha. }
  apply IH; [by apply step_lifecycle|done..].
Qed.

Lemma built_settled w : built w → lifecycle w ∧ scheduled_once w ∧ lost_is_last w.
Proof.
  intros (Hw & _ & Hsoon & Hlost)%built_lifecycle. split_and!; [done|by left|].
  unfold lost_is_last. by rewrite after_lost_none.
Qed.

(** X9. [connection_lost] is scheduled at most once.  Take a transport
    as its constructor leaves it and let anything happen to it, except
    that the consumer does not call [abort] on a transport that is
    already closing.  Then [call_soon] was handed at most one
    [connection_lost], no more were delivered than were scheduled, and
    once one is scheduled the transport is closing, has no queue and no
    writer registered, does not read and has forgotten its input
    descriptor, and its read callback is registered nowhere. *)
Theorem connection_lost_once (l : list Action) (w0 : World) :
  built w0 → aborts_open l w0 = true →
  let w := steps l w0 in
  (count is_call_soon (log w) ≤ 1)%nat
  ∧ (count is_connection_lost (log w) ≤ count is_call_soon (log w))%nat
  ∧ (count is_call_soon (log w) = 1%nat →
     _closing (tr w) = true ∧ _queue (tr w) = None
     ∧ _is_reading (tr w) = false ∧ _in_fd (tr w) = -1
     ∧ writers (loop w) = ∅
     ∧ ∀ fd, readers (loop w) !! fd ≠ Some cb_read_ready).
Proof.
  intros (Hw & Honce & Hlast)%built_settled Hopen w.
  destruct (steps_settled l w0 Hw Honce Hlast Hopen)
    as ((Hrc & Hwc & Hcc & _ & Hacc) & Honce' & _).
  fold w in Hrc, Hwc, Hcc, Hacc, Honce'.
  unfold losses_accounted in Hacc. split_and!.
  - destruct Honce' as [->|[-> _]]; lia.
  - lia.
  - intros H1. destruct Honce' as [H0|(_ & Hcl & Hq)]; [congruence|].
    destruct (Hcc Hcl) as [Hrd Hfd]. unfold writer_coherent in Hwc. rewrite Hq in Hwc.
    split_and!; [done..|]. intros fd Hfd'. destruct (Hrc fd Hfd'). congruence.
Qed.

Lemma connection_lost_once_witness :
  let w := steps [Write [x61] (Done 0%nat); Close; Writable 1 (Done 1%nat); RunReady; Close]
             stdio_idle in
  (count is_call_soon (log w) ≤ 1)%nat
  ∧ (count is_connection_lost (log w) ≤ count is_call_soon (log w))%nat
  ∧ (count is_call_soon (log w) = 1%nat →
     _closing (tr w) = true ∧ _queue (tr w) = None
     ∧ _is_reading (tr w) = false ∧ _in_fd (tr w) = -1
     ∧ writers (loop w) = ∅
     ∧ ∀ fd, readers (loop w) !! fd ≠ Some cb_read_ready).
Proof.
  apply (connection_lost_once
           [Write [x61] (Done 0%nat); Close; Writable 1 (Done 1%nat); RunReady; Close]
           stdio_idle).
  - left. by exists StdioTransport, 0, 1, kill_ok.
  - reflexivity.
Defined.

(** X10. [connection_lost] is the last thing the protocol hears.  Under
    the same conditions, no call on the protocol -- no [data_received],
    [eof_received], [pause_writing], [resume_writing], [process_exited]
    or second [connection_lost] -- follows the first [connection_lost]
    in the log. *)
Theorem connection_lost_is_last (l : list Action) (w0 : World) :
  built w0 → aborts_open l w0 = true →
  Forall (λ e, is_protocol e = false) (after_lost (log (steps l w0))).
Proof.
  intros (Hw & Honce & Hlast)%built_settled Hopen.
  by destruct (steps_settled l w0 Hw Honce Hlast Hopen) as (_ & _ & ?).
Qed.

Lemma connection_lost_is_last_witness :
  Forall (λ e, is_protocol e = false)
    (after_lost (log (steps [Abort None; RunReady; PidfdReadable 7 0; Write [x61] (Done 1%nat)]
                        pipe_child))).
Proof.
  apply (connection_lost_is_last
           [Abort None; RunReady; PidfdReadable 7 0; Write [x61] (Done 1%nat)] pipe_child).
  - right. by exists None, 100, 5, 4, (Some 7), kill_ok.
  - reflexivity.
Defined.

Lemma steps_closing l : ∀ w,
  lifecycle w → _closing (tr w) = true →
  _closing (tr (steps l w)) = true
  ∧ ∃ evs, log (steps l w) = log w ++ evs ∧ Forall (λ e, closing_event e = true) evs.
Proof.
  induction l as [|a l IH]; intros w Hw Hcl.
  - split; [done|]. exists []. by rewrite app_nil_r.
  - cbn [steps].
    destruct (step_evolves a w Hw) as (_ & evs & Hlog & _ & _ & _ & Hclosing).
    destruct (Hclosing Hcl) as (Hcl' & Hevs & _).
    destruct (IH _ (step_lifecycle a w Hw) Hcl') as (Hcl'' & evs' & Hlog' & Hevs').
    split; [done|]. exists (evs ++ evs'). split; [|by apply Forall_app].
    by rewrite Hlog', Hlog, <- app_assoc.
Qed.

(** X11. Closing is final.  Once a transport is closing, whether by
    [close] or by [abort], it stays closing whatever happens to it, and
    from then on it only flushes its queue with [os.writev], unregisters
    callbacks, schedules and delivers [connection_lost], releases
    descriptors and signals its child, and tells the protocol
    [resume_writing]: it never reads, never calls [os.write], registers
    no reader or writer, and never calls [data_received], [eof_received],
    [pause_writing] or [process_exited]. *)
Theorem closing_is_final (before after : list Action) (w0 : World) :
  built w0 →
  let w1 := steps before w0 in
  let w2 := steps after w1 in
  _closing (tr w1) = true →
  _closing (tr w2) = true
  ∧ Forall (λ e, closing_event e = true) (since (log w1) w2).
Proof.
  intros (Hw & _)%built_lifecycle w1 w2 Hcl.
  destruct (steps_closing after w1 (steps_lifecycle before w0 Hw) Hcl)
    as (Hcl' & evs & Hlog & Hevs).
  split; [done|]. by rewrite (since_app _ evs).
Qed.

Lemma closing_is_final_witness :
  let w1 := steps [Write [x61; x62] (Done 1%nat); Close] pipe_child in
  let w2 := steps [Readable 4 (Done [x63]) true; Write [x64] (Done 1%nat);
                   PidfdReadable 7 0; Writable 5 (Done 1%nat); RunReady] w1 in
  _closing (tr w2) = true
  ∧ Forall (λ e, closing_event e = true) (since (log w1) w2).
Proof.
  apply (closing_is_final [Write [x61; x62] (Done 1%nat); Close]
           [Readable 4 (Done [x63]) true; Write [x64] (Done 1%nat);
            PidfdReadable 7 0; Writable 5 (Done 1%nat); RunReady] pipe_child).
  - right. by exists None, 100, 5, 4, (Some 7), kill_ok.
  - reflexivity.
Defined.

(** X12. What the loop has registered matches the transport's state at
    all times.  After anything that can happen to a transport as its
    constructor leaves it: the read callback is registered on [_in_fd]
    only and only while [_is_reading]; a writer is registered exactly
    while there is a queue, and then [_out_fd] alone; a closing transport
    does not read and has forgotten [_in_fd]; and the protocol was told
    [pause_writing] once more than [resume_writing] exactly while there
    is a queue. *)
Theorem registrations_match_state (l : list Action) (w0 : World) :
  built w0 →
  let w := steps l w0 in
  reading_coherent w ∧ writer_coherent w ∧ closing_coherent w ∧ flow_balanced w.
Proof.
  intros (Hw & _)%built_lifecycle w.
  destruct (steps_lifecycle l w0 Hw) as (? & ? & ? & ? & _). by split_and!.
Qed.

Lemma registrations_match_state_witness :
  let w := steps [Write [x61; x62] (Errno EAGAIN); WriteEof; Writable 5 (Done 2%nat)]
             pipe_child in
  reading_coherent w ∧ writer_coherent w ∧ closing_coherent w ∧ flow_balanced w.
Proof.
  apply (registrations_match_state
           [Write [x61; x62] (Errno EAGAIN); WriteEof; Writable 5 (Done 2%nat)] pipe_child).
  right. by exists None, 100, 5, 4, (Some 7), kill_ok.
Defined.


(** ** Further properties: what each method logs *)

Section Emits.
Context (Q : Event → Prop).

Lemma emits_ret {A} (a : A) : emits Q (ret a).
Proof. intros w. exists []. by rewrite app_nil_r. Qed.

Lemma emits_raise {A} e : emits Q (@raise A e).
Proof. intros w. exists []. by rewrite app_nil_r. Qed.

Lemma emits_self : emits Q self.
Proof. intros w. exists []. by rewrite app_nil_r. Qed.

Lemma emits_sys_kill p sig : emits Q (sys_kill p sig).
Proof. intros w. exists []. by rewrite app_nil_r. Qed.

Lemma emits_assert b : emits Q (assert b).
Proof. intros w. exists []. destruct b; by rewrite app_nil_r. Qed.

Lemma emits_update f : emits Q (update f).
Proof. intros w. exists []. by rewrite app_nil_r. Qed.

Lemma emits_update_loop f : emits Q (update_loop f).
Proof. intros w. exists []. by rewrite app_nil_r. Qed.

Lemma emits_emit e : Q e → emits Q (emit e).
Proof. intros He w. exists [e]. split; [done|]. by apply Forall_cons_2. Qed.

Lemma emits_bind {A B} (m : M A) (f : A → M B) :
  emits Q m → (∀ a, emits Q (f a)) → emits Q (m ≫= f).
Proof.
  intros Hm Hf w. unfold mbind, M_bind, bind.
  destruct (Hm w) as (evs & Hlog & Hevs). destruct (m w) as [[a|e] w']; [|by exists evs].
  destruct (Hf a w') as (evs' & Hlog' & Hevs'). exists (evs ++ evs').
  split; [|by apply Forall_app]. cbn in Hlog. by rewrite Hlog', Hlog, <- app_assoc.
Qed.

Lemma emits_try_except {A} (m : M A) handles h :
  emits Q m → (∀ e, emits Q (h e)) → emits Q (try_except m handles h).
Proof.
  intros Hm Hh w. unfold try_except.
  destruct (Hm w) as (evs & Hlog & Hevs). destruct (m w) as [[a|e] w']; [by exists evs|].
  destruct (handles e); [|by exists evs].
  destruct (Hh e w') as (evs' & Hlog' & Hevs'). exists (evs ++ evs').
  split; [|by apply Forall_app]. cbn in Hlog. by rewrite Hlog', Hlog, <- app_assoc.
Qed.

Lemma emits_when_registered guard m : emits Q m → emits Q (when_registered guard m).
Proof.
  intros Hm w. unfold when_registered. destruct (guard (loop w)); [apply Hm|].
  exists []. by rewrite app_nil_r.
Qed.

Context (HQ : ∀ e, common_event e = true → Q e).
Context (HR : ∀ e, read_event e = true → Q e).

Create HintDb emits.

(** Take a method apart down to the events it logs. *)
Ltac emits_tac :=
  repeat first
    [ progress cbv zeta
    | apply emits_ret | apply emits_raise | apply emits_self
    | apply emits_sys_kill | apply emits_assert
    | apply emits_update | apply emits_update_loop
    | apply emits_emit; first [apply HQ; reflexivity | apply HR; reflexivity]
    | solve [auto with emits]
    | apply emits_bind; [|intros ?]
    | apply emits_try_except; [|intros ?]
    | match goal with |- emits _ (match ?x with _ => _ end) => destruct x end ].

Lemma emits_pause_reading : emits Q pause_reading.
Proof. unfold pause_reading, loop_remove_reader. emits_tac. Qed.
Local Hint Resolve emits_pause_reading : emits.

Lemma emits__close_reader : emits Q _close_reader.
Proof. unfold _close_reader. emits_tac. Qed.
Local Hint Resolve emits__close_reader : emits.

Lemma emits__remove_write_queue : emits Q _remove_write_queue.
Proof. unfold _remove_write_queue, loop_remove_writer. emits_tac. Qed.
Local Hint Resolve emits__remove_write_queue : emits.

Lemma emits__create_write_queue data : emits Q (_create_write_queue data).
Proof. unfold _create_write_queue, loop_add_writer. emits_tac. Qed.
Local Hint Resolve emits__create_write_queue : emits.

Lemma emits_file_close f : emits Q (file_close f).
Proof. unfold file_close. emits_tac. Qed.
Local Hint Resolve emits_file_close : emits.

Lemma emits_send_signal sig : emits Q (send_signal sig).
Proof. unfold send_signal. emits_tac. Qed.
Local Hint Resolve emits_send_signal : emits.

Lemma emits__close : emits Q _close.
Proof. unfold _close, terminate. emits_tac. Qed.
Local Hint Resolve emits__close : emits.

Lemma emits_abort exc : emits Q (abort exc).
Proof. unfold abort, loop_call_soon. emits_tac. Qed.
Local Hint Resolve emits_abort : emits.

Lemma emits__write_eof_now : emits Q _write_eof_now.
Proof. unfold _write_eof_now. emits_tac. Qed.
Local Hint Resolve emits__write_eof_now : emits.

Lemma emits_write_eof : emits Q write_eof.
Proof. unfold write_eof. emits_tac. Qed.

Lemma emits__write_ready res : emits Q (_write_ready res).
Proof. unfold _write_ready, _write_ready_wrote. emits_tac. Qed.

Lemma emits_write data res : emits Q (write data res).
Proof. unfold write, write_wrote. emits_tac. Qed.

Lemma emits_close : emits Q close.
Proof. unfold close. emits_tac. Qed.

Lemma emits_run_ready : emits Q loop_run_ready.
Proof.
  intros w. exists (deliver <$> ready (loop w)). split; [done|].
  induction (ready (loop w)) as [|[exc] cbs IH]; [done|].
  apply Forall_cons_2; [by apply HQ|done].
Qed.

(** The actions that neither read nor watch the child log nothing of
    the read side and no [process_exited]. *)
Lemma emits_common a : is_common a = true → emits Q (step a).
Proof.
  destruct a; intros Ha; try discriminate Ha; cbn [step];
    auto using emits_write, emits_write_eof, emits_close, emits_abort,
      emits_pause_reading, emits_send_signal, emits_when_registered,
      emits__write_ready, emits_run_ready.
Qed.

Lemma emits_resume_reading : emits Q resume_reading.
Proof. unfold resume_reading, loop_add_reader. emits_tac. Qed.

Lemma emits__read_ready res keep_open : emits Q (_read_ready res keep_open).
Proof.
  pose proof emits_close. unfold _read_ready, _read_ready_got. emits_tac.
Qed.

(** Only the exit callbacks log something else than the events of the
    read side and the common ones. *)
Lemma emits_plain a : is_exit_event a = false → emits Q (step a).
Proof.
  destruct a; intros Ha; try discriminate Ha; cbn [step];
    auto using emits_write, emits_write_eof, emits_close, emits_abort,
      emits_pause_reading, emits_resume_reading, emits_send_signal,
      emits_when_registered, emits__read_ready, emits__write_ready, emits_run_ready.
Qed.

End Emits.

(** ** Further properties: the read side closes for good *)

#[global] Instance read_shut_framed : Framed read_shut.
Proof.
  split; try (by intros ? w; try done); try (by intros w).
  - intros f Hf w [Hfd Hrd]. destruct (Hf (tr w)) as (_ & _ & Hrd' & Hfd').
    split; cbn; congruence.
  - intros w [Hfd Hrd]. unfold pause_reading, mbind, M_bind, bind, self, ret.
    by rewrite Hrd.
  - intros w [Hfd Hrd]. unfold _close_reader, pause_reading. unfold_m. by rewrite Hrd.
  - intros w [Hfd Hrd]. unfold resume_reading. unfold_m. rewrite Hrd, Hfd. done.
Qed.

#[global] Instance read_shut_framed_exit : FramedExit read_shut.
Proof. split; [intros r w [? ?]; by destruct w as [[] ? ? ?]|by intros ? w|by intros ? w]. Qed.

#[global] Instance read_closed_framed : Framed read_closed.
Proof.
  split; try (by intros ? w; try done); try (by intros w).
  - intros f Hf w Hw. destruct (Hf (tr w)) as (_ & _ & Hrd' & Hfd').
    unfold read_closed in *. cbn. rewrite Hrd', Hfd'. done.
  - intros w Hw. unfold read_closed, pause_reading in *. unfold_m.
    destruct (_is_reading (tr w)) eqn:Hrd; cbn; [done|]. by rewrite Hrd.
  - intros w Hw. unfold read_closed, _close_reader, pause_reading in *. unfold_m.
    destruct (_is_reading (tr w)) eqn:Hrd; cbn; [done|]. by rewrite Hrd.
  - intros w Hw. unfold read_closed, resume_reading in *. unfold_m.
    destruct (_is_reading (tr w)) eqn:Hrd; cbn; [by rewrite Hrd|].
    destruct (_in_fd (tr w) =? -1) eqn:Hfd; cbn; [by rewrite Hrd|].
    apply Z.eqb_neq in Hfd. intros H. by destruct (tr w).
Qed.

#[global] Instance read_closed_framed_exit : FramedExit read_closed.
Proof. split; [intros r w; by destruct w as [[] ? ? ?]|by intros ? w|by intros ? w]. Qed.

Lemma built_read_closed w : built w → read_closed w.
Proof.
  intros [(c & i & o & k & ->)|(master & child & sin & sout & pidfd & k & ->)].
  - unfold __init__, new_transport, empty_loop, world, read_closed. unfold_open. cbn.
    destruct (i =? -1) eqn:Hi; cbn; [done|]. apply Z.eqb_neq in Hi. done.
  - unfold SubprocessTransport__init__, __init__, watch_exit, watcher_add_child_handler,
      new_subprocess_transport, new_transport, empty_loop, world, read_closed.
    destruct master as [m|], pidfd as [pfd|]; unfold_open; cbn;
      match goal with |- context [?x =? -1] => destruct (x =? -1) eqn:Hi; cbn end;
      try done; apply Z.eqb_neq in Hi; done.
Qed.

(** The exit callbacks log the release of the pidfd and, at most once,
    [process_exited]. *)
Lemma exit_emits (Q : Event → Prop) :
  (∀ fd, Q (LoopRemoveReader fd)) → (∀ fd, Q (SysClose fd)) → Q ProtoProcessExited →
  (∀ fd status, emits Q (pidfd_ready fd status)) ∧ (∀ p code, emits Q (watcher_fire p code)).
Proof.
  intros H1 H2 H3. split.
  - intros fd status w. world w. unfold pidfd_ready, flag_exit. unfold_open. cbn.
    destruct cl; cbn; (eexists; split; [log_eq|forall_done]).
  - intros p code w. world w.
    unfold watcher_fire, watcher_forget, child_watch_fired, flag_exit. unfold_open. cbn.
    case_bool_decide; cbn; [destruct cl; cbn|]; (eexists; split; [log_eq|forall_done]).
Qed.

(** With the read side shut, no action logs an event of the read side. *)
Lemma step_read_shut a w :
  reading_coherent w → read_shut w →
  ∃ evs, log (run (step a) w) = log w ++ evs ∧ Forall (λ e, read_event e = false) evs.
Proof.
  intros Hrc [Hfd Hrd].
  destruct (is_common a) eqn:Ha.
  { apply (emits_common (λ e, read_event e = false)); [by intros []|done]. }
  destruct a as [| | | | | | |fd res keep_open| |fd status|p code|];
    try discriminate Ha; cbn [step]; unfold run, when_registered.
  - exists []. unfold resume_reading. unfold_m. rewrite Hrd, Hfd. cbn. by rewrite app_nil_r.
  - case_bool_decide as Hreg; [|exists []; by rewrite app_nil_r].
    destruct (Hrc fd Hreg). congruence.
  - case_bool_decide; [|exists []; by rewrite app_nil_r].
    by apply (exit_emits (λ e, read_event e = false)).
  - case_bool_decide; [|exists []; by rewrite app_nil_r].
    by apply (exit_emits (λ e, read_event e = false)).
Qed.

Lemma steps_read_shut l : ∀ w,
  reading_coherent w → read_shut w →
  read_shut (steps l w)
  ∧ ∃ evs, log (steps l w) = log w ++ evs ∧ Forall (λ e, read_event e = false) evs.
Proof.
  induction l as [|a l IH]; intros w Hrc Hshut.
  - split; [done|]. exists []. by rewrite app_nil_r.
  - cbn [steps]. destruct (step_read_shut a w Hrc Hshut) as (evs & Hlog & Hevs).
    destruct (IH (run (step a) w)) as (Hshut' & evs' & Hlog' & Hevs').
    { by apply (keeps_any_step reading_coherent). }
    { by apply (keeps_any_step read_shut). }
    split; [done|]. exists (evs ++ evs'). split; [|by apply Forall_app].
    by rewrite Hlog', Hlog, <- app_assoc.
Qed.

(** X13. The read side closes for good.  Once a transport has forgotten
    its input descriptor -- after end of file, a read error, [close] or
    [abort] -- it never gets one back and never reads again: whatever
    happens, [_in_fd] stays [-1], the transport is not reading, and it
    logs no [os.read], no [data_received], no [eof_received] and no
    registration of its read callback; [resume_reading] in particular
    has no effect. *)
Theorem read_side_closes_for_good (before after : list Action) (w0 : World) :
  built w0 →
  let w1 := steps before w0 in
  let w2 := steps after w1 in
  _in_fd (tr w1) = -1 →
  _in_fd (tr w2) = -1 ∧ _is_reading (tr w2) = false
  ∧ Forall (λ e, read_event e = false) (since (log w1) w2).
Proof.
  intros Hbuilt w1 w2 Hfd.
  assert (Hrc : reading_coherent w1).
  { apply (keeps_steps reading_coherent). by apply built_lifecycle. }
  assert (Hshut : read_shut w1).
  { split; [done|].
    by apply (keeps_steps read_closed before w0 (built_read_closed w0 Hbuilt)). }
  destruct (steps_read_shut after w1 Hrc Hshut) as ([? ?] & evs & Hlog & Hevs).
  split_and!; [done..|]. by rewrite (since_app _ evs).
Qed.

Lemma read_side_closes_for_good_witness :
  let w1 := steps [Readable 0 (Done []) true] stdio_idle in
  let w2 := steps [ResumeReading; Readable 0 (Done [x61]) true;
                   Write [x62] (Done 1%nat)] w1 in
  _in_fd (tr w2) = -1 ∧ _is_reading (tr w2) = false
  ∧ Forall (λ e, read_event e = false) (since (log w1) w2).
Proof.
  apply (read_side_closes_for_good [Readable 0 (Done []) true]
           [ResumeReading; Readable 0 (Done [x61]) true; Write [x62] (Done 1%nat)]
           stdio_idle).
  - left. by exists StdioTransport, 0, 1, kill_ok.
  - reflexivity.
Defined.

(** ** Further properties: the exit of the child is reported once *)

Lemma count_none p evs : Forall (λ e, p e = false) evs → count p evs = 0%nat.
Proof.
  induction 1 as [|e evs He _ IH]; [done|]. by rewrite count_cons, He, IH.
Qed.

(** An exit callback logs at most one [process_exited], and none unless
    it records the exit status. *)
Lemma exit_step_once a w :
  is_exit_event a = true →
  ∃ evs, log (run (step a) w) = log w ++ evs
         ∧ (count is_process_exited evs ≤ 1)%nat
         ∧ (_returncode (tr (run (step a) w)) = None →
            count is_process_exited evs = 0%nat).
Proof.
  intros Ha. destruct a as [| | | | | | | | |fd status|p code|]; try discriminate Ha;
    cbn [step]; unfold run, when_registered; world w;
    (case_bool_decide; [|exists []; rewrite app_nil_r, count_nil; split_and!; [done|lia|done]]).
  - unfold pidfd_ready, flag_exit. unfold_open. cbn.
    destruct cl; cbn; (eexists; split; [log_eq|]);
      rewrite ?count_app, ?count_cons, ?count_nil; cbn; (split; [lia|done]).
  - unfold watcher_fire, watcher_forget, child_watch_fired, flag_exit. unfold_open. cbn.
    case_bool_decide; cbn; [destruct cl; cbn|];
      (eexists; split; [log_eq|]); rewrite ?count_app, ?count_cons, ?count_nil; cbn;
      (split; [lia|done]).
Qed.

Lemma steps_process_exited l : ∀ w,
  exit_watch_inv w →
  (count is_process_exited (log w) ≤ 1)%nat →
  (_returncode (tr w) = None → count is_process_exited (log w) = 0%nat) →
  (count is_process_exited (log (steps l w)) ≤ 1)%nat
  ∧ (_returncode (tr (steps l w)) = None →
     count is_process_exited (log (steps l w)) = 0%nat).
Proof.
  induction l as [|a l IH]; intros w Hinv Hle Hnone; [done|].
  cbn [steps]. pose proof (step_exit_watch_inv a w Hinv) as Hinv'.
  destruct (is_exit_event a) eqn:Ha.
  - destruct (decide (_returncode (tr w) = None)) as [Hrc|Hrc].
    + destruct (exit_step_once a w Ha) as (evs & Hlog & Hevs & Hkept).
      apply IH; [done|..]; rewrite Hlog, count_app, Hnone by done; [lia|].
      intros H. by rewrite Hkept.
    + assert (Hsame : run (step a) w = w).
      { apply step_unfired; [done|]. destruct Hinv as (_ & _ & _ & HD & _). by apply HD. }
      rewrite Hsame. by apply IH.
  - destruct (emits_plain (λ e, is_process_exited e = false)) with (a := a) (w := w)
      as (evs & Hlog & Hevs); [by intros []|by intros []|done|].
    destruct (step_frame a w Ha) as (_ & _ & _ & Hrc).
    fold (run (step a) w) in Hlog.
    apply IH; [done|..]; rewrite Hlog, count_app, (count_none _ evs Hevs), ?Hrc;
      [lia|]. intros H. rewrite Hnone by done. done.
Qed.

(** X14. The exit of the child is reported at most once.  On a
    [SubprocessTransport] as [__init__] leaves it, over pipes or a pty,
    watched through a pidfd or the child watcher, whatever happens the
    protocol is told [process_exited] at most once, and only when the
    exit status has been recorded. *)
Theorem process_exited_once
    (master : option Z) (child stdin_fd stdout_fd : Z) (pidfd : option Z)
    (k : Z → Z → option Z) (l : list Action) :
  let w := steps l (run (SubprocessTransport__init__ pidfd)
                      (world (new_subprocess_transport master child stdin_fd stdout_fd)
                         empty_loop k)) in
  (count is_process_exited (log w) ≤ 1)%nat
  ∧ (count is_process_exited (log w) = 1%nat → _returncode (tr w) ≠ None).
Proof.
  intros w.
  set (w0 := run (SubprocessTransport__init__ pidfd)
               (world (new_subprocess_transport master child stdin_fd stdout_fd)
                  empty_loop k)) in *.
  assert (Hzero : count is_process_exited (log w0) = 0%nat).
  { subst w0. unfold SubprocessTransport__init__, __init__, watch_exit,
      watcher_add_child_handler, new_subprocess_transport, new_transport, empty_loop, world.
    destruct master as [m|], pidfd as [pfd|]; unfold_open; cbn;
      match goal with |- context [?x =? -1] => destruct (x =? -1); cbn end;
      reflexivity. }
  destruct (steps_process_exited l w0) as [Hle Hnone].
  - apply init_exit_watch_inv.
  - lia.
  - done.
  - fold w in Hle, Hnone. split; [done|]. intros H1 Hrc. specialize (Hnone Hrc). lia.
Qed.

(** ** Further properties: end of file is reported once *)

Lemma abort_eof exc w :
  ∃ evs, log (run (abort exc) w) = log w ++ evs
         ∧ count is_eof_received evs = 0%nat
         ∧ read_shut (run (abort exc) w).
Proof.
  destruct (emits_abort (λ e, is_eof_received e = false)) with (exc := exc) (w := w)
    as (evs & Hlog & Hevs); [by intros []|].
  destruct (abort_summary exc w) as (_ & _ & _ & _ & _ & Hfd & Hrd & _).
  exists evs. split_and!; [done|by apply count_none|by split].
Qed.

(** The read callback reports end of file at most once, and shuts the
    read side when it does. *)
Lemma _read_ready_eof res keep_open w :
  ∃ evs, log (run (_read_ready res keep_open) w) = log w ++ evs
         ∧ (count is_eof_received evs ≤ 1)%nat
         ∧ (count is_eof_received evs = 1%nat →
            read_shut (run (_read_ready res keep_open) w)).
Proof.
  assert (Htail : ∀ exc w1 pre,
            log w1 = log w ++ pre → (count is_eof_received pre ≤ 1)%nat →
            ∃ evs, log (abort exc w1).2 = log w ++ evs
                   ∧ (count is_eof_received evs ≤ 1)%nat
                   ∧ (count is_eof_received evs = 1%nat → read_shut (abort exc w1).2)).
  { intros exc w1 pre Hpre Hle.
    destruct (abort_eof exc w1) as (evs & Hlog & Hc & Hshut).
    exists (pre ++ evs). unfold run in Hlog. rewrite Hlog, Hpre, count_app, Hc.
    split_and!; [by rewrite <- app_assoc|lia|done]. }
  world w. unfold _read_ready, _read_ready_got, close. unfold_open. cbn.
  assert (Hgot : ∀ pre0, count is_eof_received pre0 = 0%nat →
    ∃ evs,
      log (_read_ready_got [] keep_open
             {| tr := {| cls := c; _queue := q; _in_fd := i; _out_fd := o; _closing := cl;
                         _is_reading := rd; _eof := ef; _eio_is_eof := eio;
                         _pty_fd := pty; _process := pr; _returncode := rc |};
                loop := {| readers := rds; writers := wrs; child_handlers := chs;
                           ready := rdy |};
                log := lg ++ pre0; os_kill := k |}).2 = lg ++ evs
      ∧ (count is_eof_received evs ≤ 1)%nat
      ∧ (count is_eof_received evs = 1%nat →
         read_shut
           (_read_ready_got [] keep_open
              {| tr := {| cls := c; _queue := q; _in_fd := i; _out_fd := o;
                          _closing := cl; _is_reading := rd; _eof := ef;
                          _eio_is_eof := eio; _pty_fd := pty; _process := pr;
                          _returncode := rc |};
                 loop := {| readers := rds; writers := wrs; child_handlers := chs;
                            ready := rdy |};
                 log := lg ++ pre0; os_kill := k |}).2)).
  { intros pre0 Hpre0. unfold _read_ready_got, close. unfold_open. cbn.
    destruct rd, keep_open, cl, q; cbn;
      first [ eapply Htail; [cbn; log_eq|];
              rewrite ?count_app, ?count_cons, ?count_nil, Hpre0; cbn; lia
            | eexists; split; [log_eq|];
              rewrite ?count_app, ?count_cons, ?count_nil, Hpre0; cbn;
              split; [lia|by intros _] ]. }
  destruct res as [[|b data]|e]; cbn.
  - apply (Hgot [SysRead i (Done [])]). done.
  - eexists. split; [log_eq|]. rewrite ?count_app, ?count_cons, ?count_nil. cbn.
    split; [lia|done].
  - destruct (is_BlockingIOError e); cbn.
    + eexists. split; [log_eq|]. rewrite ?count_app, ?count_cons, ?count_nil. cbn.
      split; [lia|done].
    + destruct (eio && (e =? EIO)); cbn.
      * apply (Hgot [SysRead i (Errno e)]). done.
      * eapply Htail; [cbn; reflexivity|]. rewrite count_cons, count_nil. cbn. lia.
Qed.

Lemma emits_no_eof a :
  (∀ fd res keep_open, a ≠ Readable fd res keep_open) →
  emits (λ e, is_eof_received e = false) (step a).
Proof.
  intros Ha. destruct (is_common a) eqn:Hc.
  { apply emits_common; [by intros []|done]. }
  destruct a as [| | | | | | |fd res keep_open| |fd status|p code|];
    try discriminate Hc; cbn [step].
  - intros w. world w. unfold resume_reading. unfold_open. cbn.
    destruct rd; cbn; [exists []; by rewrite app_nil_r|].
    destruct (i =? -1); cbn; [exists []; by rewrite app_nil_r|].
    eexists. split; [log_eq|forall_done].
  - by destruct (Ha fd res keep_open).
  - by apply emits_when_registered, exit_emits.
  - by apply emits_when_registered, exit_emits.
Qed.

Lemma step_eof_once a w :
  reading_coherent w →
  count is_eof_received (log w) = 0%nat
  ∨ (count is_eof_received (log w) = 1%nat ∧ read_shut w) →
  count is_eof_received (log (run (step a) w)) = 0%nat
  ∨ (count is_eof_received (log (run (step a) w)) = 1%nat ∧ read_shut (run (step a) w)).
Proof.
  intros Hrc Hw.
  assert (Hplain : (∀ fd res keep_open, a ≠ Readable fd res keep_open) →
            count is_eof_received (log (run (step a) w))
            = count is_eof_received (log w)).
  { intros Ha. destruct (emits_no_eof a Ha w) as (evs & Hlog & Hevs).
    unfold run. by rewrite Hlog, count_app, (count_none _ evs Hevs), Nat.add_0_r. }
  assert (Hshut : read_shut w → read_shut (run (step a) w))
    by apply (keeps_any_step read_shut).
  destruct a as [| | | | | | |fd res keep_open| | | |];
    try (rewrite Hplain by done; destruct Hw as [?|[? ?]];
         [by left|right; split; [done|by apply Hshut]]).
  cbn [step]. unfold run, when_registered. case_bool_decide as Hreg; [|done].
  destruct (Hrc fd Hreg) as [Hrd _].
  destruct Hw as [H0|[_ [_ Hno]]]; [|congruence].
  destruct (_read_ready_eof res keep_open w) as (evs & Hlog & Hle & Hone).
  unfold run in *. rewrite Hlog, count_app, H0.
  destruct (count is_eof_received evs) as [|[|n]]; [by left|right; by split; [|apply Hone]|lia].
Qed.

(** X15. End of file is reported once.  After anything that can happen
    to a transport as its constructor leaves it, the protocol was told
    [eof_received] at most once, and if it was, the transport has
    forgotten its input descriptor and does not read. *)
Theorem eof_received_once (l : list Action) (w0 : World) :
  built w0 →
  let w := steps l w0 in
  (count is_eof_received (log w) ≤ 1)%nat
  ∧ (count is_eof_received (log w) = 1%nat →
     _in_fd (tr w) = -1 ∧ _is_reading (tr w) = false).
Proof.
  intros Hbuilt w.
  assert (Hzero : count is_eof_received (log w0) = 0%nat).
  { destruct Hbuilt as [(c & i & o & k & ->)|(master & child & sin & sout & pidfd & k & ->)].
    - unfold __init__, new_transport, empty_loop, world. unfold_open. cbn.
      destruct (i =? -1); reflexivity.
    - unfold SubprocessTransport__init__, __init__, watch_exit, watcher_add_child_handler,
        new_subprocess_transport, new_transport, empty_loop, world.
      destruct master as [m|], pidfd as [pfd|]; unfold_open; cbn;
        match goal with |- context [?x =? -1] => destruct (x =? -1); cbn end;
        reflexivity. }
  assert (Hall : ∀ l w, reading_coherent w →
            count is_eof_received (log w) = 0%nat
            ∨ (count is_eof_received (log w) = 1%nat ∧ read_shut w) →
            count is_eof_received (log (steps l w)) = 0%nat
            ∨ (count is_eof_received (log (steps l w)) = 1%nat ∧ read_shut (steps l w))).
  { clear. induction l as [|a l IH]; intros w Hrc Hw; [done|].
    cbn [steps]. apply IH; [by apply (keeps_any_step reading_coherent)|].
    by apply step_eof_once. }
  destruct (Hall l w0) as [H0|[H1 Hshut]]; [by apply built_lifecycle|by left|..];
    fold w in H0 || fold w in H1, Hshut.
  - split; [lia|]. intros ?. lia.
  - split; [lia|]. by intros _.
Qed.

Lemma eof_received_once_witness :
  let w := steps [Readable 4 (Done []) true; Readable 4 (Done []) true; ResumeReading;
                  Readable 4 (Errno EIO) false] pipe_child in
  (count is_eof_received (log w) ≤ 1)%nat
  ∧ (count is_eof_received (log w) = 1%nat →
     _in_fd (tr w) = -1 ∧ _is_reading (tr w) = false).
Proof.
  apply (eof_received_once
           [Readable 4 (Done []) true; Readable 4 (Done []) true; ResumeReading;
            Readable 4 (Errno EIO) false] pipe_child).
  right. by exists None, 100, 5, 4, (Some 7), kill_ok.
Defined.
